(** * Photo Coloring Converter: raster pipeline and vector extraction

    A shallow embedding of the image-processing engine
    ([ImageProcessingEngine]) and of the vector generator
    ([SVGVectorGenerator]), followed by the properties of the
    specification that concern them.

    Conventions of the embedding.
    - A [Uint8ClampedArray] is a [list Z]; a store clamps to 0..255 and
      turns NaN into 0, a store outside the array is ignored, a read
      outside the array yields [undefined], which arithmetic turns into
      NaN.  NaN is [None] in a [option Z].
    - Pixel and index arithmetic is over [Z]; geometry on points is over
      the real numbers [R], the idealisation of JavaScript's doubles.  The
      colour arithmetic of the grey and contrast stages is exact, over [Z]
      and the rationals [Q]; the bounds of a drawing and its transform are
      real numbers extended by the two infinities and NaN.  Where the
      rounding of doubles matters, a property is stated for points with
      integer coordinates, on which the sums and differences of the code
      are exact, or up to a floating tolerance on a bounded range.
    - A [for] loop over an integer range is a left fold over [seqZ]
      ([for_range]; [for_rangeM] when its body may run out of fuel).
    - A [while] loop and a recursion take fuel; the theorems give the
      fuel that is enough, so that the call returns. *)

From stdpp Require Import base option list list_numbers strings.
From Stdlib Require Import ZArith QArith Qround Qminmax Lia Reals Rgeom Lra Psatz.

Local Open Scope Z_scope.

(** ** Loops *)

(** [for (let i = lo; i < hi; i++) s = body(i, s)] *)
Definition for_range {St : Type} (lo hi : Z) (body : Z → St → St) (s : St) : St :=
  foldl (λ s i, body i s) s (seqZ lo (hi - lo)).

(** The same loop when the body may fail to return. *)
Definition for_rangeM {St : Type} (lo hi : Z) (body : Z → St → option St)
    (s : St) : option St :=
  foldl (λ s i, s ≫= body i) (Some s) (seqZ lo (hi - lo)).

(** ** Typed arrays and [ImageData] *)

(** [data[i]]: [None] is [undefined]. *)
Definition u8_get (d : list Z) (i : Z) : option Z :=
  if decide (0 ≤ i) then d !! Z.to_nat i else None.

(** Conversion of a number to a clamped byte; NaN becomes 0. *)
Definition to_u8_clamp (v : option Z) : Z :=
  match v with
  | Some n => Z.max 0 (Z.min 255 n)
  | None => 0
  end.

(** [data[i] = v] on a [Uint8ClampedArray]. *)
Definition u8_set (i : Z) (v : option Z) (d : list Z) : list Z :=
  if decide (0 ≤ i) then <[Z.to_nat i := to_u8_clamp v]> d else d.

Record ImageData := mkImageData {
  width : Z;
  height : Z;
  data : list Z
}.

(** [new ImageData(width, height)]: transparent black. *)
Definition newImageData (w h : Z) : ImageData :=
  mkImageData w h (replicate (Z.to_nat (w * h * 4)) 0).

(** The invariant of the DOM type: four channels per pixel. *)
Definition wf_image (img : ImageData) : Prop :=
  0 ≤ width img ∧ 0 ≤ height img ∧
  length (data img) = Z.to_nat (width img * height img * 4) ∧
  Forall (λ v, 0 ≤ v ≤ 255) (data img).

(** The fields of [processingSettings] that the modelled stages read. *)
Record ProcessingSettings := mkProcessingSettings {
  edgeThreshold : Z;
  morphologyRadius : Z
}.

(** [edgeThreshold: 50], [morphologyRadius: 2] *)
Definition defaultProcessingSettings : ProcessingSettings :=
  mkProcessingSettings 50 2.

(** ** Edge detection *)

Definition sobelX : list Z := [-1; 0; 1; -2; 0; 2; -1; 0; 1].
Definition sobelY : list Z := [-1; -2; -1; 0; 0; 0; 1; 2; 1].

Definition js_add (a b : option Z) : option Z :=
  a ≫= λ a', b ≫= λ b', Some (a' + b').
Definition js_mul (a b : option Z) : option Z :=
  a ≫= λ a', b ≫= λ b', Some (a' * b').

(** [Math.sqrt(pixelX * pixelX + pixelY * pixelY) > threshold], decided
    on the squares; a comparison with NaN is false. *)
Definition magnitude_exceeds (pixelX pixelY : option Z) (threshold : Z) : bool :=
  match pixelX, pixelY with
  | Some gx, Some gy =>
      bool_decide (threshold < 0 ∨ threshold * threshold < gx * gx + gy * gy)
  | _, _ => false
  end.

(** The two inner loops of [detectEdges] over the 3x3 kernel, as a
    function of the pixel. *)
Definition sobelAt (d : list Z) (width x y : Z) : option Z * option Z :=
  for_range (-1) (1 + 1) (λ ky acc,
    for_range (-1) (1 + 1) (λ kx '(pixelX, pixelY),
      let idx := ((y + ky) * width + (x + kx)) * 4 in
      let intensity := u8_get d idx in
      let kernelIdx := (ky + 1) * 3 + (kx + 1) in
      (js_add pixelX (js_mul intensity (u8_get sobelX kernelIdx)),
       js_add pixelY (js_mul intensity (u8_get sobelY kernelIdx)))) acc)
    (Some 0, Some 0).

Definition detectEdges (s : ProcessingSettings) (imageData : ImageData) : ImageData :=
  let w := width imageData in
  let h := height imageData in
  let src := data imageData in
  let result := newImageData w h in
  mkImageData w h
    (for_range 1 (h - 1) (λ y rdata,
       for_range 1 (w - 1) (λ x rdata,
         let '(pixelX, pixelY) :=
           for_range (-1) (1 + 1) (λ ky acc,
             for_range (-1) (1 + 1) (λ kx '(pixelX, pixelY),
               let idx := ((y + ky) * w + (x + kx)) * 4 in
               let intensity := u8_get src idx in
               let kernelIdx := (ky + 1) * 3 + (kx + 1) in
               (js_add pixelX (js_mul intensity (u8_get sobelX kernelIdx)),
                js_add pixelY (js_mul intensity (u8_get sobelY kernelIdx))))
               acc)
             (Some 0, Some 0) in
         let edge := if magnitude_exceeds pixelX pixelY (edgeThreshold s)
                     then 0 else 255 in
         let resultIdx := (y * w + x) * 4 in
         u8_set (resultIdx + 3) (Some 255)
           (u8_set (resultIdx + 2) (Some edge)
             (u8_set (resultIdx + 1) (Some edge)
               (u8_set resultIdx (Some edge) rdata)))) rdata)
       (data result)).

(** The value [detectEdges] stores in the colour channels of an
    interior pixel. *)
Definition edgeAt (s : ProcessingSettings) (img : ImageData) (x y : Z) : Z :=
  let '(pixelX, pixelY) := sobelAt (data img) (width img) x y in
  if magnitude_exceeds pixelX pixelY (edgeThreshold s) then 0 else 255.

(** ** Morphology *)

Definition js_min (a b : option Z) : option Z :=
  a ≫= λ a', b ≫= λ b', Some (Z.min a' b').
Definition js_max (a b : option Z) : option Z :=
  a ≫= λ a', b ≫= λ b', Some (Z.max a' b').

Definition morphologicalErosion (s : ProcessingSettings) (imageData : ImageData)
    : ImageData :=
  let w := width imageData in
  let h := height imageData in
  let src := data imageData in
  let result := newImageData w h in
  let radius := morphologyRadius s in
  mkImageData w h
    (for_range radius (h - radius) (λ y rdata,
       for_range radius (w - radius) (λ x rdata,
         let minValue :=
           for_range (- radius) (radius + 1) (λ ky minValue,
             for_range (- radius) (radius + 1) (λ kx minValue,
               let idx := ((y + ky) * w + (x + kx)) * 4 in
               js_min minValue (u8_get src idx)) minValue)
             (Some 255) in
         let idx := (y * w + x) * 4 in
         u8_set (idx + 3) (Some 255)
           (u8_set idx minValue
             (u8_set (idx + 1) minValue
               (u8_set (idx + 2) minValue rdata)))) rdata)
       (data result)).

Definition morphologicalDilation (s : ProcessingSettings) (imageData : ImageData)
    : ImageData :=
  let w := width imageData in
  let h := height imageData in
  let src := data imageData in
  let result := newImageData w h in
  let radius := morphologyRadius s in
  mkImageData w h
    (for_range radius (h - radius) (λ y rdata,
       for_range radius (w - radius) (λ x rdata,
         let maxValue :=
           for_range (- radius) (radius + 1) (λ ky maxValue,
             for_range (- radius) (radius + 1) (λ kx maxValue,
               let idx := ((y + ky) * w + (x + kx)) * 4 in
               js_max maxValue (u8_get src idx)) maxValue)
             (Some 0) in
         let idx := (y * w + x) * 4 in
         u8_set (idx + 3) (Some 255)
           (u8_set idx maxValue
             (u8_set (idx + 1) maxValue
               (u8_set (idx + 2) maxValue rdata)))) rdata)
       (data result)).

(** The red channel of the pixel at column [x], row [y]. *)
Definition red (img : ImageData) (x y : Z) : option Z :=
  u8_get (data img) ((y * width img + x) * 4).

(** A pixel is ink when the tracer's binary map marks it:
    [data[idx] < 128] in [createBinaryMap]. *)
Definition is_ink (img : ImageData) (x y : Z) : Prop :=
  0 ≤ x < width img ∧ 0 ≤ y < height img ∧
  ∃ v, red img x y = Some v ∧ v < 128.

(** Channel [c] (0 red, 1 green, 2 blue, 3 alpha) of a pixel. *)
Definition channel (img : ImageData) (x y c : Z) : option Z :=
  u8_get (data img) ((y * width img + x) * 4 + c).

(** The red value as a number, 0 where the buffer has none. *)
Definition intensity (img : ImageData) (x y : Z) : Z :=
  default 0 (red img x y).

(** The horizontal and vertical Sobel responses, written out. *)
Definition gradX (img : ImageData) (x y : Z) : Z :=
  - intensity img (x - 1) (y - 1) + intensity img (x + 1) (y - 1)
  - 2 * intensity img (x - 1) y + 2 * intensity img (x + 1) y
  - intensity img (x - 1) (y + 1) + intensity img (x + 1) (y + 1).

Definition gradY (img : ImageData) (x y : Z) : Z :=
  - intensity img (x - 1) (y - 1) - 2 * intensity img x (y - 1)
  - intensity img (x + 1) (y - 1)
  + intensity img (x - 1) (y + 1) + 2 * intensity img x (y + 1)
  + intensity img (x + 1) (y + 1).

(** The gradient magnitude [sqrt(gx^2 + gy^2)] as a real number. *)
Definition magnitude (img : ImageData) (x y : Z) : R :=
  sqrt (IZR (gradX img x y * gradX img x y + gradY img x y * gradY img x y)).

(** The pixels of the image that lie on its outermost ring. *)
Definition on_border_ring (img : ImageData) (x y : Z) : Prop :=
  0 ≤ x < width img ∧ 0 ≤ y < height img ∧
  (x = 0 ∨ x = width img - 1 ∨ y = 0 ∨ y = height img - 1).

(** Every pixel of the outermost ring is background (255). *)
Definition border_is_background (img : ImageData) : Prop :=
  ∀ x y c, on_border_ring img x y → 0 ≤ c < 3 → channel img x y c = Some 255.

(** A uniformly white 3x3 image. *)
Definition white3 : ImageData := mkImageData 3 3 (replicate 36 255).

(** The neighbourhood loops that erosion and dilation share: [op] is
    [Math.min] or [Math.max], [init] the initial extreme value. *)
Definition neighbourhood (op : option Z → option Z → option Z) (init : Z)
    (src : list Z) (w radius x y : Z) : option Z :=
  for_range (- radius) (radius + 1) (λ ky acc,
    for_range (- radius) (radius + 1) (λ kx acc,
      let idx := ((y + ky) * w + (x + kx)) * 4 in
      op acc (u8_get src idx)) acc)
    (Some init).

(** The common shape of [morphologicalErosion] and [morphologicalDilation]. *)
Definition morph_stage (op : option Z → option Z → option Z) (init : Z)
    (s : ProcessingSettings) (imageData : ImageData) : ImageData :=
  let w := width imageData in
  let h := height imageData in
  let radius := morphologyRadius s in
  mkImageData w h
    (for_range radius (h - radius) (λ y rdata,
       for_range radius (w - radius) (λ x rdata,
         let value := neighbourhood op init (data imageData) w radius x y in
         let idx := (y * w + x) * 4 in
         u8_set (idx + 3) (Some 255)
           (u8_set idx value
             (u8_set (idx + 1) value
               (u8_set (idx + 2) value rdata)))) rdata)
       (data (newImageData w h))).

(** The pixels that the morphological stages compute: those at distance
    at least [radius] from every side. *)
Definition morph_interior (s : ProcessingSettings) (img : ImageData) (x y : Z) : Prop :=
  morphologyRadius s ≤ x < width img - morphologyRadius s ∧
  morphologyRadius s ≤ y < height img - morphologyRadius s.

(** A grey, opaque image whose pixel at [(x, y)] has value [f x y]. *)
Definition gray_image (w h : Z) (f : Z → Z → Z) : ImageData :=
  mkImageData w h
    (y ← seqZ 0 h; x ← seqZ 0 w; [f x y; f x y; f x y; 255]).

(** Black everywhere but for one white pixel in the middle. *)
Definition white_hole : ImageData :=
  gray_image 9 9 (λ x y, if decide (x = 4 ∧ y = 4) then 255 else 0).

(** Every ink pixel of [a] is an ink pixel of [b]. *)
Definition ink_subset (a b : ImageData) : Prop :=
  ∀ x y, is_ink a x y → is_ink b x y.

(** The shape of the pixel loops of the filters: a scan of the rows
    [ylo..yhi-1] and columns [xlo..xhi-1] that runs [wr x y] on the
    output buffer at each pixel. *)
Definition scan_row (wr : Z → Z → list Z → list Z) (xlo xhi y : Z)
    (d : list Z) : list Z :=
  for_range xlo xhi (λ x d, wr x y d) d.

Definition scan (wr : Z → Z → list Z → list Z) (ylo yhi xlo xhi : Z)
    (d : list Z) : list Z :=
  for_range ylo yhi (λ y d, scan_row wr xlo xhi y d) d.

(** ** Region tracer *)

(** A JavaScript object [{ x, y }] with coordinates in [A]: pixel
    coordinates are integers, smoothed points are reals. *)
Record Point (A : Type) := mkPoint { px : A; py : A }.
Arguments mkPoint {A} _ _.
Arguments px {A} _.
Arguments py {A} _.

Global Instance Point_eq_dec {A} `{EqDecision A} : EqDecision (Point A).
Proof. solve_decision. Defined.

(** The fields of [optimizationSettings] that the modelled code reads. *)
Record OptimizationSettings := mkOptimizationSettings {
  simplifyTolerance : R;
  minPathLength : Z;
  maxPoints : Z
}.

(** [simplifyTolerance: 2.0], [minPathLength: 10], [maxPoints: 1000] *)
Definition defaultOptimizationSettings : OptimizationSettings :=
  mkOptimizationSettings 2 10 1000.

(** [m[y][x]] on an array of rows; [None] is [undefined].  On a missing
    row JavaScript raises a [TypeError] instead: the theorems on the tracer
    assume maps with all their rows ([wf_grid]), as [createBinaryMap]
    builds them. *)
Definition get2 {A : Type} (m : list (list A)) (x y : Z) : option A :=
  if decide (0 ≤ x ∧ 0 ≤ y)
  then m !! Z.to_nat y ≫= λ row, row !! Z.to_nat x
  else None.

(** [m[y][x] = v], for a cell that exists. *)
Definition set2 {A : Type} (m : list (list A)) (x y : Z) (v : A) : list (list A) :=
  if decide (0 ≤ x ∧ 0 ≤ y)
  then alter (λ row, <[Z.to_nat x := v]> row) (Z.to_nat y) m
  else m.

(** An array of [height] rows of [width] cells. *)
Definition wf_grid {A : Type} (m : list (list A)) (width height : Z) : Prop :=
  0 ≤ width ∧ 0 ≤ height ∧
  length m = Z.to_nat height ∧ Forall (λ row, length row = Z.to_nat width) m.

(** [binaryMap[y][x] = data[idx] < 128 ? 1 : 0]; the rows and cells are
    assigned in increasing order, so each assignment appends.  A
    comparison with [undefined] is false. *)
Definition createBinaryMap (src : list Z) (width height : Z) : list (list Z) :=
  for_range 0 height (λ y binaryMap,
    binaryMap ++ [for_range 0 width (λ x row,
      let idx := (y * width + x) * 4 in
      row ++ [match u8_get src idx with
              | Some v => if bool_decide (v < 128) then 1 else 0
              | None => 0
              end])
      []]) [].

Definition directions : list (Z * Z) :=
  [(-1, -1); (-1, 0); (-1, 1);
   (0, -1);           (0, 1);
   (1, -1);  (1, 0);  (1, 1)].

Definition in_range (width height x y : Z) : bool :=
  bool_decide (0 ≤ x ∧ x < width ∧ 0 ≤ y ∧ y < height).

(** The loop [for (const [dx, dy] of directions)] of [traceContour]. *)
Definition pushNeighbours (binaryMap : list (list Z)) (visited : list (list bool))
    (width height x y : Z) (dirs : list (Z * Z)) (stack : list (Z * Z))
    : list (Z * Z) :=
  foldl (λ stack '(dx, dy),
    let nx := x + dx in
    let ny := y + dy in
    if in_range width height nx ny
       && negb (bool_decide (get2 visited nx ny = Some true))
       && bool_decide (get2 binaryMap nx ny = Some 1)
    then (nx, ny) :: stack else stack) stack dirs.

(** The [while] loop of [traceContour].  The head of [stack] is the top
    of the JavaScript array used as a stack. *)
Fixpoint traceLoop (fuel : nat) (s : OptimizationSettings)
    (binaryMap : list (list Z)) (width height : Z) (dirs : list (Z * Z))
    (stack : list (Z * Z)) (contour : list (Point Z))
    (visited : list (list bool))
    : option (list (Point Z) * list (list bool)) :=
  match fuel with
  | O => None
  | S fuel =>
      match stack with
      | [] => Some (contour, visited)
      | (x, y) :: stack =>
          if bool_decide (Z.of_nat (length contour) < maxPoints s) then
            if negb (in_range width height x y)
               || bool_decide (get2 visited x y = Some true)
               || bool_decide (get2 binaryMap x y = Some 0)
            then traceLoop fuel s binaryMap width height dirs stack contour visited
            else
              let visited := set2 visited x y true in
              let contour := contour ++ [mkPoint x y] in
              let stack :=
                pushNeighbours binaryMap visited width height x y dirs stack in
              traceLoop fuel s binaryMap width height dirs stack contour visited
          else Some (contour, visited)
      end
  end.

Definition traceContour (fuel : nat) (s : OptimizationSettings)
    (binaryMap : list (list Z)) (visited : list (list bool))
    (startX startY width height : Z) (dirs : list (Z * Z))
    : option (list (Point Z) * list (list bool)) :=
  traceLoop fuel s binaryMap width height dirs [(startX, startY)] [] visited.

(** One step of the inner scan of [findContours]. *)
Definition findContoursAt (fuel : nat) (s : OptimizationSettings)
    (binaryMap : list (list Z)) (width height x y : Z)
    (st : list (list (Point Z)) * list (list bool))
    : option (list (list (Point Z)) * list (list bool)) :=
  let '(contours, visited) := st in
  if bool_decide (get2 binaryMap x y = Some 1)
     && negb (bool_decide (get2 visited x y = Some true))
  then
    '(contour, visited) ←
      traceContour fuel s binaryMap visited x y width height directions;
    if bool_decide (minPathLength s ≤ Z.of_nat (length contour))
    then Some (contours ++ [contour], visited)
    else Some (contours, visited)
  else Some (contours, visited).

Definition findContours (fuel : nat) (s : OptimizationSettings)
    (binaryMap : list (list Z)) (width height : Z)
    : option (list (list (Point Z))) :=
  let visited :=
    replicate (Z.to_nat height) (replicate (Z.to_nat width) false) in
  fst <$>
    for_rangeM 1 (height - 1) (λ y st,
      for_rangeM 1 (width - 1) (λ x st,
        findContoursAt fuel s binaryMap width height x y st) st)
      ([], visited).

(** The pixel is marked in the [visited] array. *)
Definition marked (visited : list (list bool)) (p : Point Z) : Prop :=
  get2 visited (px p) (py p) = Some true.

(** What the scan of [findContours] maintains: no pixel occurs twice in
    the contours collected so far, each of their pixels is marked, and
    none is longer than [maxPoints]. *)
Definition scan_inv (s : OptimizationSettings) (width height : Z)
    (st : list (list (Point Z)) * list (list bool)) : Prop :=
  wf_grid st.2 width height ∧
  NoDup (mjoin st.1) ∧
  (∀ p, p ∈ mjoin st.1 → marked st.2 p) ∧
  Forall (λ c, Z.of_nat (length c) ≤ Z.max 0 (maxPoints s)) st.1.

(** No pixel lies in two different contours of the list. *)
Definition pairwise_disjoint (contours : list (list (Point Z))) : Prop :=
  ∀ i j ci cj p,
    contours !! i = Some ci → contours !! j = Some cj →
    p ∈ ci → p ∈ cj → i = j.

(** A 5x6 map with two regions. *)
Definition two_regions : list (list Z) :=
  [[0; 0; 0; 0; 0; 0];
   [0; 1; 1; 0; 0; 0];
   [0; 1; 0; 0; 1; 0];
   [0; 0; 0; 0; 1; 0];
   [0; 0; 0; 0; 0; 0]].

(** Every cell of the map is background. *)
Definition all_background (binaryMap : list (list Z)) : Prop :=
  ∀ x y v, get2 binaryMap x y = Some v → v = 0.

(** The cell [(x0, y0)] is ink and every other cell is background. *)
Definition isolated_ink (binaryMap : list (list Z)) (x0 y0 : Z) : Prop :=
  get2 binaryMap x0 y0 = Some 1 ∧
  ∀ x y v, (x, y) ≠ (x0, y0) → get2 binaryMap x y = Some v → v = 0.

(** A 5x5 map whose only ink is its centre. *)
Definition one_pixel : list (list Z) :=
  [[0; 0; 0; 0; 0];
   [0; 0; 0; 0; 0];
   [0; 0; 1; 0; 0];
   [0; 0; 0; 0; 0];
   [0; 0; 0; 0; 0]].

(** ** Geometry on points *)

Global Instance Rlt_decision (a b : R) : Decision (a < b)%R := Rlt_dec a b.
Global Instance Rgt_decision (a b : R) : Decision (a > b)%R := Rgt_dec a b.
Global Instance Req_decision : EqDecision R := Req_EM_T.

Global Instance Point_inhabited : Inhabited (Point R) :=
  populate (mkPoint 0%R 0%R).

(** [a[i]] for an index inside the array; every read of the modelled
    code is one. *)
Definition arr_get {A : Type} `{Inhabited A} (a : list A) (i : Z) : A :=
  a !!! Z.to_nat i.

(** [a.slice(start, end)]: a negative index counts from the end. *)
Definition slice_index (n i : Z) : Z :=
  if decide (i < 0) then Z.max (n + i) 0 else Z.min i n.

Definition slice {A : Type} (a : list A) (start end_ : Z) : list A :=
  let n := Z.of_nat (length a) in
  let from := slice_index n start in
  let to := slice_index n end_ in
  take (Z.to_nat (to - from)) (drop (Z.to_nat from) a).

(** [a.slice(start)] *)
Definition slice_from {A : Type} (a : list A) (start : Z) : list A :=
  slice a start (Z.of_nat (length a)).

(** A division; [None] when the divisor is zero, where the quotient is
    not a real number. *)
Definition js_div (a b : R) : option R :=
  if decide (b = 0%R) then None else Some (a / b)%R.

Definition perpendicularDistance (point lineStart lineEnd : Point R) : option R :=
  let A := (px point - px lineStart)%R in
  let B := (py point - py lineStart)%R in
  let C := (px lineEnd - px lineStart)%R in
  let D := (py lineEnd - py lineStart)%R in
  let dot := (A * C + B * D)%R in
  let lenSq := (C * C + D * D)%R in
  if decide (lenSq = 0%R) then Some (sqrt (A * A + B * B))
  else
    param ← js_div dot lenSq;
    let '(xx, yy) :=
      if decide (param < 0)%R then (px lineStart, py lineStart)
      else if decide (param > 1)%R then (px lineEnd, py lineEnd)
      else ((px lineStart + param * C)%R, (py lineStart + param * D)%R) in
    let dx := (px point - xx)%R in
    let dy := (py point - yy)%R in
    Some (sqrt (dx * dx + dy * dy)).

(** The Euclidean distance of two points. *)
Definition dist (p q : Point R) : R :=
  sqrt ((px p - px q) * (px p - px q) + (py p - py q) * (py p - py q)).




(** ** Contour smoothing *)

(** [%] on integers: the remainder has the sign of the dividend. *)
Definition js_rem (a b : Z) : Z := Z.rem a b.

Definition smoothContour (contour : list (Point R)) : list (Point R) :=
  if decide (length contour < 5)%nat then contour
  else
    let n := Z.of_nat (length contour) in
    let windowSize := Z.min 5 (n / 10) in
    for_range 0 n (λ i smoothed,
      let '(sumX, sumY, count) :=
        for_range (- windowSize) (windowSize + 1) (λ j '(sumX, sumY, count),
          let idx := js_rem (i + j + n) n in
          ((sumX + px (arr_get contour idx))%R,
           (sumY + py (arr_get contour idx))%R,
           count + 1))
          (0%R, 0%R, 0) in
      smoothed ++ [mkPoint (sumX / IZR count)%R (sumY / IZR count)%R]) [].

(** The sum of a list of reals. *)
Definition Rsum (l : list R) : R := foldr Rplus 0%R l.

(** The mean of the coordinate [f] over the [2 w + 1] points at the
    indices [i - w .. i + w] taken modulo the length, with
    [w = min(5, floor(len / 10))]. *)
Definition window_mean (f : Point R → R) (contour : list (Point R)) (i : Z) : R :=
  let n := Z.of_nat (length contour) in
  let w := Z.min 5 (n / 10) in
  (Rsum ((λ k, f (arr_get contour (k `mod` n))) <$> seqZ (i - w) (2 * w + 1))
   / IZR (2 * w + 1))%R.

(** Ten points on the parabola [y = x^2]. *)
Definition parabola10 : list (Point R) :=
  (λ k, mkPoint (IZR k) (IZR (k * k))) <$> seqZ 0 10.

(** ** Path simplification *)

(** A tolerance: a real number or [Infinity]. *)
Inductive Tolerance :=
  | Finite (t : R)
  | Infinity.

(** [maxDistance > tolerance] *)
Definition exceeds (maxDistance : R) (tolerance : Tolerance) : bool :=
  match tolerance with
  | Finite t => bool_decide (maxDistance > t)%R
  | Infinity => false
  end.

(** The loop of [douglasPeucker] that finds the farthest interior point.
    A distance that is not a number compares false. *)
Definition farthest (points : list (Point R)) (end_ : Z) : R * Z :=
  for_range 1 end_ (λ i '(maxDistance, maxIndex),
    let distance :=
      perpendicularDistance (arr_get points i) (arr_get points 0)
        (arr_get points end_) in
    match distance with
    | Some d =>
        if decide (d > maxDistance)%R then (d, i) else (maxDistance, maxIndex)
    | None => (maxDistance, maxIndex)
    end) (0%R, 0).

Fixpoint douglasPeucker (fuel : nat) (points : list (Point R))
    (tolerance : Tolerance) : option (list (Point R)) :=
  if decide (length points ≤ 2)%nat then Some points
  else
    match fuel with
    | O => None
    | S fuel =>
        let end_ := Z.of_nat (length points) - 1 in
        let '(maxDistance, maxIndex) := farthest points end_ in
        if exceeds maxDistance tolerance then
          left ← douglasPeucker fuel (slice points 0 (maxIndex + 1)) tolerance;
          right ← douglasPeucker fuel (slice_from points maxIndex) tolerance;
          Some (slice left 0 (-1) ++ right)
        else Some [arr_get points 0; arr_get points end_]
    end.

Definition simplifyPath (fuel : nat) (s : OptimizationSettings)
    (points : list (Point R)) : option (list (Point R)) :=
  if decide (length points ≤ 2)%nat then Some points
  else douglasPeucker fuel points (Finite (simplifyTolerance s)).

(** The tolerance is not negative. *)
Definition tolerance_nonneg (tolerance : Tolerance) : Prop :=
  match tolerance with
  | Finite t => (0 <= t)%R
  | Infinity => True
  end.






(** Three points that are not on a line. *)
Definition bent3 : list (Point R) :=
  [mkPoint 0%R 0%R; mkPoint 1%R 1%R; mkPoint 2%R 0%R].


(** ** Curve builder and extractor *)

(** One command of the path data string: [M x y], [L x y] or
    [Q cx cy ex ey].  The string is the list of its commands; how a
    number is printed is left to JavaScript. *)
Inductive PathCommand :=
  | MoveTo (x y : R)
  | LineTo (x y : R)
  | QuadTo (controlX controlY endX endY : R).

Definition generateSmoothPathData (points : list (Point R)) : list PathCommand :=
  if decide (length points < 2)%nat then []
  else
    let pathData := [MoveTo (px (arr_get points 0)) (py (arr_get points 0))] in
    if decide (length points = 2%nat)
    then pathData ++ [LineTo (px (arr_get points 1)) (py (arr_get points 1))]
    else
      let n := Z.of_nat (length points) in
      let pathData :=
        for_range 1 (n - 1) (λ i pathData,
          let current := arr_get points i in
          let next := arr_get points (i + 1) in
          let controlX := px current in
          let controlY := py current in
          let endX := ((px current + px next) / 2)%R in
          let endY := ((py current + py next) / 2)%R in
          pathData ++ [QuadTo controlX controlY endX endY]) pathData in
      let lastPoint := arr_get points (n - 1) in
      pathData ++ [LineTo (px lastPoint) (py lastPoint)].

Definition calculatePathLength (points : list (Point R)) : R :=
  for_range 1 (Z.of_nat (length points)) (λ i len,
    let dx := (px (arr_get points i) - px (arr_get points (i - 1)))%R in
    let dy := (py (arr_get points i) - py (arr_get points (i - 1)))%R in
    (len + sqrt (dx * dx + dy * dy))%R) 0%R.

Record Bounds := mkBounds {
  bounds_x : R;
  bounds_y : R;
  bounds_width : R;
  bounds_height : R
}.

Definition calculateBounds (points : list (Point R)) : Bounds :=
  if decide (length points = 0%nat) then mkBounds 0 0 0 0
  else
    let p0 := arr_get points 0 in
    let '(minX, maxX, minY, maxY) :=
      foldl (λ '(minX, maxX, minY, maxY) point,
        (Rmin minX (px point), Rmax maxX (px point),
         Rmin minY (py point), Rmax maxY (py point)))
        (px p0, px p0, py p0, py p0) points in
    mkBounds minX minY (maxX - minX) (maxY - minY).

(** The path object [{ points, pathData, length, bounds }]. *)
Record SVGPath := mkSVGPath {
  path_points : list (Point R);
  path_pathData : list PathCommand;
  path_length : R;
  path_bounds : Bounds
}.

(** [None] is [null]. *)
Definition createSVGPath (points : list (Point R)) : option SVGPath :=
  if decide (length points < 2)%nat then None
  else
    let pathData := generateSmoothPathData points in
    Some (mkSVGPath points pathData (calculatePathLength points)
            (calculateBounds points)).

(** A traced pixel as a point of the plane. *)
Definition to_real (p : Point Z) : Point R :=
  mkPoint (IZR (px p)) (IZR (py p)).

(** Points with integer coordinates of absolute value up to 4096, as the
    tracer produces them: on these the sums and differences of the code
    are exact on doubles. *)
Definition pixel_points (points : list (Point R)) : Prop :=
  ∃ pixels : list (Point Z),
    points = to_real <$> pixels ∧
    Forall (λ p, Z.abs (px p) ≤ 4096 ∧ Z.abs (py p) ≤ 4096) pixels.

(** [path && path.points && path.points.length >= 3] *)
Definition keepPath (path : option SVGPath) : bool :=
  match path with
  | Some p => bool_decide (3 ≤ length (path_points p))%nat
  | None => false
  end.

Definition extractVectorPaths (fuel : nat) (s : OptimizationSettings)
    (imageData : ImageData) : option (list (option SVGPath)) :=
  let w := width imageData in
  let h := height imageData in
  let binaryMap := createBinaryMap (data imageData) w h in
  contours ← findContours fuel s binaryMap w h;
  vectorPaths ← mapM (λ contour,
    let smoothedContour := smoothContour (to_real <$> contour) in
    simplifiedPath ← simplifyPath fuel s smoothedContour;
    Some (createSVGPath simplifiedPath)) contours;
  Some (filter (λ path, keepPath path = true) vectorPaths).

(** ** Batch processing *)

(** What a rejected promise carries: an [Error] with its message, or the
    [IndexSizeError] that [getImageData] throws for an empty rectangle. *)
Inductive ProcessingError :=
  | JsError (message : string)
  | IndexSizeError.

(** What the browser makes of a file: [reader.onerror] fires, or
    [img.onerror] fires, or [img.onload] fires with a decoded bitmap. *)
Inductive FileContent :=
  | Unreadable
  | Undecodable
  | Bitmap (img : ImageData).

(** An uploaded file: its name, its size and its content. *)
Record ImageFile := mkImageFile {
  file_name : string;
  file_size : Z;
  file_content : FileContent
}.

Record Metadata := mkMetadata {
  filename : string;
  meta_width : Z;
  meta_height : Z;
  fileSize : Z
}.

Record ImageResult := mkImageResult {
  index : nat;
  originalFile : ImageFile;
  originalImageData : ImageData;
  processedImageData : ImageData;
  metadata : Metadata
}.

(** [window.AppState.processedImages] and the errors shown to the user. *)
Record AppState := mkAppState {
  processedImages : list ImageResult;
  alerts : list ProcessingError
}.

(** [Math.round(a / b)] for [0 ≤ a] and [0 < b]. *)
Definition round_div (a b : Z) : Z := (2 * a + b) / (2 * b).

(** The size of the canvas for an image of [w] by [h] pixels. *)
Definition setupCanvas (w h : Z) : Z * Z :=
  let maxWidth := 1200 in
  let maxHeight := 1200 in
  if decide (w > maxWidth ∨ h > maxHeight) then
    if decide (w > h) then (maxWidth, round_div (maxWidth * h) w)
    else (round_div (maxHeight * w) h, maxHeight)
  else (w, h).

Section Batch.
(** The canvas and its blur filter belong to the browser: [getImageData]
    is the bitmap read back from a canvas of the given size on which the
    image was drawn, [applyProcessingPipeline] the seven stages. *)
Variable getImageData : ImageData → Z → Z → ImageData.
Variable applyProcessingPipeline : ImageData → ImageData.

(** The promise of [processSingleImage]: [inl] rejected, [inr] resolved. *)
Definition processSingleImage (file : ImageFile) (i : nat)
    : ProcessingError + ImageResult :=
  match file_content file with
  | Unreadable => inl (JsError ("Failed to read file: " +:+ file_name file))
  | Undecodable => inl (JsError ("Failed to load image: " +:+ file_name file))
  | Bitmap img =>
      let '(canvasWidth, canvasHeight) := setupCanvas (width img) (height img) in
      if decide (canvasWidth = 0 ∨ canvasHeight = 0) then inl IndexSizeError
      else
        let original := getImageData img canvasWidth canvasHeight in
        let processed := applyProcessingPipeline original in
        inr (mkImageResult i file original processed
               (mkMetadata (file_name file) canvasWidth canvasHeight
                  (file_size file)))
  end.

(** The [for] loop of [processImages] from index [i] on; an awaited
    rejection leaves the loop. *)
Fixpoint processLoop (imageFiles : list ImageFile) (i : nat)
    (results : list ImageResult) : ProcessingError + list ImageResult :=
  match imageFiles with
  | [] => inr results
  | file :: rest =>
      match processSingleImage file i with
      | inl error => inl error
      | inr processedResult =>
          processLoop rest (S i) (results ++ [processedResult])
      end
  end.

(** [processImages]: the [try] block stores and returns the results, the
    [catch] block reports the error and throws it again. *)
Definition processImages (st : AppState) (imageFiles : list ImageFile)
    : AppState * (ProcessingError + list ImageResult) :=
  match processLoop imageFiles 0 [] with
  | inr results => (mkAppState results (alerts st), inr results)
  | inl error =>
      (mkAppState (processedImages st) (alerts st ++ [error]), inl error)
  end.
End Batch.

(** The batch call does not raise and returns [n] results, whatever the
    canvas, the pipeline and the state are. *)
Definition returns_results (imageFiles : list ImageFile) (n : nat) : Prop :=
  ∀ getImageData pipeline st,
    ∃ results,
      (processImages getImageData pipeline st imageFiles).2 = inr results ∧
      length results = n.

(** A batch of three images, the second of which has no pixels. *)
Definition batch3 : list ImageFile :=
  [mkImageFile "a.png" 100 (Bitmap white3);
   mkImageFile "b.png" 0 (Bitmap (mkImageData 0 0 []));
   mkImageFile "c.png" 100 (Bitmap white3)].

(** ** The other stages of the pipeline *)

(** [for (let i = 0; i < n; i += 4)] *)
Definition for_by4 {St : Type} (n : Z) (body : Z → St → St) (s : St) : St :=
  for_range 0 ((n + 3) / 4) (λ k s, body (4 * k) s) s.

(** [Math.round(0.299 * r + 0.587 * g + 0.114 * b)], in exact arithmetic;
    NaN when a channel is [undefined]. *)
Definition js_luma (r g b : option Z) : option Z :=
  r ≫= λ r', g ≫= λ g', b ≫= λ b',
    Some (round_div (299 * r' + 587 * g' + 114 * b') 1000).

(** [convertToGrayscale]: [result.data] is the copy [data] itself, which
    the loop reads and writes pixel by pixel. *)
Definition convertToGrayscale (imageData : ImageData) : ImageData :=
  let copy := data imageData in
  mkImageData (width imageData) (height imageData)
    (for_by4 (Z.of_nat (length copy)) (λ i d,
       let gray := js_luma (u8_get d i) (u8_get d (i + 1)) (u8_get d (i + 2)) in
       u8_set (i + 2) gray (u8_set (i + 1) gray (u8_set i gray d))) copy).

(** The fields of [processingSettings] that the stages of the claims do
    not read; the contrast factor and the blur radius are rationals. *)
Record ToneSettings := mkToneSettings {
  contrastBoost : Q;
  brightnessAdjust : Z;
  gaussianRadius : Q;
  lineWeightDefault : Z
}.

(** [contrastBoost: 1.2], [brightnessAdjust: 0], [gaussianRadius: 1.5],
    [lineWeight: 2] *)
Definition defaultToneSettings : ToneSettings :=
  mkToneSettings (12 # 10) 0 (15 # 10) 2.

(** The nearest integer, a tie going to the even one. *)
Definition round_half_even (q : Q) : Z :=
  let f := Qfloor q in
  match Qcompare (q - inject_Z f) (1 # 2) with
  | Lt => f
  | Gt => f + 1
  | Eq => if Z.even f then f else f + 1
  end.

(** The store of a number that need not be an integer in a clamped byte
    array. *)
Definition to_u8_clamp_Q (v : option Q) : Z :=
  match v with
  | Some q =>
      if Qle_bool q 0 then 0
      else if Qle_bool 255 q then 255
      else round_half_even q
  | None => 0
  end.

Definition u8_set_Q (i : Z) (v : option Q) (d : list Z) : list Z :=
  if decide (0 ≤ i) then <[Z.to_nat i := to_u8_clamp_Q v]> d else d.

Definition adjustContrastBrightness (t : ToneSettings) (imageData : ImageData)
    : ImageData :=
  let copy := data imageData in
  let contrast := contrastBoost t in
  let brightness := brightnessAdjust t in
  mkImageData (width imageData) (height imageData)
    (for_by4 (Z.of_nat (length copy)) (λ i d,
       for_range 0 3 (λ c d,
         let value := inject_Z <$> u8_get d (i + c) in
         let value := (λ v, (v - 128) * contrast + 128)%Q <$> value in
         let value := (λ v, v + inject_Z brightness)%Q <$> value in
         u8_set_Q (i + c) ((λ v, Qmax 0 (Qmin 255 v)) <$> value) d) d) copy).

Definition finalCleanup (imageData : ImageData) : ImageData :=
  let copy := data imageData in
  mkImageData (width imageData) (height imageData)
    (for_by4 (Z.of_nat (length copy)) (λ i d,
       let value :=
         match u8_get d i with
         | Some v => if bool_decide (v > 127) then 255 else 0
         | None => 0
         end in
       u8_set (i + 3) (Some 255)
         (u8_set i (Some value)
           (u8_set (i + 1) (Some value)
             (u8_set (i + 2) (Some value) d)))) copy).

(** The fields of [window.AppState.currentSettings] that the pipeline
    reads; [None] is [undefined]. *)
Record CurrentSettings := mkCurrentSettings {
  complexityLevel : option string;
  lineWeight : option string
}.

Definition applyMorphologicalOperations (s : ProcessingSettings)
    (settings : CurrentSettings) (imageData : ImageData) : ImageData :=
  let iterations :=
    if decide (complexityLevel settings = Some "simple") then 2
    else if decide (complexityLevel settings = Some "moderate") then 1
    else if decide (complexityLevel settings = Some "complex") then 0
    else 1 in
  for_range 0 iterations (λ _ result,
    let result := morphologicalErosion s result in
    morphologicalDilation s result) imageData.

Definition adjustLineWeight (s : ProcessingSettings) (t : ToneSettings)
    (settings : CurrentSettings) (imageData : ImageData) : ImageData :=
  let lineWeight :=
    if decide (lineWeight settings = Some "thin") then 1
    else if decide (lineWeight settings = Some "medium") then 2
    else if decide (lineWeight settings = Some "thick") then 3
    else lineWeightDefault t in
  if decide (lineWeight ≤ 1) then imageData
  else
    for_range 0 (lineWeight - 1) (λ _ result,
      morphologicalDilation s result) imageData.

(** [applyProcessingPipeline]; the blur is the browser's canvas filter. *)
Definition applyProcessingPipeline (applyGaussianBlur : ImageData → Q → ImageData)
    (s : ProcessingSettings) (t : ToneSettings) (settings : CurrentSettings)
    (originalImageData : ImageData) : ImageData :=
  let currentData := convertToGrayscale originalImageData in
  let currentData := adjustContrastBrightness t currentData in
  let currentData := applyGaussianBlur currentData (gaussianRadius t) in
  let currentData := detectEdges s currentData in
  let currentData := applyMorphologicalOperations s settings currentData in
  let currentData := adjustLineWeight s t settings currentData in
  finalCleanup currentData.

(** A 2x2 image in colour. *)
Definition colour4 : ImageData :=
  mkImageData 2 2
    [255; 0; 0; 255;   0; 255; 0; 128;
     0; 0; 255; 0;     10; 200; 90; 7].

(** Channel [c] of a pixel as a number, 0 where the buffer has none. *)
Definition chan (img : ImageData) (x y c : Z) : Z :=
  default 0 (channel img x y c).

(** The grey value of a pixel: the rounded weighted sum of its colours. *)
Definition luminance (img : ImageData) (x y : Z) : Z :=
  round_div (299 * chan img x y 0 + 587 * chan img x y 1
             + 114 * chan img x y 2) 1000.

(** The pixel function of [convertToGrayscale]. *)
Definition grey_pixel (c : Z) (r g b a : option Z) : Z :=
  if decide (c = 3) then default 0 a else to_u8_clamp (js_luma r g b).

(** The loop body of [convertToGrayscale]. *)
Definition grey_step (i : Z) (d : list Z) : list Z :=
  let gray := js_luma (u8_get d i) (u8_get d (i + 1)) (u8_get d (i + 2)) in
  u8_set (i + 2) gray (u8_set (i + 1) gray (u8_set i gray d)).

(** The pixel function of [finalCleanup]. *)
Definition cleanup_pixel (c : Z) (r g b a : option Z) : Z :=
  if decide (c = 3) then 255
  else match r with
       | Some v => if bool_decide (v > 127) then 255 else 0
       | None => 0
       end.

(** The loop body of [finalCleanup]. *)
Definition cleanup_step (i : Z) (d : list Z) : list Z :=
  let value :=
    match u8_get d i with
    | Some v => if bool_decide (v > 127) then 255 else 0
    | None => 0
    end in
  u8_set (i + 3) (Some 255)
    (u8_set i (Some value)
      (u8_set (i + 1) (Some value)
        (u8_set (i + 2) (Some value) d))).

(** The cell that [createBinaryMap] stores for the pixel [(x, y)]. *)
Definition binary_cell (src : list Z) (width x y : Z) : Z :=
  match u8_get src ((y * width + x) * 4) with
  | Some v => if bool_decide (v < 128) then 1 else 0
  | None => 0
  end.

(** What [adjustContrastBrightness] stores for a colour that reads [o]. *)
Definition tone (t : ToneSettings) (o : option Z) : Z :=
  let value := inject_Z <$> o in
  let value := (λ v, (v - 128) * contrastBoost t + 128)%Q <$> value in
  let value := (λ v, v + inject_Z (brightnessAdjust t))%Q <$> value in
  to_u8_clamp_Q ((λ v, Qmax 0 (Qmin 255 v)) <$> value).

(** The pixel function of [adjustContrastBrightness]. *)
Definition contrast_pixel (t : ToneSettings) (c : Z) (r g b a : option Z) : Z :=
  if decide (c = 0) then tone t r
  else if decide (c = 1) then tone t g
  else if decide (c = 2) then tone t b
  else default 0 a.

(** The loop body of [adjustContrastBrightness]. *)
Definition contrast_step (t : ToneSettings) (i : Z) (d : list Z) : list Z :=
  for_range 0 3 (λ c d,
    let value := inject_Z <$> u8_get d (i + c) in
    let value := (λ v, (v - 128) * contrastBoost t + 128)%Q <$> value in
    let value := (λ v, v + inject_Z (brightnessAdjust t))%Q <$> value in
    u8_set_Q (i + c) ((λ v, Qmax 0 (Qmin 255 v)) <$> value) d) d.

(** The red value of every pixel of the outermost ring is 0. *)
Definition ring_dark (img : ImageData) : Prop :=
  ∀ x y, on_border_ring img x y → intensity img x y = 0.

(** Two images of one size. *)
Definition same_size (a b : ImageData) : Prop :=
  width a = width b ∧ height a = height b.

(** Every point of the contour is an ink cell of the map. *)
Definition ink_cells (binaryMap : list (list Z)) (width height : Z)
    (c : list (Point Z)) : Prop :=
  ∀ p, p ∈ c →
    0 ≤ px p < width ∧ 0 ≤ py p < height ∧
    get2 binaryMap (px p) (py p) = Some 1.

(** Every point but the first lies one step of [dirs] from a point that
    precedes it in the list. *)
Definition grown_by (dirs : list (Z * Z)) (c : list (Point Z)) : Prop :=
  ∀ i q, (0 < i)%nat → c !! i = Some q →
    ∃ j p, (j < i)%nat ∧ c !! j = Some p ∧
           (px q - px p, py q - py p) ∈ dirs.

(** A region as [findContours] collects it: ink cells of the map, grown
    from a first point that is not on the outermost ring, of an
    admissible length. *)
Definition traced_region (s : OptimizationSettings)
    (binaryMap : list (list Z)) (width height : Z) (c : list (Point Z))
    : Prop :=
  minPathLength s ≤ Z.of_nat (length c) ≤ Z.max 0 (maxPoints s) ∧
  ink_cells binaryMap width height c ∧
  grown_by directions c ∧
  ∀ p, head c = Some p →
    1 ≤ px p < width - 1 ∧ 1 ≤ py p < height - 1.

(** The curve command that [generateSmoothPathData] emits for the point
    of index [i]: the point is the control point, the curve ends half way
    to the next point. *)
Definition quad_at (points : list (Point R)) (i : Z) : PathCommand :=
  let current := arr_get points i in
  let next := arr_get points (i + 1) in
  QuadTo (px current) (py current)
    ((px current + px next) / 2)%R ((py current + py next) / 2)%R.

(** The step of the loop of [calculateBounds]. *)
Definition bounds_step : R * R * R * R → Point R → R * R * R * R :=
  λ '(minX, maxX, minY, maxY) point,
    (Rmin minX (px point), Rmax maxX (px point),
     Rmin minY (py point), Rmax maxY (py point)).

(** The point lies in the box, its sides included. *)
Definition in_box (b : Bounds) (p : Point R) : Prop :=
  (bounds_x b <= px p <= bounds_x b + bounds_width b)%R ∧
  (bounds_y b <= py p <= bounds_y b + bounds_height b)%R.

(** ** The PDF exporter *)

(** [documentSettings.margins] *)
Record Margins := mkMargins {
  margin_top : R;
  margin_right : R;
  margin_bottom : R;
  margin_left : R
}.

(** The fields of [layoutSettings] that the layout reads. *)
Record LayoutSettings := mkLayoutSettings {
  titleHeight : R;
  footerHeight : R;
  pageSpacing : R
}.

(** [margins: { top: 20, right: 20, bottom: 20, left: 20 }] *)
Definition defaultMargins : Margins := mkMargins 20 20 20 20.

(** [titleHeight: 15], [footerHeight: 10], [pageSpacing: 10] *)
Definition defaultLayoutSettings : LayoutSettings := mkLayoutSettings 15 10 10.

(** An entry of [pageDimensions]. *)
Record PageSize := mkPageSize {
  page_width : R;
  page_height : R
}.

(** ['A4': { width: 595.28, height: 841.89 }] *)
Definition pageA4 : PageSize := mkPageSize (59528 / 100) (84189 / 100).

Record Area := mkArea {
  area_x : R;
  area_y : R;
  area_width : R;
  area_height : R
}.

Record CoverLayout := mkCoverLayout {
  titleArea : Area;
  thumbnailArea : Area;
  instructionsArea : Area
}.

Record ContentLayout := mkContentLayout {
  headerArea : Area;
  contentArea : Area;
  footerArea : Area
}.

Definition calculateCoverLayout (margins : Margins) (pageSize : PageSize)
    : CoverLayout :=
  let contentWidth :=
    (page_width pageSize - margin_left margins - margin_right margins)%R in
  let contentHeight :=
    (page_height pageSize - margin_top margins - margin_bottom margins)%R in
  mkCoverLayout
    (mkArea (margin_left margins) (margin_top margins) contentWidth 80)
    (mkArea (margin_left margins) (margin_top margins + 100) contentWidth
       (contentHeight - 200))
    (mkArea (margin_left margins)
       (page_height pageSize - margin_bottom margins - 80) contentWidth 60).

Definition calculateContentLayout (margins : Margins) (l : LayoutSettings)
    (pageSize : PageSize) : ContentLayout :=
  mkContentLayout
    (mkArea (margin_left margins) (margin_top margins)
       (page_width pageSize - margin_left margins - margin_right margins)
       (titleHeight l))
    (mkArea (margin_left margins)
       (margin_top margins + titleHeight l + pageSpacing l)
       (page_width pageSize - margin_left margins - margin_right margins)
       (page_height pageSize - margin_top margins - margin_bottom margins
        - titleHeight l - footerHeight l - pageSpacing l * 2))
    (mkArea (margin_left margins)
       (page_height pageSize - margin_bottom margins - footerHeight l)
       (page_width pageSize - margin_left margins - margin_right margins)
       (footerHeight l)).

(** The fields of an SVG conversion result that the exporter reads:
    [svgString] and [originalImage.metadata.filename]. *)
Record SvgItem := mkSvgItem {
  svgString : string;
  item_filename : string
}.

Global Instance SvgItem_inhabited : Inhabited SvgItem :=
  populate (mkSvgItem "" "").

(** [header.pageInfo]: the empty string, or [Page k of n]. *)
Inductive PageInfo :=
  | NoPageInfo
  | PageOf (pageNumber totalPages : Z).

(** A page of the document: the cover with the number of pages of its
    subtitle and its thumbnails, or a content page. *)
Inductive Page :=
  | CoverPage (pageNumber : Z) (dimensions : PageSize) (subtitlePages : Z)
      (thumbnails : list SvgItem) (layout : CoverLayout)
  | ContentPage (pageNumber : Z) (dimensions : PageSize) (svgContent : string)
      (pageInfo : PageInfo) (footerFilename : string) (layout : ContentLayout).

(** The fields [pages] and [metadata.pageCount] of the document. *)
Record PDFDocument := mkPDFDocument {
  pages : list Page;
  pageCount : Z
}.

(** [pageSize] is [pageDimensions[documentSettings.pageSize]], [None]
    when the table has no such key; the layout then reads a field of
    [undefined] and the call raises a [TypeError], which is [None]. *)
Definition createCoverPage (margins : Margins) (pageSize : option PageSize)
    (svgData : list SvgItem) : option Page :=
  ps ← pageSize;
  Some (CoverPage 0 ps (Z.of_nat (length svgData)) (slice svgData 0 4)
          (calculateCoverLayout margins ps)).

Definition createContentPage (margins : Margins) (l : LayoutSettings)
    (pageSize : option PageSize) (svgItem : SvgItem)
    (pageNumber totalPages : Z) : option Page :=
  ps ← pageSize;
  Some (ContentPage pageNumber ps (svgString svgItem)
          (if decide (totalPages > 1) then PageOf pageNumber totalPages
           else NoPageInfo)
          (item_filename svgItem)
          (calculateContentLayout margins l ps)).

Definition createPDFDocument (margins : Margins) (l : LayoutSettings)
    (pageSize : option PageSize) (svgData : list SvgItem)
    : option PDFDocument :=
  let n := Z.of_nat (length svgData) in
  pages ←
    (if decide (n > 1)
     then cover ← createCoverPage margins pageSize svgData; Some [cover]
     else Some []);
  pages ←
    for_rangeM 0 n (λ i pages,
      page ← createContentPage margins l pageSize (arr_get svgData i)
                (i + 1) n;
      Some (pages ++ [page])) pages;
  Some (mkPDFDocument pages n).

(** The content page that the document holds for the item of index [k]. *)
Definition content_page (margins : Margins) (l : LayoutSettings)
    (ps : PageSize) (n : Z) (k : nat) (item : SvgItem) : Page :=
  ContentPage (Z.of_nat k + 1) ps (svgString item)
    (if decide (n > 1) then PageOf (Z.of_nat k + 1) n else NoPageInfo)
    (item_filename item) (calculateContentLayout margins l ps).

(** [a] ends at least [gap] above the start of [b]. *)
Definition stacked (gap : R) (a b : Area) : Prop :=
  (area_y a + area_height a + gap <= area_y b)%R.

(** An object of the PDF file: what its dictionary refers to. *)
Inductive PdfObject :=
  | Catalog (pagesRef : Z)
  | PageObject (parent : Z) (mediaBox : PageSize) (contents : Z) (fontF1 : Z)
  | ContentStream (page : Page)
  | FontObject
  | PagesObject (kids : list Z) (count : Z).

Record PdfEntry := mkPdfEntry {
  obj_id : Z;
  obj_content : PdfObject
}.

Definition page_dimensions (page : Page) : PageSize :=
  match page with
  | CoverPage _ d _ _ _ => d
  | ContentPage _ d _ _ _ _ => d
  end.

(** The array [objects] of [generatePDFContent] when the file is built
    from it. *)
Definition pdfObjects (pages : list Page) : list PdfEntry :=
  let objects := [] in
  let objectCounter := 1 in
  let id := objectCounter in
  let objectCounter := objectCounter + 1 in
  let objects := objects ++ [mkPdfEntry id (Catalog objectCounter)] in
  let pagesId := objectCounter in
  let objectCounter := objectCounter + 1 in
  let '(objects, objectCounter, pageIds) :=
    foldl (λ '(objects, objectCounter, pageIds) page,
      let pageIds := pageIds ++ [objectCounter] in
      let id := objectCounter in
      let objectCounter := objectCounter + 1 in
      let objects :=
        objects ++ [mkPdfEntry id
                      (PageObject pagesId (page_dimensions page)
                         objectCounter (objectCounter + 1))] in
      let id := objectCounter in
      let objectCounter := objectCounter + 1 in
      let objects := objects ++ [mkPdfEntry id (ContentStream page)] in
      (objects, objectCounter, pageIds))
      (objects, objectCounter, []) pages in
  let id := objectCounter in
  let objects := objects ++ [mkPdfEntry id FontObject] in
  alter (λ entry,
    mkPdfEntry (obj_id entry)
      (PagesObject pageIds (Z.of_nat (length pageIds)))) 1%nat objects.

(** The two objects that the loop of [generatePDFContent] makes for the
    page of index [k]. *)
Definition page_entries (k : Z) (page : Page) : list PdfEntry :=
  [mkPdfEntry (3 + 2 * k)
     (PageObject 2 (page_dimensions page) (4 + 2 * k) (5 + 2 * k));
   mkPdfEntry (4 + 2 * k) (ContentStream page)].

(** ** Overall bounds and the page transform *)

(** A number that may be infinite or NaN.  A real zero is the positive
    zero. *)
Inductive ExtReal :=
  | Real (r : R)
  | PosInfinity
  | NegInfinity
  | NotANumber.

Definition ext_opp (a : ExtReal) : ExtReal :=
  match a with
  | Real r => Real (- r)
  | PosInfinity => NegInfinity
  | NegInfinity => PosInfinity
  | NotANumber => NotANumber
  end.

Definition ext_add (a b : ExtReal) : ExtReal :=
  match a, b with
  | NotANumber, _ | _, NotANumber => NotANumber
  | Real x, Real y => Real (x + y)
  | PosInfinity, NegInfinity | NegInfinity, PosInfinity => NotANumber
  | PosInfinity, _ | _, PosInfinity => PosInfinity
  | NegInfinity, _ | _, NegInfinity => NegInfinity
  end.

Definition ext_sub (a b : ExtReal) : ExtReal := ext_add a (ext_opp b).

(** An infinity times the real [x]. *)
Definition ext_scale_inf (inf : ExtReal) (x : R) : ExtReal :=
  if decide (x = 0%R) then NotANumber
  else if decide (x > 0)%R then inf else ext_opp inf.

Definition ext_mul (a b : ExtReal) : ExtReal :=
  match a, b with
  | NotANumber, _ | _, NotANumber => NotANumber
  | Real x, Real y => Real (x * y)
  | Real x, PosInfinity | PosInfinity, Real x => ext_scale_inf PosInfinity x
  | Real x, NegInfinity | NegInfinity, Real x => ext_scale_inf NegInfinity x
  | PosInfinity, PosInfinity | NegInfinity, NegInfinity => PosInfinity
  | PosInfinity, NegInfinity | NegInfinity, PosInfinity => NegInfinity
  end.

Definition ext_div (a b : ExtReal) : ExtReal :=
  match a, b with
  | NotANumber, _ | _, NotANumber => NotANumber
  | Real x, Real y =>
      if decide (y = 0%R) then
        if decide (x = 0%R) then NotANumber
        else if decide (x > 0)%R then PosInfinity else NegInfinity
      else Real (x / y)
  | Real x, _ => Real 0
  | PosInfinity, Real y => if decide (y < 0)%R then NegInfinity else PosInfinity
  | NegInfinity, Real y => if decide (y < 0)%R then PosInfinity else NegInfinity
  | _, _ => NotANumber
  end.

(** [Math.min] and [Math.max] *)
Definition ext_min (a b : ExtReal) : ExtReal :=
  match a, b with
  | NotANumber, _ | _, NotANumber => NotANumber
  | NegInfinity, _ | _, NegInfinity => NegInfinity
  | PosInfinity, c | c, PosInfinity => c
  | Real x, Real y => Real (Rmin x y)
  end.

Definition ext_max (a b : ExtReal) : ExtReal :=
  match a, b with
  | NotANumber, _ | _, NotANumber => NotANumber
  | PosInfinity, _ | _, PosInfinity => PosInfinity
  | NegInfinity, c | c, NegInfinity => c
  | Real x, Real y => Real (Rmax x y)
  end.

Record ExtBounds := mkExtBounds {
  ext_x : ExtReal;
  ext_y : ExtReal;
  ext_width : ExtReal;
  ext_height : ExtReal
}.

Definition calculateOverallBounds (vectorPaths : list (option SVGPath))
    : ExtBounds :=
  if decide (length vectorPaths = 0%nat)
  then mkExtBounds (Real 0) (Real 0) (Real 100) (Real 100)
  else
    let '(minX, maxX, minY, maxY) :=
      foldl (λ '(minX, maxX, minY, maxY) path,
        match path with
        | Some p =>
            let b := path_bounds p in
            (ext_min minX (Real (bounds_x b)),
             ext_max maxX (Real (bounds_x b + bounds_width b)),
             ext_min minY (Real (bounds_y b)),
             ext_max maxY (Real (bounds_y b + bounds_height b)))
        | None => (minX, maxX, minY, maxY)
        end)
        (PosInfinity, NegInfinity, PosInfinity, NegInfinity) vectorPaths in
    mkExtBounds minX minY (ext_sub maxX minX) (ext_sub maxY minY).

(** [translate(offsetX, offsetY) scale(scale)] *)
Record Transform := mkTransform {
  offsetX : ExtReal;
  offsetY : ExtReal;
  scale : ExtReal
}.

Definition calculateTransform (contentBounds : ExtBounds) (pageSize : PageSize)
    : Transform :=
  let margin := 20%R in
  let availableWidth := Real (page_width pageSize - margin * 2) in
  let availableHeight := Real (page_height pageSize - margin * 2) in
  let scaleX := ext_div availableWidth (ext_width contentBounds) in
  let scaleY := ext_div availableHeight (ext_height contentBounds) in
  let scale := ext_min (ext_min scaleX scaleY) (Real 1) in
  let scaledWidth := ext_mul (ext_width contentBounds) scale in
  let scaledHeight := ext_mul (ext_height contentBounds) scale in
  let offsetX :=
    ext_sub
      (ext_add (Real margin)
         (ext_div (ext_sub availableWidth scaledWidth) (Real 2)))
      (ext_mul (ext_x contentBounds) scale) in
  let offsetY :=
    ext_sub
      (ext_add (Real margin)
         (ext_div (ext_sub availableHeight scaledHeight) (Real 2)))
      (ext_mul (ext_y contentBounds) scale) in
  mkTransform offsetX offsetY scale.

(** The step of the loop of [calculateOverallBounds]. *)
Definition overall_step
    : ExtReal * ExtReal * ExtReal * ExtReal → option SVGPath →
      ExtReal * ExtReal * ExtReal * ExtReal :=
  λ '(minX, maxX, minY, maxY) path,
    match path with
    | Some p =>
        let b := path_bounds p in
        (ext_min minX (Real (bounds_x b)),
         ext_max maxX (Real (bounds_x b + bounds_width b)),
         ext_min minY (Real (bounds_y b)),
         ext_max maxY (Real (bounds_y b + bounds_height b)))
    | None => (minX, maxX, minY, maxY)
    end.

(** The point [(x, y)] is the corner of the boxes of the paths: no box
    begins left of [x] or above [y], one begins at [x] and one at [y]. *)
Definition corner_of (x y : R) (paths : list SVGPath) : Prop :=
  (∀ p, p ∈ paths →
     (x <= bounds_x (path_bounds p))%R ∧ (y <= bounds_y (path_bounds p))%R) ∧
  (∃ p, p ∈ paths ∧ bounds_x (path_bounds p) = x) ∧
  (∃ p, p ∈ paths ∧ bounds_y (path_bounds p) = y).

(** The point lies on or between the centres of the outermost pixels of
    the image. *)
Definition inside_image (img : ImageData) (q : Point R) : Prop :=
  (0 <= px q <= IZR (width img - 1))%R ∧
  (0 <= py q <= IZR (height img - 1))%R.

(* ===== Properties ===== *)

(** ** Loop rules *)

Lemma for_range_nil {St : Type} lo hi (body : Z → St → St) s :
  hi ≤ lo → for_range lo hi body s = s.
Proof. intros H. unfold for_range. by rewrite seqZ_nil by lia. Qed.

Lemma for_range_snoc {St : Type} lo hi (body : Z → St → St) s :
  lo ≤ hi → for_range lo (hi + 1) body s = body hi (for_range lo hi body s).
Proof.
  intros H. unfold for_range.
  replace (hi + 1 - lo) with (Z.of_nat (S (Z.to_nat (hi - lo)))) by lia.
  rewrite seqZ_S, foldl_snoc. rewrite Z2Nat.id by lia.
  by replace (lo + (hi - lo)) with hi by lia.
Qed.

(** The invariant rule of a counting loop. *)
Lemma for_range_inv {St : Type} (P : Z → St → Prop) lo hi (body : Z → St → St) s :
  lo ≤ hi →
  P lo s →
  (∀ i t, lo ≤ i < hi → P i t → P (i + 1) (body i t)) →
  P hi (for_range lo hi body s).
Proof.
  intros Hle H0 Hstep.
  assert (∀ n : nat, lo + Z.of_nat n ≤ hi →
            P (lo + Z.of_nat n) (for_range lo (lo + Z.of_nat n) body s)) as Hn.
  { induction n as [|n IH]; intros Hb.
    - rewrite Z.add_0_r, for_range_nil by lia. done.
    - replace (lo + Z.of_nat (S n)) with (lo + Z.of_nat n + 1) by lia.
      rewrite for_range_snoc by lia. apply Hstep; [lia|]. apply IH. lia. }
  specialize (Hn (Z.to_nat (hi - lo))).
  replace (lo + Z.of_nat (Z.to_nat (hi - lo))) with hi in Hn by lia.
  apply Hn. lia.
Qed.

(** Two bodies that agree on the range give the same loop. *)
Lemma for_range_ext {St : Type} lo hi (f g : Z → St → St) s :
  (∀ i t, lo ≤ i < hi → f i t = g i t) →
  for_range lo hi f s = for_range lo hi g s.
Proof.
  intros Hfg. destruct (decide (lo ≤ hi)) as [Hle|]; cycle 1.
  { by rewrite !for_range_nil by lia. }
  assert (∀ n : nat, lo + Z.of_nat n ≤ hi →
            for_range lo (lo + Z.of_nat n) f s
            = for_range lo (lo + Z.of_nat n) g s) as Hn.
  { induction n as [|n IH]; intros Hb.
    - by rewrite Z.add_0_r, !for_range_nil by lia.
    - replace (lo + Z.of_nat (S n)) with (lo + Z.of_nat n + 1) by lia.
      rewrite !for_range_snoc by lia. rewrite IH by lia. apply Hfg. lia. }
  specialize (Hn (Z.to_nat (hi - lo))).
  replace (lo + Z.of_nat (Z.to_nat (hi - lo))) with hi in Hn by lia.
  apply Hn. lia.
Qed.

(** A property that every step preserves. *)
Lemma for_range_preserve {St : Type} (P : St → Prop) lo hi (body : Z → St → St) s :
  P s →
  (∀ i t, lo ≤ i < hi → P t → P (body i t)) →
  P (for_range lo hi body s).
Proof.
  intros H0 Hstep. destruct (decide (lo ≤ hi)).
  - apply (for_range_inv (λ _, P)); [done..|]. auto.
  - rewrite for_range_nil by lia. done.
Qed.

Lemma for_rangeM_nil {St : Type} lo hi (body : Z → St → option St) s :
  hi ≤ lo → for_rangeM lo hi body s = Some s.
Proof. intros H. unfold for_rangeM. by rewrite seqZ_nil by lia. Qed.

Lemma for_rangeM_snoc {St : Type} lo hi (body : Z → St → option St) s :
  lo ≤ hi → for_rangeM lo (hi + 1) body s = for_rangeM lo hi body s ≫= body hi.
Proof.
  intros H. unfold for_rangeM.
  replace (hi + 1 - lo) with (Z.of_nat (S (Z.to_nat (hi - lo)))) by lia.
  rewrite seqZ_S, foldl_snoc. rewrite Z2Nat.id by lia.
  by replace (lo + (hi - lo)) with hi by lia.
Qed.

(** A loop whose steps return and preserve [P] returns, in a state
    with [P]. *)
Lemma for_rangeM_total {St : Type} (P : St → Prop) lo hi
    (body : Z → St → option St) s :
  P s →
  (∀ i t, lo ≤ i < hi → P t → ∃ t', body i t = Some t' ∧ P t') →
  ∃ r, for_rangeM lo hi body s = Some r ∧ P r.
Proof.
  intros H0 Hstep. destruct (decide (lo ≤ hi)) as [Hle|]; cycle 1.
  { rewrite for_rangeM_nil by lia. eauto. }
  assert (∀ n : nat, lo + Z.of_nat n ≤ hi →
            ∃ r, for_rangeM lo (lo + Z.of_nat n) body s = Some r ∧ P r) as Hn.
  { induction n as [|n IH]; intros Hb.
    - rewrite Z.add_0_r, for_rangeM_nil by lia. eauto.
    - replace (lo + Z.of_nat (S n)) with (lo + Z.of_nat n + 1) by lia.
      rewrite for_rangeM_snoc by lia.
      destruct IH as (r & -> & Hr); [lia|]. cbn. apply Hstep; [lia|done]. }
  specialize (Hn (Z.to_nat (hi - lo))).
  replace (lo + Z.of_nat (Z.to_nat (hi - lo))) with hi in Hn by lia.
  apply Hn. lia.
Qed.

(** The invariant rule of a counting loop whose body may fail. *)
Lemma for_rangeM_inv {St : Type} (P : Z → St → Prop) lo hi
    (body : Z → St → option St) s :
  lo ≤ hi →
  P lo s →
  (∀ i t, lo ≤ i < hi → P i t → ∃ t', body i t = Some t' ∧ P (i + 1) t') →
  ∃ r, for_rangeM lo hi body s = Some r ∧ P hi r.
Proof.
  intros Hle H0 Hstep.
  assert (∀ n : nat, lo + Z.of_nat n ≤ hi →
            ∃ r, for_rangeM lo (lo + Z.of_nat n) body s = Some r ∧
                 P (lo + Z.of_nat n) r) as Hn.
  { induction n as [|n IH]; intros Hb.
    - rewrite Z.add_0_r, for_rangeM_nil by lia. eauto.
    - replace (lo + Z.of_nat (S n)) with (lo + Z.of_nat n + 1) by lia.
      rewrite for_rangeM_snoc by lia.
      destruct IH as (r & -> & Hr); [lia|]. cbn. apply Hstep; [lia|done]. }
  specialize (Hn (Z.to_nat (hi - lo))).
  replace (lo + Z.of_nat (Z.to_nat (hi - lo))) with hi in Hn by lia.
  apply Hn. lia.
Qed.

Lemma for_rangeM_is_Some {St : Type} lo hi (body : Z → St → option St) s :
  (∀ i t, lo ≤ i < hi → is_Some (body i t)) →
  is_Some (for_rangeM lo hi body s).
Proof.
  intros Hstep.
  destruct (for_rangeM_total (λ _, True) lo hi body s) as (r & -> & _);
    [done| |done].
  intros i t Hi _. destruct (Hstep i t Hi) as [t' ->]. eauto.
Qed.

(** Whatever a loop returns satisfies what its steps preserve. *)
Lemma for_rangeM_preserve {St : Type} (P : St → Prop) lo hi
    (body : Z → St → option St) s r :
  P s →
  (∀ i t t', lo ≤ i < hi → P t → body i t = Some t' → P t') →
  for_rangeM lo hi body s = Some r → P r.
Proof.
  intros H0 Hstep. destruct (decide (lo ≤ hi)) as [Hle|]; cycle 1.
  { rewrite for_rangeM_nil by lia. by intros [= <-]. }
  assert (∀ n : nat, lo + Z.of_nat n ≤ hi →
            ∀ r, for_rangeM lo (lo + Z.of_nat n) body s = Some r → P r) as Hn.
  { induction n as [|n IH]; intros Hb r'.
    - rewrite Z.add_0_r, for_rangeM_nil by lia. by intros [= <-].
    - replace (lo + Z.of_nat (S n)) with (lo + Z.of_nat n + 1) by lia.
      rewrite for_rangeM_snoc by lia.
      destruct (for_rangeM lo (lo + Z.of_nat n) body s) as [t|] eqn:Ht; [|done].
      cbn. apply Hstep; [lia|]. apply IH; [lia|done]. }
  specialize (Hn (Z.to_nat (hi - lo))).
  replace (lo + Z.of_nat (Z.to_nat (hi - lo))) with hi in Hn by lia.
  apply Hn. lia.
Qed.

(** ** Reads and writes of a clamped byte array *)

Lemma length_u8_set i v d : length (u8_set i v d) = length d.
Proof. unfold u8_set. case_decide; [apply length_insert | done]. Qed.

Lemma u8_get_set_eq i v d :
  0 ≤ i → (Z.to_nat i < length d)%nat →
  u8_get (u8_set i v d) i = Some (to_u8_clamp v).
Proof.
  intros H0 Hl. unfold u8_get, u8_set. rewrite !decide_True by done.
  by apply list_lookup_insert_eq.
Qed.

Lemma u8_get_set_ne i j v d : i ≠ j → u8_get (u8_set i v d) j = u8_get d j.
Proof.
  intros Hne. unfold u8_get, u8_set.
  destruct (decide (0 ≤ j)); [|done]. destruct (decide (0 ≤ i)); [|done].
  apply list_lookup_insert_ne. lia.
Qed.

Lemma u8_get_lt d i : 0 ≤ i → (Z.to_nat i < length d)%nat → is_Some (u8_get d i).
Proof.
  intros. unfold u8_get. rewrite decide_True by done. by apply lookup_lt_is_Some.
Qed.

(** ** A scan that writes one pixel per step *)

Section PixelScan.
Variable w : Z.
Variable wr : Z → Z → list Z → list Z.
Variable val : Z → Z → Z → Z.

Hypothesis wr_length : ∀ x y d, length (wr x y d) = length d.
Hypothesis wr_hit : ∀ x y c d,
  0 ≤ c < 4 → 0 ≤ (y * w + x) * 4 →
  (Z.to_nat ((y * w + x) * 4 + c) < length d)%nat →
  u8_get (wr x y d) ((y * w + x) * 4 + c) = Some (val x y c).
Hypothesis wr_miss : ∀ x y d j,
  (∀ c, 0 ≤ c < 4 → j ≠ (y * w + x) * 4 + c) →
  u8_get (wr x y d) j = u8_get d j.

Lemma scan_row_spec xlo xhi y d :
  0 ≤ xlo → 0 ≤ y * w →
  let d' := scan_row wr xlo xhi y d in
  length d' = length d ∧
  (∀ x c, xlo ≤ x < xhi → 0 ≤ c < 4 →
     (Z.to_nat ((y * w + x) * 4 + c) < length d)%nat →
     u8_get d' ((y * w + x) * 4 + c) = Some (val x y c)) ∧
  (∀ j, (∀ x c, xlo ≤ x < xhi → 0 ≤ c < 4 → j ≠ (y * w + x) * 4 + c) →
     u8_get d' j = u8_get d j).
Proof.
  intros Hx Hy. cbv zeta. unfold scan_row.
  destruct (decide (xlo ≤ xhi)) as [Hle|Hgt]; cycle 1.
  { rewrite for_range_nil by lia. split_and!; [done| |done]. intros; lia. }
  apply (for_range_inv (λ i d',
    length d' = length d ∧
    (∀ x c, xlo ≤ x < i → 0 ≤ c < 4 →
       (Z.to_nat ((y * w + x) * 4 + c) < length d)%nat →
       u8_get d' ((y * w + x) * 4 + c) = Some (val x y c)) ∧
    (∀ j, (∀ x c, xlo ≤ x < i → 0 ≤ c < 4 → j ≠ (y * w + x) * 4 + c) →
       u8_get d' j = u8_get d j))); [done| |].
  - split_and!; [done| |done]. intros; lia.
  - intros i t Hi (Hlen & Hhit & Hmiss). split_and!.
    + by rewrite wr_length.
    + intros x c Hxr Hc Hb. destruct (decide (x = i)) as [->|Hne].
      * apply wr_hit; [done|lia|]. by rewrite Hlen.
      * rewrite wr_miss; [apply Hhit; [lia|done..]|]. intros c' Hc'. lia.
    + intros j Hj. rewrite wr_miss; [apply Hmiss|].
      * intros x c ??. apply Hj; lia.
      * intros c Hc. apply Hj; lia.
Qed.

Lemma pixel_index_inj x y c x' y' c' :
  0 ≤ x < w → 0 ≤ x' < w → 0 ≤ c < 4 → 0 ≤ c' < 4 →
  (y * w + x) * 4 + c = (y' * w + x') * 4 + c' → x = x' ∧ y = y' ∧ c = c'.
Proof.
  intros Hx Hx' Hc Hc' Heq.
  assert (y * w + x = y' * w + x') as Hp by lia.
  assert (c = c') by lia.
  assert (y = y') by nia.
  subst. split_and!; [lia|done..].
Qed.

Lemma scan_spec ylo yhi xlo xhi d :
  0 ≤ xlo → xhi ≤ w → 0 ≤ ylo →
  let d' := scan wr ylo yhi xlo xhi d in
  length d' = length d ∧
  (∀ x y c, xlo ≤ x < xhi → ylo ≤ y < yhi → 0 ≤ c < 4 →
     (Z.to_nat ((y * w + x) * 4 + c) < length d)%nat →
     u8_get d' ((y * w + x) * 4 + c) = Some (val x y c)) ∧
  (∀ j, (∀ x y c, xlo ≤ x < xhi → ylo ≤ y < yhi → 0 ≤ c < 4 →
           j ≠ (y * w + x) * 4 + c) →
     u8_get d' j = u8_get d j).
Proof.
  intros Hx Hw Hy. cbv zeta. unfold scan.
  destruct (decide (ylo ≤ yhi)) as [Hle|Hgt]; cycle 1.
  { rewrite for_range_nil by lia. split_and!; [done| |done]. intros; lia. }
  apply (for_range_inv (λ i d',
    length d' = length d ∧
    (∀ x y c, xlo ≤ x < xhi → ylo ≤ y < i → 0 ≤ c < 4 →
       (Z.to_nat ((y * w + x) * 4 + c) < length d)%nat →
       u8_get d' ((y * w + x) * 4 + c) = Some (val x y c)) ∧
    (∀ j, (∀ x y c, xlo ≤ x < xhi → ylo ≤ y < i → 0 ≤ c < 4 →
             j ≠ (y * w + x) * 4 + c) →
       u8_get d' j = u8_get d j))); [done| |].
  - split_and!; [done| |done]. intros; lia.
  - intros i t Hi (Hlen & Hhit & Hmiss).
    destruct (decide (xlo < xhi)) as [Hlt|Hge]; cycle 1.
    { unfold scan_row. rewrite for_range_nil by lia.
      split_and!; [done| |]; [intros; lia|]. intros j Hj. apply Hmiss.
      intros; lia. }
    destruct (scan_row_spec xlo xhi i t) as (Hl' & Hh' & Hm'); [lia|nia|].
    split_and!.
    + by rewrite Hl'.
    + intros x y c Hxr Hyr Hc Hb. destruct (decide (y = i)) as [->|Hne].
      * apply Hh'; [done..|]. by rewrite Hlen.
      * rewrite Hm'; [apply Hhit; [done|lia|done..]|].
        intros x' c' Hx' Hc' Heq.
        apply pixel_index_inj in Heq; [|lia..]. lia.
    + intros j Hj. rewrite Hm'; [apply Hmiss|].
      * intros x y c ???. apply Hj; lia.
      * intros x c ??. apply Hj; lia.
Qed.
End PixelScan.

(** ** Edge detection *)

Lemma magnitude_exceeds_sqrt gx gy T :
  magnitude_exceeds (Some gx) (Some gy) T = true ↔
  (sqrt (IZR (gx * gx + gy * gy)) > IZR T)%R.
Proof.
  unfold magnitude_exceeds. rewrite bool_decide_eq_true.
  assert (0 ≤ gx * gx + gy * gy) as Hs by nia.
  pose proof (sqrt_pos (IZR (gx * gx + gy * gy))) as Hp.
  destruct (decide (T < 0)) as [Hneg|Hpos].
  { split; [|by left]. intros _. apply IZR_lt in Hneg. lra. }
  assert (IZR T = sqrt (IZR (T * T))) as HT.
  { rewrite mult_IZR, sqrt_square; [done|]. apply IZR_le. lia. }
  split.
  - intros [?|Hlt]; [lia|]. rewrite HT. apply Rlt_gt, sqrt_lt_1_alt.
    split; [apply IZR_le; nia|by apply IZR_lt].
  - intros Hgt. right. rewrite HT in Hgt. apply lt_IZR.
    apply sqrt_lt_0_alt. lra.
Qed.

Lemma red_wf img x y :
  wf_image img → 0 ≤ x < width img → 0 ≤ y < height img →
  red img x y = Some (intensity img x y).
Proof.
  intros (Hw & Hh & Hlen & _) Hx Hy. unfold intensity.
  destruct (u8_get_lt (data img) ((y * width img + x) * 4)) as [v Hv];
    [nia| rewrite Hlen; nia |].
  unfold red. by rewrite Hv.
Qed.

Lemma sobelAt_wf img x y :
  wf_image img → 1 ≤ x < width img - 1 → 1 ≤ y < height img - 1 →
  sobelAt (data img) (width img) x y = (Some (gradX img x y), Some (gradY img x y)).
Proof.
  intros Hwf Hx Hy. unfold sobelAt, for_range.
  change (seqZ (-1) (1 + 1 - -1)) with [-1; 0; 1]. cbn [foldl].
  pose proof (λ kx ky Hkx Hky, red_wf img (x + kx) (y + ky) Hwf Hkx Hky) as Hr.
  unfold red in Hr.
  rewrite !Hr by lia. cbn.
  repeat match goal with
  | |- context [u8_get sobelX ?i] =>
      let v := eval vm_compute in (u8_get sobelX i) in
      change (u8_get sobelX i) with v
  | |- context [u8_get sobelY ?i] =>
      let v := eval vm_compute in (u8_get sobelY i) in
      change (u8_get sobelY i) with v
  end.
  cbn. unfold gradX, gradY. rewrite !Z.add_0_r.
  change (x + -1) with (x - 1). change (y + -1) with (y - 1).
  do 2 f_equal; lia.
Qed.

Ltac u8_stores :=
  repeat first
    [ rewrite u8_get_set_eq by (rewrite ?length_u8_set; lia)
    | rewrite u8_get_set_ne by lia ].

Lemma length_newImageData w h :
  length (data (newImageData w h)) = Z.to_nat (w * h * 4).
Proof. apply length_replicate. Qed.

Lemma detectEdges_data s img :
  let w := width img in
  let h := height img in
  let d' := data (detectEdges s img) in
  length d' = Z.to_nat (w * h * 4) ∧
  (∀ x y c, 1 ≤ x < w - 1 → 1 ≤ y < h - 1 → 0 ≤ c < 4 →
     u8_get d' ((y * w + x) * 4 + c) =
       Some (if decide (c = 3) then 255 else edgeAt s img x y)) ∧
  (∀ j, (∀ x y c, 1 ≤ x < w - 1 → 1 ≤ y < h - 1 → 0 ≤ c < 4 →
           j ≠ (y * w + x) * 4 + c) →
     u8_get d' j = u8_get (data (newImageData w h)) j).
Proof.
  intros w h d'.
  destruct (scan_spec w
    (λ x y rdata,
       let '(pixelX, pixelY) := sobelAt (data img) w x y in
       let edge := if magnitude_exceeds pixelX pixelY (edgeThreshold s)
                   then 0 else 255 in
       let resultIdx := (y * w + x) * 4 in
       u8_set (resultIdx + 3) (Some 255)
         (u8_set (resultIdx + 2) (Some edge)
           (u8_set (resultIdx + 1) (Some edge)
             (u8_set resultIdx (Some edge) rdata))))
    (λ x y c, if decide (c = 3) then 255 else edgeAt s img x y)
    ) with 1 (h - 1) 1 (w - 1) (data (newImageData w h))
    as (Hlen & Hhit & Hmiss).
  - intros x y d. destruct (sobelAt _ _ _ _). cbn zeta.
    by rewrite !length_u8_set.
  - intros x y c d Hc Hi Hb. unfold edgeAt. fold w.
    destruct (sobelAt _ _ _ _) as [pX pY]. cbn zeta.
    assert (c = 0 ∨ c = 1 ∨ c = 2 ∨ c = 3) as Hcs by lia.
    destruct Hcs as [-> | [-> | [-> | ->]]]; rewrite ?Z.add_0_r in *;
      u8_stores; case_decide; try lia;
      try destruct (magnitude_exceeds pX pY _); done.
  - intros x y d j Hj. destruct (sobelAt _ _ _ _). cbn zeta.
    pose proof (Hj 0). pose proof (Hj 1). pose proof (Hj 2). pose proof (Hj 3).
    u8_stores. done.
  - lia.
  - lia.
  - lia.
  - split_and!.
    + subst d'. unfold detectEdges. cbn [data]. fold w h.
      etrans; [exact Hlen|]. apply length_newImageData.
    + intros x y c Hx Hy Hc. apply Hhit; [done..|].
      rewrite length_newImageData. nia.
    + exact Hmiss.
Qed.

Lemma pixel_index_bound w h x y c :
  0 ≤ x < w → 0 ≤ y < h → 0 ≤ c < 4 →
  0 ≤ (y * w + x) * 4 + c < w * h * 4.
Proof.
  intros Hx Hy Hc.
  assert (0 ≤ y * w) by nia.
  assert ((y + 1) * w ≤ h * w) by (apply Z.mul_le_mono_nonneg_r; lia).
  lia.
Qed.

Lemma u8_get_newImageData_lt w h i :
  0 ≤ i < w * h * 4 → u8_get (data (newImageData w h)) i = Some 0.
Proof.
  intros Hi. unfold u8_get. rewrite decide_True by lia. cbn.
  apply lookup_replicate_2. lia.
Qed.

Lemma wf_white3 : wf_image white3.
Proof.
  split_and!; [done..|]. apply (bool_decide_unpack _). by vm_compute.
Qed.

(** C2 (as amended). After edge detection every interior pixel is 0 (ink)
    in its three colour channels when the Sobel gradient magnitude of the
    red channel exceeds [edgeThreshold] and 255 (background) otherwise;
    every pixel of the one-pixel border ring keeps the value 0 of the
    fresh buffer in all four channels: the stage never writes it. *)
Theorem detectEdges_pixels s img :
  wf_image img →
  let out := detectEdges s img in
  (∀ x y c, 1 ≤ x < width img - 1 → 1 ≤ y < height img - 1 → 0 ≤ c < 3 →
     ((magnitude img x y > IZR (edgeThreshold s))%R →
        channel out x y c = Some 0) ∧
     (¬ (magnitude img x y > IZR (edgeThreshold s))%R →
        channel out x y c = Some 255)) ∧
  (∀ x y c, on_border_ring img x y → 0 ≤ c < 4 → channel out x y c = Some 0).
Proof.
  intros Hwf out. destruct (detectEdges_data s img) as (Hlen & Hhit & Hmiss).
  cbv zeta in *. split.
  - intros x y c Hx Hy Hc. unfold channel. fold out. change (width out) with (width img).
    subst out. rewrite Hhit by lia. rewrite decide_False by lia.
    unfold edgeAt. rewrite sobelAt_wf by done.
    pose proof (magnitude_exceeds_sqrt (gradX img x y) (gradY img x y)
                  (edgeThreshold s)) as Hm.
    fold (magnitude img x y) in Hm.
    destruct (magnitude_exceeds _ _ _); split; intros Hgt; try done.
    + destruct Hgt. by apply Hm.
    + apply Hm in Hgt. done.
  - intros x y c (Hx & Hy & Hring) Hc. unfold channel.
    change (width (detectEdges s img)) with (width img).
    rewrite Hmiss.
    + apply u8_get_newImageData_lt. by apply pixel_index_bound.
    + intros x' y' c' Hx' Hy' Hc' Heq.
      apply pixel_index_inj in Heq; [|lia..]. lia.
Qed.

Lemma detectEdges_pixels_witness :
  wf_image white3 ∧
  channel (detectEdges defaultProcessingSettings white3) 1 1 0 = Some 255 ∧
  channel (detectEdges defaultProcessingSettings white3) 0 0 0 = Some 0.
Proof.
  split; [exact wf_white3|].
  destruct (detectEdges_pixels defaultProcessingSettings white3 wf_white3)
    as [Hin Hring].
  split.
  - apply (Hin 1 1 0); [done..|].
    unfold magnitude. change (gradX white3 1 1) with 0.
    change (gradY white3 1 1) with 0. change (0 * 0 + 0 * 0) with 0.
    change (edgeThreshold defaultProcessingSettings) with 50.
    rewrite sqrt_0. lra.
  - apply Hring; [|done]. unfold on_border_ring. cbn. lia.
Defined.

(** C2 (as stated) fails: on a uniformly white 3x3 image the border ring of
    the result is 0, not background. *)
Lemma detectEdges_border_counterexample :
  ¬ border_is_background (detectEdges defaultProcessingSettings white3).
Proof.
  intros Hb. specialize (Hb 0 0 0).
  assert (channel (detectEdges defaultProcessingSettings white3) 0 0 0 = Some 0)
    as H0 by (by vm_compute).
  rewrite Hb in H0; [done| |done]. unfold on_border_ring. cbn. lia.
Qed.

(** ** Morphology *)

Lemma morphologicalErosion_stage s img :
  morphologicalErosion s img = morph_stage js_min 255 s img.
Proof. reflexivity. Qed.

Lemma morphologicalDilation_stage s img :
  morphologicalDilation s img = morph_stage js_max 0 s img.
Proof. reflexivity. Qed.

Lemma Forall_u8_set (P : Z → Prop) i v d :
  P (to_u8_clamp v) → Forall P d → Forall P (u8_set i v d).
Proof.
  intros Hv Hd. unfold u8_set. case_decide; [|done].
  by apply Forall_insert.
Qed.

Lemma to_u8_clamp_range v : 0 ≤ to_u8_clamp v ≤ 255.
Proof. destruct v; cbn; lia. Qed.

Section MorphStage.
Variable op : option Z → option Z → option Z.
Variable init : Z.
Variable s : ProcessingSettings.
Variable img : ImageData.

Let w := width img.
Let h := height img.
Let r := morphologyRadius s.
Let out := morph_stage op init s img.

Hypothesis radius_nonneg : 0 ≤ r.

Lemma morph_stage_data :
  length (data out) = Z.to_nat (w * h * 4) ∧
  (∀ x y c, morph_interior s img x y → 0 ≤ c < 4 →
     channel out x y c =
       Some (if decide (c = 3) then 255
             else to_u8_clamp (neighbourhood op init (data img) w r x y))) ∧
  (∀ x y c, 0 ≤ x < w → 0 ≤ y < h → 0 ≤ c < 4 →
     ¬ morph_interior s img x y → channel out x y c = Some 0).
Proof.
  destruct (scan_spec w
    (λ x y rdata,
       let value := neighbourhood op init (data img) w r x y in
       let idx := (y * w + x) * 4 in
       u8_set (idx + 3) (Some 255)
         (u8_set idx value
           (u8_set (idx + 1) value
             (u8_set (idx + 2) value rdata))))
    (λ x y c, if decide (c = 3) then 255
              else to_u8_clamp (neighbourhood op init (data img) w r x y)))
    with r (h - r) r (w - r) (data (newImageData w h))
    as (Hlen & Hhit & Hmiss).
  - intros x y d. cbn zeta. by rewrite !length_u8_set.
  - intros x y c d Hc Hi Hb. cbn zeta.
    assert (c = 0 ∨ c = 1 ∨ c = 2 ∨ c = 3) as Hcs by lia.
    destruct Hcs as [-> | [-> | [-> | ->]]]; rewrite ?Z.add_0_r in *;
      u8_stores; case_decide; try lia; done.
  - intros x y d j Hj. cbn zeta.
    pose proof (Hj 0). pose proof (Hj 1). pose proof (Hj 2). pose proof (Hj 3).
    u8_stores. done.
  - done.
  - lia.
  - done.
  - split_and!.
    + etrans; [exact Hlen|]. apply length_newImageData.
    + intros x y c [Hx Hy] Hc. apply Hhit; [done..|].
      rewrite length_newImageData.
      pose proof (pixel_index_bound w h x y c). fold w h r in Hx, Hy. lia.
    + intros x y c Hx Hy Hc Hni. unfold channel.
      change (width out) with w. etrans; [apply Hmiss|].
      * intros x' y' c' Hx' Hy' Hc' Heq.
        apply pixel_index_inj in Heq; [|lia..].
        destruct Heq as (-> & -> & ->). by apply Hni.
      * apply u8_get_newImageData_lt. by apply pixel_index_bound.
Qed.

Lemma morph_stage_wf : 0 ≤ w → 0 ≤ h → wf_image out.
Proof.
  intros Hw Hh. split_and!; [done..| |].
  - apply morph_stage_data.
  - unfold out, morph_stage. cbn [data].
    apply (for_range_preserve (Forall (λ v, 0 ≤ v ≤ 255))).
    + apply Forall_replicate. lia.
    + intros y d _ Hd. apply (for_range_preserve (Forall (λ v, 0 ≤ v ≤ 255))).
      * done.
      * intros x d' _ Hd'. cbn zeta.
        repeat apply Forall_u8_set; try apply to_u8_clamp_range. done.
Qed.
End MorphStage.

Section Neighbourhood.
Variable s : ProcessingSettings.
Variable img : ImageData.
Variables x y : Z.

Let w := width img.
Let r := morphologyRadius s.

Hypothesis img_wf : wf_image img.
Hypothesis radius_nonneg : 0 ≤ r.
Hypothesis interior : morph_interior s img x y.

Lemma neighbour_read kx ky :
  - r ≤ kx ≤ r → - r ≤ ky ≤ r →
  u8_get (data img) (((y + ky) * w + (x + kx)) * 4) =
    Some (intensity img (x + kx) (y + ky)).
Proof.
  intros Hkx Hky. destruct interior as [Hx Hy]. fold r in Hx, Hy.
  apply (red_wf img (x + kx) (y + ky)); [done|lia..].
Qed.

Lemma erosion_neighbourhood :
  ∃ m, neighbourhood js_min 255 (data img) w r x y = Some m ∧
       ∀ kx ky, - r ≤ kx ≤ r → - r ≤ ky ≤ r →
         m ≤ intensity img (x + kx) (y + ky).
Proof.
  assert (∃ m, neighbourhood js_min 255 (data img) w r x y = Some m ∧
            ∀ kx ky, - r ≤ kx ≤ r → - r ≤ ky < r + 1 →
              m ≤ intensity img (x + kx) (y + ky)) as (m & Hm & Hle).
  { unfold neighbourhood.
    apply (for_range_inv (λ i acc, ∃ m, acc = Some m ∧
             ∀ kx ky, - r ≤ kx ≤ r → - r ≤ ky < i →
               m ≤ intensity img (x + kx) (y + ky))); [lia| |].
    { exists 255. split; [done|]. intros; lia. }
    intros i acc Hi (m & -> & Hle).
    assert (∃ m', for_range (- r) (r + 1)
              (λ kx acc, js_min acc
                 (u8_get (data img) (((y + i) * w + (x + kx)) * 4)))
              (Some m) = Some m' ∧
            (∀ kx ky, - r ≤ kx ≤ r → - r ≤ ky < i →
               m' ≤ intensity img (x + kx) (y + ky)) ∧
            (∀ kx, - r ≤ kx < r + 1 → m' ≤ intensity img (x + kx) (y + i)))
      as (m' & Hm' & Hrows & Hrow).
    { apply (for_range_inv (λ j acc, ∃ m', acc = Some m' ∧
               (∀ kx ky, - r ≤ kx ≤ r → - r ≤ ky < i →
                  m' ≤ intensity img (x + kx) (y + ky)) ∧
               (∀ kx, - r ≤ kx < j → m' ≤ intensity img (x + kx) (y + i))));
        [lia| |].
      { exists m. split_and!; [done|done|]. intros; lia. }
      intros j acc Hj (m' & -> & Hrows & Hrow).
      rewrite neighbour_read by lia. cbn.
      eexists. split_and!; [done| |].
      - intros kx ky ??. specialize (Hrows kx ky). lia.
      - intros kx ?. destruct (decide (kx = j)) as [->|]; [lia|].
        specialize (Hrow kx). lia. }
    exists m'. split; [exact Hm'|].
    intros kx ky Hkx Hky. destruct (decide (ky = i)) as [->|].
    - apply Hrow. lia.
    - apply Hrows; lia. }
  exists m. split; [exact Hm|]. intros kx ky ??. apply Hle; lia.
Qed.

Lemma dilation_neighbourhood :
  ∃ m, neighbourhood js_max 0 (data img) w r x y = Some m ∧
       (∀ kx ky, - r ≤ kx ≤ r → - r ≤ ky ≤ r →
          intensity img (x + kx) (y + ky) ≤ m) ∧
       (∀ B, 0 ≤ B →
          (∀ kx ky, - r ≤ kx ≤ r → - r ≤ ky ≤ r →
             intensity img (x + kx) (y + ky) ≤ B) →
          m ≤ B).
Proof.
  assert (∃ m, neighbourhood js_max 0 (data img) w r x y = Some m ∧
            (∀ kx ky, - r ≤ kx ≤ r → - r ≤ ky < r + 1 →
               intensity img (x + kx) (y + ky) ≤ m) ∧
            (∀ B, 0 ≤ B →
               (∀ kx ky, - r ≤ kx ≤ r → - r ≤ ky ≤ r →
                  intensity img (x + kx) (y + ky) ≤ B) →
               m ≤ B)) as (m & Hm & Hge & Hub).
  { unfold neighbourhood.
    apply (for_range_inv (λ i acc, ∃ m, acc = Some m ∧
             (∀ kx ky, - r ≤ kx ≤ r → - r ≤ ky < i →
                intensity img (x + kx) (y + ky) ≤ m) ∧
             (∀ B, 0 ≤ B →
                (∀ kx ky, - r ≤ kx ≤ r → - r ≤ ky ≤ r →
                   intensity img (x + kx) (y + ky) ≤ B) →
                m ≤ B))); [lia| |].
    { exists 0. split_and!; [done| |done]. intros; lia. }
    intros i acc Hi (m & -> & Hge & Hub).
    assert (∃ m', for_range (- r) (r + 1)
              (λ kx acc, js_max acc
                 (u8_get (data img) (((y + i) * w + (x + kx)) * 4)))
              (Some m) = Some m' ∧
            (∀ kx ky, - r ≤ kx ≤ r → - r ≤ ky < i →
               intensity img (x + kx) (y + ky) ≤ m') ∧
            (∀ kx, - r ≤ kx < r + 1 → intensity img (x + kx) (y + i) ≤ m') ∧
            (∀ B, 0 ≤ B →
               (∀ kx ky, - r ≤ kx ≤ r → - r ≤ ky ≤ r →
                  intensity img (x + kx) (y + ky) ≤ B) →
               m' ≤ B))
      as (m' & Hm' & Hrows & Hrow & Hub').
    { apply (for_range_inv (λ j acc, ∃ m', acc = Some m' ∧
               (∀ kx ky, - r ≤ kx ≤ r → - r ≤ ky < i →
                  intensity img (x + kx) (y + ky) ≤ m') ∧
               (∀ kx, - r ≤ kx < j → intensity img (x + kx) (y + i) ≤ m') ∧
               (∀ B, 0 ≤ B →
                  (∀ kx ky, - r ≤ kx ≤ r → - r ≤ ky ≤ r →
                     intensity img (x + kx) (y + ky) ≤ B) →
                  m' ≤ B))); [lia| |].
      { exists m. split_and!; [done|done| |done]. intros; lia. }
      intros j acc Hj (m' & -> & Hrows & Hrow & Hub').
      rewrite neighbour_read by lia. cbn.
      eexists. split_and!; [done| | |].
      - intros kx ky ??. specialize (Hrows kx ky). lia.
      - intros kx ?. destruct (decide (kx = j)) as [->|]; [lia|].
        specialize (Hrow kx). lia.
      - intros B HB Hall. specialize (Hub' B HB Hall).
        specialize (Hall j i). lia. }
    exists m'. split_and!; [exact Hm'| |done].
    intros kx ky Hkx Hky. destruct (decide (ky = i)) as [->|].
    - apply Hrow. lia.
    - apply Hrows; lia. }
  exists m. split_and!; [exact Hm| |done]. intros kx ky ??. apply Hge; lia.
Qed.
End Neighbourhood.

Lemma channel_red img x y : channel img x y 0 = red img x y.
Proof. unfold channel, red. by rewrite Z.add_0_r. Qed.

Lemma intensity_range img x y : wf_image img → 0 ≤ intensity img x y ≤ 255.
Proof.
  intros (_ & _ & _ & Hall). unfold intensity, red, u8_get.
  case_decide; [|cbn; lia].
  destruct (data img !! _) as [v|] eqn:Hv; [|cbn; lia].
  cbn. exact (Forall_lookup_1 _ _ _ _ Hall Hv).
Qed.

Lemma wf_erosion s img :
  0 ≤ morphologyRadius s → wf_image img → wf_image (morphologicalErosion s img).
Proof. intros Hr (? & ? & _). by apply morph_stage_wf. Qed.

Lemma to_u8_clamp_mono a b : a ≤ b → to_u8_clamp (Some a) ≤ to_u8_clamp (Some b).
Proof. cbn. lia. Qed.

Lemma morph_interior_dec s img x y : Decision (morph_interior s img x y).
Proof. unfold morph_interior. apply _. Qed.

(** Erosion is below the source on the red channel. *)
Lemma erosion_le_source s img x y kx ky :
  wf_image img → 0 ≤ morphologyRadius s →
  0 ≤ x < width img → 0 ≤ y < height img →
  - morphologyRadius s ≤ kx ≤ morphologyRadius s →
  - morphologyRadius s ≤ ky ≤ morphologyRadius s →
  0 ≤ x + kx < width img → 0 ≤ y + ky < height img →
  intensity (morphologicalErosion s img) (x + kx) (y + ky) ≤ intensity img x y.
Proof.
  intros Hwf Hr Hx Hy Hkx Hky Hqx Hqy.
  pose proof (intensity_range img x y Hwf) as HB.
  destruct (morph_stage_data js_min 255 s img Hr) as (_ & Hhit & Hmiss).
  unfold intensity at 1. rewrite <- channel_red.
  destruct (morph_interior_dec s img (x + kx) (y + ky)) as [Hint|Hout].
  - rewrite morphologicalErosion_stage, Hhit by (done || lia).
    rewrite decide_False by lia.
    destruct (erosion_neighbourhood s img (x + kx) (y + ky) Hwf Hr Hint)
      as (m & -> & Hm).
    specialize (Hm (- kx) (- ky)).
    replace (x + kx + - kx) with x in Hm by lia.
    replace (y + ky + - ky) with y in Hm by lia.
    cbn. lia.
  - rewrite morphologicalErosion_stage, Hmiss by (done || lia). cbn. lia.
Qed.

(** C3 (as amended). Erosion is pointwise below dilation, and the opening
    [Dilation(Erosion(x))] is pointwise below [x] on the red channel: every
    ink pixel of [x] is an ink pixel of the opening, which never removes
    ink. *)
Theorem opening_keeps_ink s img :
  wf_image img → 0 ≤ morphologyRadius s →
  let opened := morphologicalDilation s (morphologicalErosion s img) in
  (∀ x y c, 0 ≤ x < width img → 0 ≤ y < height img → 0 ≤ c < 4 →
     ∃ a b, channel (morphologicalErosion s img) x y c = Some a ∧
            channel (morphologicalDilation s img) x y c = Some b ∧ a ≤ b) ∧
  (∀ x y, 0 ≤ x < width img → 0 ≤ y < height img →
     ∃ a, red opened x y = Some a ∧ a ≤ intensity img x y) ∧
  ink_subset img opened.
Proof.
  intros Hwf Hr opened.
  assert (∀ x y, 0 ≤ x < width img → 0 ≤ y < height img →
            ∃ a, red opened x y = Some a ∧ a ≤ intensity img x y) as Hopen.
  { intros x y Hx Hy. pose proof (intensity_range img x y Hwf) as HB.
    pose proof (wf_erosion s img Hr Hwf) as HwfE.
    destruct (morph_stage_data js_max 0 s (morphologicalErosion s img) Hr)
      as (_ & Hhit & Hmiss).
    rewrite <- channel_red. subst opened. rewrite morphologicalDilation_stage.
    destruct (morph_interior_dec s img x y) as [Hint|Hout].
    - rewrite Hhit by (done || lia). rewrite decide_False by lia.
      destruct (dilation_neighbourhood s (morphologicalErosion s img) x y
                  HwfE Hr Hint) as (m & -> & _ & Hub).
      eexists. split; [done|].
      specialize (Hub (intensity img x y)). cbn.
      destruct Hint as [Hix Hiy].
      assert (m ≤ intensity img x y); [|lia].
      apply Hub; [lia|]. intros kx ky Hkx Hky.
      apply erosion_le_source; [done..|lia|lia].
    - rewrite Hmiss by (done || lia). eexists. split; [done|lia]. }
  split_and!; [|exact Hopen|].
  - intros x y c Hx Hy Hc.
    destruct (morph_stage_data js_min 255 s img Hr) as (_ & HhitE & HmissE).
    destruct (morph_stage_data js_max 0 s img Hr) as (_ & HhitD & HmissD).
    rewrite morphologicalErosion_stage, morphologicalDilation_stage.
    destruct (morph_interior_dec s img x y) as [Hint|Hout].
    + rewrite HhitE, HhitD by done. do 2 eexists. split_and!; [done..|].
      case_decide; [lia|].
      destruct (erosion_neighbourhood s img x y Hwf Hr Hint) as (m & -> & Hm).
      destruct (dilation_neighbourhood s img x y Hwf Hr Hint)
        as (n & -> & Hn & _).
      specialize (Hm 0 0). specialize (Hn 0 0). rewrite !Z.add_0_r in *.
      apply to_u8_clamp_mono. lia.
    + rewrite HmissE, HmissD by done. by exists 0, 0.
  - intros x y (Hx & Hy & v & Hv & Hlt).
    destruct (Hopen x y Hx Hy) as (a & Ha & Hle).
    split; [exact Hx|split; [exact Hy|]]. exists a. split; [done|].
    unfold intensity in Hle. rewrite Hv in Hle. cbn in Hle. lia.
Qed.

Lemma wf_white_hole : wf_image white_hole.
Proof.
  split_and!; [done..|]. apply (bool_decide_unpack _). by vm_compute.
Qed.

Lemma opening_keeps_ink_witness :
  wf_image white_hole ∧ 0 ≤ morphologyRadius defaultProcessingSettings ∧
  ink_subset white_hole
    (morphologicalDilation defaultProcessingSettings
       (morphologicalErosion defaultProcessingSettings white_hole)).
Proof.
  split; [exact wf_white_hole|]. split; [done|].
  apply (opening_keeps_ink defaultProcessingSettings white_hole);
    [exact wf_white_hole|done].
Defined.

(** C3 (as stated) fails: the opening of an image that is black but for one
    white pixel is black there too, so it has ink outside the ink of the
    source. *)
Lemma opening_adds_ink_counterexample :
  ¬ ink_subset
      (morphologicalDilation defaultProcessingSettings
         (morphologicalErosion defaultProcessingSettings white_hole))
      white_hole.
Proof.
  intros Hsub. destruct (Hsub 4 4) as (_ & _ & v & Hv & Hlt).
  - split; [done|]. split; [done|]. exists 0. split; [by vm_compute|done].
  - vm_compute in Hv. injection Hv as <-. lia.
Qed.


(** ** Arrays of rows *)

Lemma get2_set2_eq {A} (m : list (list A)) x y v :
  is_Some (get2 m x y) → get2 (set2 m x y v) x y = Some v.
Proof.
  unfold get2, set2. case_decide; [|by intros []].
  intros [a Ha]. rewrite list_lookup_alter_eq.
  destruct (m !! Z.to_nat y) as [row|]; [|done]. cbn in *.
  apply list_lookup_insert_eq. by eapply lookup_lt_Some.
Qed.

Lemma get2_set2_ne {A} (m : list (list A)) x y x' y' v :
  (x, y) ≠ (x', y') → get2 (set2 m x y v) x' y' = get2 m x' y'.
Proof.
  intros Hne. unfold get2, set2.
  destruct (decide (0 ≤ x' ∧ 0 ≤ y')) as [[??]|]; [|done].
  destruct (decide (0 ≤ x ∧ 0 ≤ y)) as [[??]|]; [|done].
  destruct (decide (Z.to_nat y = Z.to_nat y')) as [Hy|Hy].
  - rewrite <- Hy, list_lookup_alter_eq.
    destruct (m !! Z.to_nat y) as [row|]; [|done]. cbn.
    apply list_lookup_insert_ne. intros Hx.
    apply Hne. f_equal; lia.
  - by rewrite list_lookup_alter_ne.
Qed.

Lemma wf_grid_set2 {A} (m : list (list A)) w h x y v :
  wf_grid m w h → wf_grid (set2 m x y v) w h.
Proof.
  intros (Hw & Hh & Hlen & Hrows). unfold set2. case_decide; [|done].
  split_and!; [done..| |].
  - by rewrite length_alter.
  - apply Forall_alter; [done|]. intros row _ Hrow. by rewrite length_insert.
Qed.

Lemma get2_wf {A} (m : list (list A)) w h x y :
  wf_grid m w h → in_range w h x y = true → is_Some (get2 m x y).
Proof.
  intros (Hw & Hh & Hlen & Hrows) Hin. unfold in_range in Hin.
  apply bool_decide_eq_true in Hin. unfold get2. rewrite decide_True by lia.
  destruct (lookup_lt_is_Some_2 m (Z.to_nat y)) as [row Hrow]; [lia|].
  rewrite Hrow. cbn. apply lookup_lt_is_Some_2.
  rewrite (Forall_lookup_1 _ _ _ _ Hrows Hrow). lia.
Qed.

Lemma wf_grid_replicate {A} (v : A) w h :
  0 ≤ w → 0 ≤ h →
  wf_grid (replicate (Z.to_nat h) (replicate (Z.to_nat w) v)) w h.
Proof.
  intros. split_and!; [done..| |].
  - apply length_replicate.
  - apply Forall_replicate, length_replicate.
Qed.

Lemma get2_replicate {A} (v a : A) w h x y :
  get2 (replicate h (replicate w v)) x y = Some a → a = v.
Proof.
  unfold get2. case_decide; [|done].
  destruct (replicate h _ !! _) as [row|] eqn:Hrow; [|done]. cbn.
  apply lookup_replicate in Hrow as [-> _].
  by intros [-> _]%lookup_replicate.
Qed.

(** ** Region tracer *)

Lemma marked_set2 vis w h x y p :
  wf_grid vis w h → in_range w h x y = true →
  marked vis p → marked (set2 vis x y true) p.
Proof.
  intros Hwf Hin Hp. unfold marked in *.
  destruct (decide ((x, y) = (px p, py p))) as [[= <- <-]|Hne].
  - apply get2_set2_eq. by eapply get2_wf.
  - by rewrite get2_set2_ne.
Qed.

Lemma length_pushNeighbours bm vis w h x y dirs stack :
  (length (pushNeighbours bm vis w h x y dirs stack)
     ≤ length stack + length dirs)%nat.
Proof.
  unfold pushNeighbours. revert stack.
  induction dirs as [|[dx dy] dirs IH]; intros stack; cbn [foldl]; [lia|].
  etrans; [apply IH|]. case_match; cbn; lia.
Qed.

Section TraceLoop.
Variable s : OptimizationSettings.
Variable bm : list (list Z).
Variables w h : Z.
Variable dirs : list (Z * Z).

(** The loop returns once the fuel exceeds the stack height plus
    [1 + length dirs] steps for every point the contour may still take. *)
Lemma traceLoop_total fuel stack contour vis :
  Z.of_nat (length stack)
    + Z.of_nat (1 + length dirs)
      * Z.max 0 (maxPoints s - Z.of_nat (length contour))
    < Z.of_nat fuel →
  is_Some (traceLoop fuel s bm w h dirs stack contour vis).
Proof.
  revert stack contour vis.
  induction fuel as [|fuel IH]; intros stack contour vis Hf; [nia|].
  destruct stack as [|[x y] stack]; cbn [traceLoop]; [done|].
  case_bool_decide as Hlen; [|done].
  set (k := Z.of_nat (1 + length dirs)) in *.
  assert (0 < k) as Hk by lia.
  case_match.
  - apply IH. cbn [length] in Hf. lia.
  - apply IH. rewrite length_app. cbn [length] in *.
    pose proof (length_pushNeighbours bm (set2 vis x y true) w h x y dirs stack)
      as Hpush.
    replace (Z.max 0 (maxPoints s - Z.of_nat (length contour)))
      with (maxPoints s - Z.of_nat (length contour)) in Hf by lia.
    replace (Z.max 0 (maxPoints s - Z.of_nat (length contour + 1)))
      with (maxPoints s - Z.of_nat (length contour) - 1) by lia.
    subst k. nia.
Qed.

Lemma traceLoop_spec fuel stack contour vis c' vis' :
  wf_grid vis w h →
  (∀ p, p ∈ contour → marked vis p) →
  NoDup contour →
  traceLoop fuel s bm w h dirs stack contour vis = Some (c', vis') →
  wf_grid vis' w h ∧
  NoDup c' ∧
  (∀ p, p ∈ c' → marked vis' p) ∧
  (∀ p, marked vis p → marked vis' p) ∧
  (∀ p, p ∈ c' → p ∈ contour ∨ ¬ marked vis p) ∧
  Z.of_nat (length c') ≤ Z.max (Z.of_nat (length contour)) (maxPoints s).
Proof.
  revert stack contour vis.
  induction fuel as [|fuel IH]; intros stack contour vis Hwf Hm Hnd; [done|].
  destruct stack as [|[x y] stack]; cbn [traceLoop].
  { intros [= <- <-]. split_and!; [done..|auto|lia]. }
  case_bool_decide as Hlen; cycle 1.
  { intros [= <- <-]. split_and!; [done..|auto|lia]. }
  destruct (negb _ || _ || _) eqn:Hskip.
  { intros Hrun. destruct (IH _ _ _ Hwf Hm Hnd Hrun) as (?&?&?&?&?&?).
    done. }
  apply orb_false_iff in Hskip as [Hskip Hbm].
  apply orb_false_iff in Hskip as [Hin Hvis].
  apply negb_false_iff in Hin. apply bool_decide_eq_false in Hvis.
  intros Hrun.
  assert (mkPoint x y ∉ contour) as Hfresh.
  { intros Hel. apply Hvis. exact (Hm _ Hel). }
  apply IH in Hrun as (Hwf' & Hnd' & Hm' & Hmono & Hnew & Hlen').
  - split_and!; [done..| | |].
    + intros p Hp. apply Hmono. by eapply marked_set2.
    + intros p Hp. destruct (Hnew p Hp) as [Hel|Hnm].
      * apply elem_of_app in Hel as [Hel|Hel]; [by left|].
        apply list_elem_of_singleton in Hel as ->. by right.
      * right. intros Hp'. apply Hnm. by eapply marked_set2.
    + rewrite length_app in Hlen'. cbn [length] in Hlen'. lia.
  - by apply wf_grid_set2.
  - intros p [Hel|Hel]%elem_of_app.
    + eapply marked_set2; [done..|]. by apply Hm.
    + apply list_elem_of_singleton in Hel as ->.
      apply get2_set2_eq. by eapply get2_wf.
  - apply NoDup_app. split_and!; [done| |apply NoDup_singleton].
    intros p Hp ->%list_elem_of_singleton. done.
Qed.
End TraceLoop.

Lemma NoDup_join_disjoint (cs : list (list (Point Z))) :
  NoDup (mjoin cs) → pairwise_disjoint cs ∧ Forall NoDup cs.
Proof.
  induction cs as [|c cs IH]; intros Hnd.
  { split; [|done]. by intros i j ci cj p Hi. }
  cbn in Hnd. apply NoDup_app in Hnd as (Hc & Hdis & Hcs).
  destruct (IH Hcs) as [Hpw Hall]. split; [|by constructor].
  intros i j ci cj p Hi Hj Hpi Hpj.
  destruct i as [|i], j as [|j]; cbn in Hi, Hj.
  - done.
  - injection Hi as <-. destruct (Hdis p Hpi).
    apply list_elem_of_join. exists cj. split; [done|].
    by eapply list_elem_of_lookup_2.
  - injection Hj as <-. destruct (Hdis p Hpj).
    apply list_elem_of_join. exists ci. split; [done|].
    by eapply list_elem_of_lookup_2.
  - f_equal. by eapply Hpw.
Qed.

Section FindContours.
Variable s : OptimizationSettings.
Variable bm : list (list Z).
Variables w h : Z.

Lemma findContoursAt_inv fuel x y st st' :
  scan_inv s w h st →
  findContoursAt fuel s bm w h x y st = Some st' →
  scan_inv s w h st'.
Proof.
  destruct st as [contours vis]. intros (Hwf & Hnd & Hm & Hcap).
  cbn [fst snd] in *. unfold findContoursAt.
  destruct (bool_decide _ && _); [|by intros [= <-]].
  unfold traceContour.
  destruct (traceLoop _ _ _ _ _ _ _ _ _) as [[c vis']|] eqn:Hrun; [|done].
  cbn. apply traceLoop_spec in Hrun
    as (Hwf' & Hnd' & Hm' & Hmono & Hnew & Hlen); [|done| |apply NoDup_nil_2].
  2:{ by intros p ?%elem_of_nil. }
  cbn [length] in Hlen.
  case_bool_decide; intros [= <-]; (split_and!; cbn [fst snd]; [done|..]).
  - rewrite join_app. cbn. rewrite app_nil_r.
    apply NoDup_app. split_and!; [done| |done].
    intros p Hp Hpc. destruct (Hnew p Hpc) as [?%elem_of_nil|Hnm]; [done|].
    by apply Hnm, Hm.
  - intros p. rewrite join_app. cbn. rewrite app_nil_r.
    intros [?|?]%elem_of_app; [apply Hmono|]; auto.
  - apply Forall_app. split; [done|]. by apply Forall_singleton.
  - done.
  - intros p ?. apply Hmono; auto.
  - done.
Qed.

Lemma findContoursAt_total fuel x y st :
  9 * Z.max 0 (maxPoints s) + 2 ≤ Z.of_nat fuel →
  is_Some (findContoursAt fuel s bm w h x y st).
Proof.
  intros Hf. destruct st as [contours vis]. unfold findContoursAt.
  destruct (bool_decide _ && _); [|done]. unfold traceContour.
  destruct (traceLoop_total s bm w h directions fuel [(x, y)] [] vis)
    as [[c vis'] ->]; [cbn; lia|].
  cbn. by case_bool_decide.
Qed.

Lemma findContours_inv fuel contours :
  0 ≤ w → 0 ≤ h →
  findContours fuel s bm w h = Some contours →
  NoDup (mjoin contours) ∧
  Forall (λ c, Z.of_nat (length c) ≤ Z.max 0 (maxPoints s)) contours.
Proof.
  intros Hw Hh. unfold findContours.
  destruct (for_rangeM _ _ _ _) as [[cs vis]|] eqn:Hrun; [|done].
  intros [= <-].
  apply (for_rangeM_preserve (scan_inv s w h)) in Hrun as (_ & Hnd & _ & Hcap).
  - done.
  - split_and!; cbn; [by apply wf_grid_replicate|apply NoDup_nil_2| |done].
    by intros p ?%elem_of_nil.
  - intros y t t' _ Ht. apply for_rangeM_preserve; [done|].
    intros x u u' _ Hu. by apply findContoursAt_inv.
Qed.

Lemma findContours_total fuel :
  9 * Z.max 0 (maxPoints s) + 2 ≤ Z.of_nat fuel →
  is_Some (findContours fuel s bm w h).
Proof.
  intros Hf. unfold findContours. apply fmap_is_Some.
  apply for_rangeM_is_Some. intros y t _.
  apply for_rangeM_is_Some. intros x u _.
  by apply findContoursAt_total.
Qed.
End FindContours.

(** C10. The contours that one call of [findContours] returns are pairwise
    disjoint, and none repeats a pixel: the shared [visited] array lets no
    pixel be collected twice.  With fuel for nine steps per admissible
    contour point the call returns. *)
Theorem findContours_disjoint fuel s bm w h :
  wf_grid bm w h →
  9 * Z.max 0 (maxPoints s) + 2 ≤ Z.of_nat fuel →
  ∃ contours,
    findContours fuel s bm w h = Some contours ∧
    pairwise_disjoint contours ∧ Forall NoDup contours.
Proof.
  intros (Hw & Hh & _) Hf.
  destruct (findContours_total s bm w h fuel Hf) as [contours Hrun].
  exists contours. split; [done|].
  apply NoDup_join_disjoint.
  exact (proj1 (findContours_inv s bm w h fuel contours Hw Hh Hrun)).
Qed.

(** The map that the extractor hands to the tracer has all its rows. *)
Lemma createBinaryMap_wf src w h :
  0 ≤ w → 0 ≤ h → wf_grid (createBinaryMap src w h) w h.
Proof.
  intros Hw Hh. unfold createBinaryMap.
  assert (∀ y, Z.of_nat (length (for_range 0 w (λ x row,
            let idx := (y * w + x) * 4 in
            row ++ [match u8_get src idx with
                    | Some v => if bool_decide (v < 128) then 1 else 0
                    | None => 0
                    end]) [])) = w) as Hrow.
  { intros y. apply (for_range_inv (λ k row, Z.of_nat (length row) = k));
      [done..|].
    intros x row _ Hlen. rewrite length_app. cbn. lia. }
  split_and!; [done..| |].
  - apply Nat2Z.inj. rewrite Z2Nat.id by done.
    apply (for_range_inv (λ k m, Z.of_nat (length m) = k)); [done..|].
    intros y m _ Hlen. rewrite length_app. cbn. lia.
  - apply (for_range_preserve (Forall (λ row, length row = Z.to_nat w)));
      [done|].
    intros y m _ Hm. apply Forall_app. split; [done|].
    apply Forall_singleton. apply Nat2Z.inj. rewrite Z2Nat.id by done.
    apply Hrow.
Qed.

Lemma wf_two_regions : wf_grid two_regions 6 5.
Proof. split_and!; [done..|]. by repeat constructor. Qed.

Lemma findContours_disjoint_witness :
  wf_grid two_regions 6 5 ∧
  9 * Z.max 0 (maxPoints (mkOptimizationSettings 2 1 1000)) + 2
    ≤ Z.of_nat (Z.to_nat 9002) ∧
  ∃ contours,
    findContours (Z.to_nat 9002) (mkOptimizationSettings 2 1 1000)
      two_regions 6 5
      = Some contours ∧
    pairwise_disjoint contours ∧ Forall NoDup contours.
Proof.
  split; [exact wf_two_regions|]. split; [by vm_compute|].
  apply findContours_disjoint; [exact wf_two_regions|by vm_compute].
Defined.

Lemma pushNeighbours_none bm vis w h x y dirs stack :
  (∀ dx dy, (dx, dy) ∈ dirs → get2 bm (x + dx) (y + dy) ≠ Some 1) →
  pushNeighbours bm vis w h x y dirs stack = stack.
Proof.
  unfold pushNeighbours. revert stack.
  induction dirs as [|[dx dy] dirs IH]; intros stack Hbg; cbn [foldl]; [done|].
  rewrite (bool_decide_eq_false_2 (get2 bm (x + dx) (y + dy) = Some 1)).
  - rewrite andb_false_r. apply IH. intros dx' dy' Hel. apply Hbg. by right.
  - apply Hbg. by left.
Qed.

Lemma directions_nonzero dx dy : (dx, dy) ∈ directions → (dx, dy) ≠ (0, 0).
Proof.
  intros Hel [= -> ->]. revert Hel.
  apply (bool_decide_unpack ((0, 0) ∉ directions)). by vm_compute.
Qed.

Section Isolated.
Variable s : OptimizationSettings.
Variable bm : list (list Z).
Variables w h : Z.
Variables x0 y0 : Z.
Variable fuel : nat.

Hypothesis bm_wf : wf_grid bm w h.
Hypothesis bm_isolated : isolated_ink bm x0 y0.
Hypothesis cap : 1 ≤ maxPoints s.
Hypothesis enough : (2 ≤ fuel)%nat.

Let v0 : list (list bool) :=
  replicate (Z.to_nat h) (replicate (Z.to_nat w) false).
Let v1 : list (list bool) := set2 v0 x0 y0 true.
Let cs1 : list (list (Point Z)) :=
  if bool_decide (minPathLength s ≤ 1) then [[mkPoint x0 y0]] else [].

Lemma isolated_trace :
  in_range w h x0 y0 = true →
  traceContour fuel s bm v0 x0 y0 w h directions
    = Some ([mkPoint x0 y0], v1).
Proof.
  intros Hin. destruct bm_isolated as [Hink Hbg].
  destruct fuel as [|[|f]]; [lia..|].
  unfold traceContour. cbn [traceLoop length app].
  rewrite bool_decide_eq_true_2 by lia. rewrite Hin. cbn [negb orb].
  rewrite (bool_decide_eq_false_2 (get2 v0 x0 y0 = Some true)); cycle 1.
  { by intros ?%get2_replicate. }
  rewrite (bool_decide_eq_false_2 (get2 bm x0 y0 = Some 0)) by (by rewrite Hink).
  cbn [orb]. rewrite pushNeighbours_none; [done|].
  intros dx dy Hd%directions_nonzero Hone.
  eapply Hbg in Hone; [done|]. intros [= ??]. apply Hd. f_equal; lia.
Qed.

(** The scan has passed the ink pixel when it is about to look at the
    cell [(x, y)]. *)
Let passed (x y : Z) : Prop :=
  1 ≤ x0 < w - 1 ∧ 1 ≤ y0 ∧ (y0 < y ∨ (y0 = y ∧ x0 < x)).

(** The state of the scan: the pixel is collected, and marked, as soon
    as the scan has passed it. *)
Let scanned (x y : Z) (st : list (list (Point Z)) * list (list bool)) : Prop :=
  (passed x y → st = (cs1, v1)) ∧ (¬ passed x y → st = ([], v0)).

Lemma isolated_step x y st :
  1 ≤ x < w - 1 → 1 ≤ y < h - 1 →
  scanned x y st →
  ∃ st', findContoursAt fuel s bm w h x y st = Some st' ∧
         scanned (x + 1) y st'.
Proof.
  intros Hx Hy [Hdone Htodo]. destruct bm_isolated as [Hink Hbg].
  destruct bm_wf as (Hw & Hh & _).
  destruct (decide ((x, y) = (x0, y0))) as [[= -> ->]|Hne].
  - assert (in_range w h x0 y0 = true) as Hin.
    { apply bool_decide_eq_true. lia. }
    rewrite Htodo by (unfold passed; lia).
    unfold findContoursAt.
    rewrite bool_decide_eq_true_2 by done.
    rewrite (bool_decide_eq_false_2 (get2 v0 x0 y0 = Some true)); cycle 1.
    { by intros ?%get2_replicate. }
    cbn [negb andb]. rewrite isolated_trace by done. cbn.
    exists (cs1, v1). split.
    + unfold cs1. change (Z.of_nat 1) with 1. by case_bool_decide.
    + split; [done|]. intros Hnot. destruct Hnot. unfold passed. lia.
  - exists st. split.
    + unfold findContoursAt. destruct st as [cs vis].
      rewrite (bool_decide_eq_false_2 (get2 bm x y = Some 1)); [done|].
      intros Hone. by eapply Hbg in Hone.
    + assert (passed (x + 1) y ↔ passed x y) as Hsame.
      { assert (x ≠ x0 ∨ y ≠ y0) as Hxy.
        { destruct (decide (x = x0)) as [->|]; [|by left].
          destruct (decide (y = y0)) as [->|]; [by destruct Hne|by right]. }
        unfold passed. lia. }
      split; intros ?; [apply Hdone|apply Htodo]; by rewrite <- Hsame.
Qed.

Lemma isolated_row y st :
  1 ≤ y < h - 1 →
  scanned 1 y st →
  ∃ st', for_rangeM 1 (w - 1)
           (λ x st, findContoursAt fuel s bm w h x y st) st = Some st' ∧
         scanned 1 (y + 1) st'.
Proof.
  intros Hy Hst. destruct (decide (1 ≤ w - 1)) as [Hw|Hw]; cycle 1.
  { rewrite for_rangeM_nil by lia. exists st. split; [done|].
    destruct Hst as [Hdone Htodo]. split; intros Hp.
    - unfold passed in Hp. lia.
    - apply Htodo. unfold passed. lia. }
  destruct (for_rangeM_inv (λ x st, scanned x y st) 1 (w - 1)
              (λ x st, findContoursAt fuel s bm w h x y st) st)
    as (r & -> & [Hdone Htodo]); [done|done| |].
  { intros x t Hx Ht. by apply isolated_step. }
  exists r. split; [done|]. split; intros Hp.
  - apply Hdone. unfold passed in *. lia.
  - apply Htodo. unfold passed in *. lia.
Qed.

(** The tracer on a map with one ink pixel: the pixel is found when it
    is off the outermost ring, and kept when a contour of one point is
    long enough. *)
Lemma isolated_findContours :
  findContours fuel s bm w h
  = Some (if bool_decide (1 ≤ x0 < w - 1 ∧ 1 ≤ y0 < h - 1) then cs1 else []).
Proof.
  unfold findContours. fold v0.
  destruct (decide (1 ≤ h - 1)) as [Hh|Hh]; cycle 1.
  { rewrite for_rangeM_nil by lia. cbn.
    by rewrite bool_decide_eq_false_2 by lia. }
  destruct (for_rangeM_inv (λ y st, scanned 1 y st) 1 (h - 1)
              (λ y st, for_rangeM 1 (w - 1)
                 (λ x st, findContoursAt fuel s bm w h x y st) st)
              ([], v0)) as (r & -> & [Hdone Htodo]); [done| | |].
  - split; [|done]. unfold passed. lia.
  - intros y t Hy Ht. by apply isolated_row.
  - cbn. case_bool_decide as Hin.
    + rewrite Hdone; [done|]. unfold passed. lia.
    + rewrite Htodo; [done|]. unfold passed. lia.
Qed.
End Isolated.

Lemma background_findContours fuel s bm w h :
  all_background bm → findContours fuel s bm w h = Some [].
Proof.
  intros Hbg. unfold findContours.
  set (v0 := replicate _ _).
  destruct (for_rangeM_total (λ st, st = ([], v0)) 1 (h - 1)
              (λ y st, for_rangeM 1 (w - 1)
                 (λ x st, findContoursAt fuel s bm w h x y st) st)
              ([], v0)) as (r & -> & ->); [done| |done].
  intros y t Hy ->. apply for_rangeM_total; [done|].
  intros x u Hx ->. eexists. split; [|done]. unfold findContoursAt.
  rewrite (bool_decide_eq_false_2 (get2 bm x y = Some 1)); [done|].
  by intros ?%Hbg.
Qed.

(** C6. On a map that is all background the tracer returns no contour.
    On a map whose only ink is one pixel it returns the single contour
    that consists of that pixel when the pixel is off the outermost ring,
    which the scan skips, and [minPathLength] admits a contour of one
    point; otherwise it returns no contour.  Never more than one region. *)
Theorem findContours_background_isolated fuel s bm w h :
  wf_grid bm w h → 1 ≤ maxPoints s → (2 ≤ fuel)%nat →
  (all_background bm → findContours fuel s bm w h = Some []) ∧
  (∀ x0 y0, isolated_ink bm x0 y0 →
     (1 ≤ x0 < w - 1 → 1 ≤ y0 < h - 1 → minPathLength s ≤ 1 →
        findContours fuel s bm w h = Some [[mkPoint x0 y0]]) ∧
     (1 < minPathLength s → findContours fuel s bm w h = Some []) ∧
     (¬ (1 ≤ x0 < w - 1 ∧ 1 ≤ y0 < h - 1) →
        findContours fuel s bm w h = Some [])).
Proof.
  intros Hwf Hcap Hfuel. split.
  - apply background_findContours.
  - intros x0 y0 Hiso.
    rewrite (isolated_findContours s bm w h x0 y0 fuel Hwf Hiso Hcap Hfuel).
    split_and!.
    + intros Hx Hy Hmin. rewrite bool_decide_eq_true_2 by done.
      by rewrite bool_decide_eq_true_2 by done.
    + intros Hmin. rewrite (bool_decide_eq_false_2 (minPathLength s ≤ 1)) by lia.
      by case_bool_decide.
    + intros Hring. by rewrite bool_decide_eq_false_2 by done.
Qed.

Lemma wf_one_pixel : wf_grid one_pixel 5 5.
Proof. split_and!; [done..|]. by repeat constructor. Qed.

Lemma isolated_one_pixel : isolated_ink one_pixel 2 2.
Proof.
  split; [done|]. intros x y v Hne. unfold get2. case_decide; [|done].
  destruct (Z.to_nat y) as [|[|[|[|[|?]]]]] eqn:Hy; cbn; try done;
    destruct (Z.to_nat x) as [|[|[|[|[|?]]]]] eqn:Hx; cbn;
    try done; try (by intros [= <-]).
  destruct Hne. f_equal; lia.
Qed.

Lemma findContours_background_isolated_witness :
  wf_grid one_pixel 5 5 ∧ 1 ≤ maxPoints (mkOptimizationSettings 2 1 1000) ∧
  (2 ≤ 2)%nat ∧ isolated_ink one_pixel 2 2 ∧
  findContours 2 (mkOptimizationSettings 2 1 1000) one_pixel 5 5
    = Some [[mkPoint 2 2]] ∧
  findContours 2 defaultOptimizationSettings one_pixel 5 5 = Some [].
Proof.
  split; [exact wf_one_pixel|]. split; [by vm_compute|]. split; [lia|].
  split; [exact isolated_one_pixel|]. split.
  - refine (proj1 (proj2 (findContours_background_isolated 2
              (mkOptimizationSettings 2 1 1000) one_pixel 5 5 wf_one_pixel
              _ _) 2 2 isolated_one_pixel) _ _ _); cbn; lia.
  - refine (proj1 (proj2 (proj2 (findContours_background_isolated 2
              defaultOptimizationSettings one_pixel 5 5 wf_one_pixel
              _ _) 2 2 isolated_one_pixel)) _); cbn; lia.
Defined.

(** ** Perpendicular distance *)












(** ** Slices *)

Lemma slice_prefix {A} (a : list A) m :
  0 ≤ m ≤ Z.of_nat (length a) → slice a 0 m = take (Z.to_nat m) a.
Proof.
  intros Hm. unfold slice, slice_index.
  rewrite !decide_False by lia.
  rewrite Z.min_l by lia. rewrite Z.min_l by lia.
  cbn [Z.to_nat drop]. by rewrite Z.sub_0_r.
Qed.

Lemma slice_from_drop {A} (a : list A) m :
  0 ≤ m ≤ Z.of_nat (length a) → slice_from a m = drop (Z.to_nat m) a.
Proof.
  intros Hm. unfold slice_from, slice, slice_index.
  rewrite !decide_False by lia.
  rewrite Z.min_l by lia. rewrite Z.min_l by lia.
  apply take_ge. rewrite length_drop. lia.
Qed.

Lemma slice_init {A} (a : list A) : slice a 0 (-1) = take (length a - 1) a.
Proof.
  unfold slice, slice_index.
  rewrite (decide_False (P := 0 < 0)) by lia.
  rewrite (decide_True (P := -1 < 0)) by lia.
  rewrite Z.min_l by lia. cbn [Z.to_nat drop]. f_equal. lia.
Qed.

(** ** Douglas-Peucker *)

Lemma farthest_spec points e :
  let '(md, mi) := farthest points e in
  ((md = 0%R ∧ mi = 0) ∨ ((0 < md)%R ∧ 1 ≤ mi < e)) ∧
  ∀ i d, 1 ≤ i < e →
    perpendicularDistance (arr_get points i) (arr_get points 0)
      (arr_get points e) = Some d →
    (d <= md)%R.
Proof.
  unfold farthest. destruct (decide (1 ≤ e)) as [He|He]; cycle 1.
  { rewrite for_range_nil by lia. split; [by left|]. intros; lia. }
  apply (for_range_inv (λ k '(md, mi),
    ((md = 0%R ∧ mi = 0) ∨ ((0 < md)%R ∧ 1 ≤ mi < k)) ∧
    ∀ i d, 1 ≤ i < k →
      perpendicularDistance (arr_get points i) (arr_get points 0)
        (arr_get points e) = Some d →
      (d <= md)%R)); [done| |].
  { split; [by left|]. intros; lia. }
  intros k [md mi] Hk [Hcase Hmax].
  destruct (perpendicularDistance (arr_get points k) _ _) as [d|] eqn:Hd.
  - destruct (decide (d > md)%R) as [Hgt|Hle].
    + split.
      * right. split; [|lia]. destruct Hcase as [[-> _]|[? _]]; lra.
      * intros i d' Hi Hd'. destruct (decide (i = k)) as [->|].
        -- rewrite Hd in Hd'. injection Hd' as <-. lra.
        -- assert (d' <= md)%R by (apply (Hmax i d'); [lia|done]). lra.
    + split.
      * destruct Hcase as [?|[? ?]]; [by left|right; split; [done|lia]].
      * intros i d' Hi Hd'. destruct (decide (i = k)) as [->|].
        -- rewrite Hd in Hd'. injection Hd' as <-. lra.
        -- apply (Hmax i d'); [lia|done].
  - split.
    + destruct Hcase as [?|[? ?]]; [by left|right; split; [done|lia]].
    + intros i d' Hi Hd'. destruct (decide (i = k)) as [->|].
      * by rewrite Hd in Hd'.
      * apply (Hmax i d'); [lia|done].
Qed.

Lemma exceeds_positive md tolerance :
  tolerance_nonneg tolerance → exceeds md tolerance = true → (0 < md)%R.
Proof.
  destruct tolerance as [t|]; cbn; [|done].
  intros Ht Hgt%bool_decide_eq_true. lra.
Qed.

(** With fuel for its length, a sequence is simplified to one that is
    no longer. *)
Lemma douglasPeucker_length tolerance fuel points :
  tolerance_nonneg tolerance → (length points ≤ fuel)%nat →
  ∃ r, douglasPeucker fuel points tolerance = Some r ∧
       (length r ≤ length points)%nat.
Proof.
  intros Htol. revert points.
  induction fuel as [|fuel IH]; intros points Hfuel.
  { destruct points; [|cbn in Hfuel; lia]. by exists []. }
  cbn [douglasPeucker]. case_decide as Hlen; [by eauto|].
  pose proof (farthest_spec points (Z.of_nat (length points) - 1)) as Hfar.
  destruct (farthest _ _) as [md mi].
  destruct (exceeds md tolerance) eqn:Hex; cycle 1.
  { eexists. split; [done|]. cbn. lia. }
  apply exceeds_positive in Hex; [|done].
  destruct Hfar as [[[-> _]|[_ Hmi]] _]; [lra|].
  rewrite slice_prefix, slice_from_drop by lia.
  destruct (IH (take (Z.to_nat (mi + 1)) points)) as (left & -> & Hl).
  { rewrite length_take. lia. }
  destruct (IH (drop (Z.to_nat mi) points)) as (right & -> & Hr).
  { rewrite length_drop. lia. }
  cbn. eexists. split; [done|].
  rewrite slice_init, length_app, length_take.
  rewrite length_take in Hl. rewrite length_drop in Hr. lia.
Qed.

(** C5. For every tolerance that is not negative, simplification returns
    a sequence that is no longer than its input, and a sequence of at
    most two points is returned unchanged. *)
Theorem simplify_never_longer fuel s points tolerance :
  tolerance_nonneg tolerance → (length points ≤ fuel)%nat →
  (∃ r, douglasPeucker fuel points tolerance = Some r ∧
        (length r ≤ length points)%nat) ∧
  ((0 <= simplifyTolerance s)%R →
     ∃ r, simplifyPath fuel s points = Some r ∧
          (length r ≤ length points)%nat) ∧
  ((length points ≤ 2)%nat →
     douglasPeucker fuel points tolerance = Some points ∧
     simplifyPath fuel s points = Some points).
Proof.
  intros Htol Hfuel. split_and!.
  - by apply douglasPeucker_length.
  - intros Hs. unfold simplifyPath. case_decide; [by eauto|].
    by apply douglasPeucker_length.
  - intros Hshort. unfold simplifyPath. rewrite decide_True by done.
    split; [|done]. destruct fuel; cbn [douglasPeucker];
      by rewrite decide_True by done.
Qed.

Lemma simplify_never_longer_witness :
  tolerance_nonneg (Finite 2) ∧ (length bent3 ≤ 3)%nat ∧
  ∃ r, douglasPeucker 3 bent3 (Finite 2) = Some r ∧
       (length r ≤ length bent3)%nat.
Proof.
  assert (tolerance_nonneg (Finite 2)) as Htol by (cbn; lra).
  assert (length bent3 ≤ 3)%nat as Hlen by (cbn; lia).
  split; [exact Htol|]. split; [exact Hlen|].
  exact (proj1 (simplify_never_longer 3 defaultOptimizationSettings bent3
                  (Finite 2) Htol Hlen)).
Defined.

Lemma arr_get_lookup {A} `{Inhabited A} (a : list A) i :
  0 ≤ i < Z.of_nat (length a) → a !! Z.to_nat i = Some (arr_get a i).
Proof. intros Hi. apply list_lookup_lookup_total_lt. lia. Qed.
















(** ** Contour smoothing *)

(** A loop that appends one element per step collects them in order. *)
Lemma for_range_collect {A} lo hi (body : Z → list A → list A) (g : Z → A) l0 :
  (∀ i acc, lo ≤ i < hi → body i acc = acc ++ [g i]) →
  for_range lo hi body l0 = l0 ++ (g <$> seqZ lo (hi - lo)).
Proof.
  intros Hbody. destruct (decide (lo ≤ hi)) as [Hle|]; cycle 1.
  { rewrite for_range_nil, seqZ_nil by lia. by rewrite app_nil_r. }
  apply (for_range_inv (λ k acc, acc = l0 ++ (g <$> seqZ lo (k - lo))));
    [done| |].
  - rewrite seqZ_nil by lia. by rewrite app_nil_r.
  - intros i acc Hi ->. rewrite Hbody by done.
    replace (i + 1 - lo) with ((i - lo) + 1) by lia.
    rewrite seqZ_app by lia. rewrite fmap_app, app_assoc.
    do 2 f_equal. change (seqZ (lo + (i - lo)) 1) with [0 + (lo + (i - lo))].
    cbn. do 2 f_equal. lia.
Qed.

Lemma Rsum_snoc l (x : R) : Rsum (l ++ [x]) = (Rsum l + x)%R.
Proof.
  unfold Rsum. induction l as [|y l IH]; cbn; [lra|]. rewrite IH. lra.
Qed.

Lemma js_rem_window i j n :
  0 ≤ i → 0 < n → - n ≤ j → js_rem (i + j + n) n = (i + j) `mod` n.
Proof.
  intros Hi Hn Hj. unfold js_rem. rewrite Z.rem_mod_nonneg by lia.
  replace (i + j + n) with (i + j + 1 * n) by lia. apply Z_mod_plus_full.
Qed.

Lemma window_loop contour i w :
  let n := Z.of_nat (length contour) in
  0 ≤ w < n → 0 ≤ i →
  for_range (- w) (w + 1) (λ j '(sumX, sumY, count),
    let idx := js_rem (i + j + n) n in
    ((sumX + px (arr_get contour idx))%R,
     (sumY + py (arr_get contour idx))%R,
     count + 1))
    (0%R, 0%R, 0)
  = (Rsum ((λ k, px (arr_get contour (k `mod` n))) <$> seqZ (i - w) (2 * w + 1)),
     Rsum ((λ k, py (arr_get contour (k `mod` n))) <$> seqZ (i - w) (2 * w + 1)),
     2 * w + 1).
Proof.
  intros n Hw Hi.
  replace (2 * w + 1) with (w + 1 - - w) by lia.
  apply (for_range_inv (λ k acc, acc =
    (Rsum ((λ k, px (arr_get contour (k `mod` n))) <$> seqZ (i - w) (k - - w)),
     Rsum ((λ k, py (arr_get contour (k `mod` n))) <$> seqZ (i - w) (k - - w)),
     k - - w))); [lia| |].
  - rewrite seqZ_nil by lia. cbn. do 2 f_equal. lia.
  - intros j acc Hj ->. cbv zeta.
    rewrite js_rem_window by lia.
    replace (j + 1 - - w) with ((j - - w) + 1) by lia.
    rewrite seqZ_app by lia. rewrite !fmap_app.
    change (seqZ (i - w + (j - - w)) 1) with [0 + (i - w + (j - - w))].
    cbn [fmap list_fmap]. rewrite !Rsum_snoc.
    replace (0 + (i - w + (j - - w))) with (i + j) by lia. done.
Qed.


Lemma pixel_points_parabola10 : pixel_points parabola10.
Proof.
  exists ((λ k, mkPoint k (k * k)) <$> seqZ 0 10). split; [reflexivity|].
  apply Forall_fmap, Forall_forall. intros k Hk%elem_of_seqZ. cbn.
  split; apply Z.abs_le; nia.
Qed.

(** ** Extractor *)

Lemma length_smoothContour contour :
  length (smoothContour contour) = length contour.
Proof.
  unfold smoothContour. case_decide; [done|].
  set (n := Z.of_nat (length contour)).
  assert (Z.of_nat (length (for_range 0 n (λ i smoothed,
    let '(sumX, sumY, count) :=
      for_range (- Z.min 5 (n / 10)) (Z.min 5 (n / 10) + 1)
        (λ j '(sumX, sumY, count),
          let idx := js_rem (i + j + n) n in
          ((sumX + px (arr_get contour idx))%R,
           (sumY + py (arr_get contour idx))%R,
           count + 1))
        (0%R, 0%R, 0) in
    smoothed ++ [mkPoint (sumX / IZR count)%R (sumY / IZR count)%R]) []))
    = n) as Hn; [|apply Nat2Z.inj; exact Hn].
  apply (for_range_inv (λ k acc, Z.of_nat (length acc) = k)); [lia|done|].
  intros i acc Hi Hacc. destruct (for_range _ _ _ _) as [[sx sy] c].
  rewrite length_app. cbn. lia.
Qed.

Lemma simplifyPath_total fuel s points :
  (0 <= simplifyTolerance s)%R → (length points ≤ fuel)%nat →
  is_Some (simplifyPath fuel s points).
Proof.
  intros Htol Hfuel. unfold simplifyPath. case_decide; [done|].
  destruct (douglasPeucker_length (Finite (simplifyTolerance s)) fuel points)
    as (r & -> & _); done.
Qed.

Lemma createSVGPath_segment a b :
  ∃ p, createSVGPath [a; b] = Some p ∧
       path_pathData p = [MoveTo (px a) (py a); LineTo (px b) (py b)] ∧
       keepPath (Some p) = false.
Proof.
  eexists. unfold createSVGPath. rewrite decide_False by (cbn; lia).
  split; [done|]. split; [|done]. cbn [path_pathData].
  unfold generateSmoothPathData. rewrite decide_False by (cbn; lia).
  by rewrite decide_True by done.
Qed.

(** C9. Every path that the extractor returns has at least three points:
    the curve builder makes a straight segment of exactly two points, but
    the filter of the extractor drops every path of fewer than three.  With
    fuel for nine steps per admissible contour point the extractor
    returns. *)
Theorem extractVectorPaths_min_points fuel s img :
  wf_image img → (0 <= simplifyTolerance s)%R →
  9 * Z.max 0 (maxPoints s) + 2 ≤ Z.of_nat fuel →
  (∃ paths,
     extractVectorPaths fuel s img = Some paths ∧
     Forall (λ path, ∃ p, path = Some p ∧ (3 ≤ length (path_points p))%nat)
       paths) ∧
  (∀ a b, ∃ p,
     createSVGPath [a; b] = Some p ∧
     path_pathData p = [MoveTo (px a) (py a); LineTo (px b) (py b)] ∧
     keepPath (Some p) = false).
Proof.
  intros (Hw & Hh & _) Htol Hfuel. split; [|apply createSVGPath_segment].
  unfold extractVectorPaths.
  destruct (findContours_total s
              (createBinaryMap (data img) (width img) (height img))
              (width img) (height img) fuel Hfuel) as [contours Hrun].
  rewrite Hrun. cbn [mbind option_bind].
  apply findContours_inv in Hrun as [_ Hcap]; [|done..].
  destruct (mapM_is_Some_2
    (λ contour,
       simplifiedPath ← simplifyPath fuel s (smoothContour (to_real <$> contour));
       Some (createSVGPath simplifiedPath)) contours) as [paths Hpaths].
  { eapply Forall_impl; [exact Hcap|]. intros c Hc. cbn.
    destruct (simplifyPath_total fuel s (smoothContour (to_real <$> c)) Htol)
      as [r ->]; [|done].
    rewrite length_smoothContour, length_fmap. cbv beta in Hc. lia. }
  rewrite Hpaths. cbn. eexists. split; [done|].
  apply Forall_forall. intros path [Hkeep _]%list_elem_of_filter.
  destruct path as [p|]; [|done]. exists p. split; [done|].
  cbn in Hkeep. by apply bool_decide_eq_true in Hkeep.
Qed.

Lemma extractVectorPaths_min_points_witness :
  wf_image white_hole ∧
  (0 <= simplifyTolerance defaultOptimizationSettings)%R ∧
  9 * Z.max 0 (maxPoints defaultOptimizationSettings) + 2
    ≤ Z.of_nat (Z.to_nat 9002) ∧
  ∃ paths,
    extractVectorPaths (Z.to_nat 9002) defaultOptimizationSettings white_hole
      = Some paths ∧
    Forall (λ path, ∃ p, path = Some p ∧ (3 ≤ length (path_points p))%nat)
      paths.
Proof.
  assert (0 <= simplifyTolerance defaultOptimizationSettings)%R as Htol
    by (cbn; lra).
  assert (9 * Z.max 0 (maxPoints defaultOptimizationSettings) + 2
            ≤ Z.of_nat (Z.to_nat 9002)) as Hfuel by (by vm_compute).
  split; [exact wf_white_hole|]. split; [exact Htol|]. split; [exact Hfuel|].
  exact (proj1 (extractVectorPaths_min_points (Z.to_nat 9002)
                  defaultOptimizationSettings white_hole
                  wf_white_hole Htol Hfuel)).
Defined.

(** ** Batch processing *)

Section BatchProperties.
Variable getImageData : ImageData → Z → Z → ImageData.
Variable pipeline : ImageData → ImageData.

Abbreviation single := (processSingleImage getImageData pipeline).
Abbreviation loop := (processLoop getImageData pipeline).

Lemma processLoop_fail files : ∀ i results k file error,
  files !! k = Some file →
  single file (i + k) = inl error →
  (∀ j file', (j < k)%nat → files !! j = Some file' →
     ∃ r, single file' (i + j) = inr r) →
  loop files i results = inl error.
Proof.
  induction files as [|f files IH]; intros i results k file error Hk He Hok;
    [done|].
  destruct k as [|k]; cbn [processLoop].
  - injection Hk as ->. rewrite Nat.add_0_r in He. by rewrite He.
  - destruct (Hok 0%nat f) as [r Hr]; [lia|done|].
    rewrite Nat.add_0_r in Hr. rewrite Hr.
    apply (IH (S i) _ k file); [done| |].
    + by replace (S i + k)%nat with (i + S k)%nat by lia.
    + intros j file' Hj Hf.
      replace (S i + j)%nat with (i + S j)%nat by lia.
      apply Hok; [lia|done].
Qed.

Lemma processLoop_ok files : ∀ i results,
  (∀ k file, files !! k = Some file → ∃ r, single file (i + k) = inr r) →
  ∃ rs, loop files i results = inr (results ++ rs) ∧
        length rs = length files ∧
        ∀ k file r, files !! k = Some file →
          single file (i + k) = inr r → rs !! k = Some r.
Proof.
  induction files as [|f files IH]; intros i results Hok.
  { exists []. rewrite app_nil_r. split_and!; [done..|]. by intros []. }
  cbn [processLoop]. destruct (Hok 0%nat f) as [r Hr]; [done|].
  rewrite Nat.add_0_r in Hr. rewrite Hr.
  destruct (IH (S i) (results ++ [r])) as (rs & -> & Hlen & Hrs).
  { intros k file Hk. replace (S i + k)%nat with (i + S k)%nat by lia.
    by apply Hok. }
  exists (r :: rs). split_and!.
  - by rewrite <- app_assoc.
  - cbn. lia.
  - intros [|k] file r' Hk Hr'; cbn in *.
    + injection Hk as <-. rewrite Nat.add_0_r in Hr'. congruence.
    + apply (Hrs k file); [done|].
      rewrite <- Hr'. f_equal. lia.
Qed.

Lemma setupCanvas_empty w h :
  0 ≤ w → 0 ≤ h → w = 0 ∨ h = 0 →
  (setupCanvas w h).1 = 0 ∨ (setupCanvas w h).2 = 0.
Proof.
  intros Hw Hh Hz. unfold setupCanvas, round_div. cbv zeta.
  repeat case_decide; cbn [fst snd]; try lia.
  - right. destruct Hz as [->| ->]; [lia|].
    rewrite Z.mul_0_r, Z.add_0_l. apply Z.div_small. lia.
  - left. destruct Hz as [->| ->]; [|lia].
    rewrite Z.mul_0_r, Z.add_0_l. apply Z.div_small. lia.
Qed.

Lemma processSingleImage_empty file img i :
  file_content file = Bitmap img →
  0 ≤ width img → 0 ≤ height img → width img = 0 ∨ height img = 0 →
  single file i = inl IndexSizeError.
Proof.
  intros Hb Hw Hh Hz. unfold processSingleImage. rewrite Hb.
  pose proof (setupCanvas_empty _ _ Hw Hh Hz) as Hc.
  destruct (setupCanvas _ _) as [cw ch]. cbn [fst snd] in Hc.
  by rewrite decide_True.
Qed.
End BatchProperties.

(** C1 (as amended). The failure of one image aborts the batch: an image
    without pixels makes [processSingleImage] reject, and when an image of
    the batch rejects after all images before it have resolved,
    [processImages] reports that error and raises it, returns no result
    set and leaves the stored results as they were.  When every image
    resolves, the call stores and returns one result per image, in
    order. *)
Theorem processImages_fail_fast getImageData pipeline st files :
  let run := processImages getImageData pipeline st files in
  (∀ file img i,
     file_content file = Bitmap img →
     0 ≤ width img → 0 ≤ height img → width img = 0 ∨ height img = 0 →
     processSingleImage getImageData pipeline file i = inl IndexSizeError) ∧
  (∀ k file error,
     files !! k = Some file →
     processSingleImage getImageData pipeline file k = inl error →
     (∀ j file', (j < k)%nat → files !! j = Some file' →
        ∃ r, processSingleImage getImageData pipeline file' j = inr r) →
     run = (mkAppState (processedImages st) (alerts st ++ [error]),
            inl error)) ∧
  ((∀ k file, files !! k = Some file →
      ∃ r, processSingleImage getImageData pipeline file k = inr r) →
   ∃ results,
     run = (mkAppState results (alerts st), inr results) ∧
     length results = length files ∧
     ∀ k file r, files !! k = Some file →
       processSingleImage getImageData pipeline file k = inr r →
       results !! k = Some r).
Proof.
  intros run. split_and!.
  - apply processSingleImage_empty.
  - intros k file error Hk He Hok. subst run. unfold processImages.
    by rewrite (processLoop_fail getImageData pipeline files 0 [] k file error).
  - intros Hok. subst run. unfold processImages.
    destruct (processLoop_ok getImageData pipeline files 0 [] Hok)
      as (rs & -> & Hlen & Hrs).
    exists rs. by split_and!.
Qed.

Lemma processImages_fail_fast_witness :
  processImages (λ img _ _, img) (λ img, img) (mkAppState [] []) batch3
    = (mkAppState [] [IndexSizeError], inl IndexSizeError).
Proof.
  apply (proj1 (proj2 (processImages_fail_fast (λ img _ _, img) (λ img, img)
                         (mkAppState [] []) batch3))
           1%nat (mkImageFile "b.png" 0 (Bitmap (mkImageData 0 0 []))));
    [done|done|].
  intros j file' Hj Hfile. assert (j = 0%nat) as -> by lia.
  injection Hfile as <-. by eexists.
Defined.

(** C1 (as stated) fails: on a batch of three images whose second image
    has no pixels the call does not return the two other results, it
    raises. *)
Lemma processImages_batch_counterexample : ¬ returns_results batch3 2.
Proof.
  intros Hclaim.
  destruct (Hclaim (λ img _ _, img) (λ img, img) (mkAppState [] []))
    as (results & Hrun & _).
  by vm_compute in Hrun.
Qed.


(** * The other stages of the pipeline *)

(** ** A loop that rewrites one pixel per step *)

Lemma u8_ext (a b : list Z) :
  length a = length b →
  (∀ j, 0 ≤ j < Z.of_nat (length a) → u8_get a j = u8_get b j) →
  a = b.
Proof.
  intros Hlen Hget. apply list_eq_same_length with (length a); [done..|].
  intros i x y Hi Hx Hy. specialize (Hget (Z.of_nat i)).
  unfold u8_get in Hget. rewrite !decide_True, Nat2Z.id in Hget by lia.
  rewrite Hx, Hy in Hget. injection Hget; [done|lia].
Qed.

Lemma round_div_id g : round_div (1000 * g) 1000 = g.
Proof.
  unfold round_div.
  replace (2 * (1000 * g) + 1000) with (1000 + g * (2 * 1000)) by lia.
  rewrite Z.div_add by lia. done.
Qed.

Lemma round_div_luma_range r g b :
  0 ≤ r ≤ 255 → 0 ≤ g ≤ 255 → 0 ≤ b ≤ 255 →
  0 ≤ round_div (299 * r + 587 * g + 114 * b) 1000 ≤ 255.
Proof.
  intros Hr Hg Hb. unfold round_div. split.
  - apply Z.div_pos; lia.
  - apply Z.lt_succ_r, Z.div_lt_upper_bound; lia.
Qed.

Lemma to_u8_clamp_id v : 0 ≤ v ≤ 255 → to_u8_clamp (Some v) = v.
Proof. cbn. lia. Qed.

Lemma u8_read_range d j :
  Forall (λ v, 0 ≤ v ≤ 255) d → 0 ≤ default 0 (u8_get d j) ≤ 255.
Proof.
  intros Hall. unfold u8_get. case_decide; [|cbn; lia].
  destruct (d !! _) as [v|] eqn:Hv; [|cbn; lia].
  cbn. exact (Forall_lookup_1 _ _ _ _ Hall Hv).
Qed.

Lemma wf_image_whole img :
  wf_image img →
  Z.of_nat (length (data img)) = 4 * (width img * height img) ∧
  0 ≤ width img * height img.
Proof. intros (Hw & Hh & Hlen & _). rewrite Hlen. nia. Qed.

Lemma pixel_in_image w h x y :
  0 ≤ x < w → 0 ≤ y < h → 0 ≤ y * w + x < w * h.
Proof. intros Hx Hy. pose proof (pixel_index_bound w h x y 0). lia. Qed.

Section PixelMap.
Variable step : Z → list Z → list Z.
Variable F : Z → option Z → option Z → option Z → option Z → Z.

Hypothesis step_length : ∀ i d, length (step i d) = length d.
Hypothesis step_local : ∀ k c d,
  0 ≤ k → 0 ≤ c < 4 → 4 * k + c < Z.of_nat (length d) →
  u8_get (step (4 * k) d) (4 * k + c)
    = Some (F c (u8_get d (4 * k)) (u8_get d (4 * k + 1))
                (u8_get d (4 * k + 2)) (u8_get d (4 * k + 3))).
Hypothesis step_frame : ∀ k d j,
  (∀ c, 0 ≤ c < 4 → j ≠ 4 * k + c) →
  u8_get (step (4 * k) d) j = u8_get d j.

Lemma for_by4_spec d0 :
  let d' := for_by4 (Z.of_nat (length d0)) step d0 in
  length d' = length d0 ∧
  ∀ k c, 0 ≤ k → 0 ≤ c < 4 → 4 * k + c < Z.of_nat (length d0) →
    u8_get d' (4 * k + c)
      = Some (F c (u8_get d0 (4 * k)) (u8_get d0 (4 * k + 1))
                  (u8_get d0 (4 * k + 2)) (u8_get d0 (4 * k + 3))).
Proof.
  cbv zeta. unfold for_by4. set (n := Z.of_nat (length d0)).
  assert (0 ≤ (n + 3) / 4) as Hn by (apply Z.div_pos; lia).
  pose proof (for_range_inv (λ k d,
    length d = length d0 ∧
    (∀ k' c, 0 ≤ k' < k → 0 ≤ c < 4 → 4 * k' + c < n →
       u8_get d (4 * k' + c)
         = Some (F c (u8_get d0 (4 * k')) (u8_get d0 (4 * k' + 1))
                     (u8_get d0 (4 * k' + 2)) (u8_get d0 (4 * k' + 3)))) ∧
    (∀ j, 4 * k ≤ j → u8_get d j = u8_get d0 j))
    0 ((n + 3) / 4) (λ k s, step (4 * k) s) d0 Hn) as Hinv.
  destruct Hinv as (Hlen & Hnew & _).
  - split_and!; [done| |done]. intros; lia.
  - intros k d Hk (Hlen & Hnew & Hold). split_and!.
    + by rewrite step_length.
    + intros k' c Hk' Hc Hb. destruct (decide (k' = k)) as [->|Hne].
      * rewrite step_local by (rewrite ?Hlen; fold n; lia).
        by rewrite !Hold by lia.
      * rewrite step_frame by (intros; lia). apply Hnew; [lia|done..].
    + intros j Hj. rewrite step_frame by (intros; lia). apply Hold. lia.
  - split; [done|]. intros k c Hk Hc Hb. apply Hnew; [|done..].
    split; [done|].
    assert (k + 1 ≤ (n + 3) / 4) by (apply Z.div_le_lower_bound; lia). lia.
Qed.

(** On a buffer of whole pixels every read of the loop is a number. *)
Lemma for_by4_whole d0 m k c :
  Z.of_nat (length d0) = 4 * m → 0 ≤ k < m → 0 ≤ c < 4 →
  u8_get (for_by4 (Z.of_nat (length d0)) step d0) (4 * k + c)
    = Some (F c (Some (default 0 (u8_get d0 (4 * k))))
                (Some (default 0 (u8_get d0 (4 * k + 1))))
                (Some (default 0 (u8_get d0 (4 * k + 2))))
                (Some (default 0 (u8_get d0 (4 * k + 3))))).
Proof.
  intros Hm Hk Hc. destruct (for_by4_spec d0) as [_ Hnew].
  rewrite Hnew by lia.
  assert (∀ c', 0 ≤ c' < 4 →
            u8_get d0 (4 * k + c') = Some (default 0 (u8_get d0 (4 * k + c'))))
    as Hread.
  { intros c' Hc'. destruct (u8_get_lt d0 (4 * k + c')) as [v ->]; [lia..|done]. }
  pose proof (Hread 0) as Hred. rewrite Z.add_0_r in Hred.
  by rewrite <- Hred, <- !Hread by lia.
Qed.

(** A pixel function that fixes its own results makes the loop
    idempotent. *)
Lemma for_by4_idem d0 m :
  Z.of_nat (length d0) = 4 * m →
  (∀ c r g b a, 0 ≤ c < 4 →
     F c (Some (F 0 r g b a)) (Some (F 1 r g b a))
         (Some (F 2 r g b a)) (Some (F 3 r g b a)) = F c r g b a) →
  let d1 := for_by4 (Z.of_nat (length d0)) step d0 in
  for_by4 (Z.of_nat (length d1)) step d1 = d1.
Proof.
  intros Hm Hfix d1.
  assert (length d1 = length d0) as Hlen by apply for_by4_spec.
  assert (length (for_by4 (Z.of_nat (length d1)) step d1) = length d1)
    as Hlen1 by apply for_by4_spec.
  apply u8_ext; [done|].
  intros j Hj. rewrite Hlen1, Hlen in Hj.
  assert (j = 4 * (j / 4) + j `mod` 4) as Hdec by (apply Z.div_mod; lia).
  pose proof (Z.mod_pos_bound j 4) as Hmod.
  assert (0 ≤ j / 4) by (apply Z.div_pos; lia).
  assert (j / 4 < m) by (apply Z.div_lt_upper_bound; lia).
  rewrite Hdec.
  rewrite (for_by4_whole d1 m) by (rewrite ?Hlen; lia).
  subst d1.
  rewrite !(for_by4_whole d0 m) by lia.
  pose proof (for_by4_whole d0 m (j / 4) 0) as Hred.
  rewrite Z.add_0_r in Hred. rewrite Hred by lia.
  cbn [from_option]. unfold Datatypes.id. by rewrite Hfix by lia.
Qed.
(** The loop as a stage of the pipeline, pixel by pixel. *)
Lemma for_by4_pixel img x y c :
  wf_image img →
  0 ≤ x < width img → 0 ≤ y < height img → 0 ≤ c < 4 →
  channel (mkImageData (width img) (height img)
             (for_by4 (Z.of_nat (length (data img))) step (data img))) x y c
    = Some (F c (Some (chan img x y 0)) (Some (chan img x y 1))
                (Some (chan img x y 2)) (Some (chan img x y 3))).
Proof.
  intros Hwf Hx Hy Hc. destruct (wf_image_whole img Hwf) as [Hm _].
  pose proof (pixel_in_image _ _ _ _ Hx Hy) as Hk.
  unfold channel, chan, channel. cbn [width height data].
  replace ((y * width img + x) * 4 + c) with (4 * (y * width img + x) + c)
    by lia.
  rewrite (for_by4_whole _ _ _ _ Hm Hk Hc).
  by replace ((y * width img + x) * 4 + 0) with (4 * (y * width img + x))
    by lia;
  replace ((y * width img + x) * 4 + 1) with (4 * (y * width img + x) + 1)
    by lia;
  replace ((y * width img + x) * 4 + 2) with (4 * (y * width img + x) + 2)
    by lia;
  replace ((y * width img + x) * 4 + 3) with (4 * (y * width img + x) + 3)
    by lia.
Qed.

Lemma for_by4_wf img :
  wf_image img →
  (∀ c r g b a, 0 ≤ c < 4 →
     0 ≤ r ≤ 255 → 0 ≤ g ≤ 255 → 0 ≤ b ≤ 255 → 0 ≤ a ≤ 255 →
     0 ≤ F c (Some r) (Some g) (Some b) (Some a) ≤ 255) →
  wf_image (mkImageData (width img) (height img)
              (for_by4 (Z.of_nat (length (data img))) step (data img))).
Proof.
  intros Hwf HF. destruct (wf_image_whole img Hwf) as [Hm Hpos].
  destruct Hwf as (Hw & Hh & Hlen & Hall).
  destruct (for_by4_spec (data img)) as [Hlen' _].
  split_and!; cbn [width height data]; [done|done|by rewrite Hlen'|].
  apply Forall_lookup_2. intros n v Hv.
  assert (Z.of_nat n < Z.of_nat (length (data img))) as Hn.
  { apply lookup_lt_Some in Hv. rewrite Hlen' in Hv. lia. }
  set (j := Z.of_nat n) in *.
  assert (j = 4 * (j / 4) + j `mod` 4) as Hdec by (apply Z.div_mod; lia).
  pose proof (Z.mod_pos_bound j 4) as Hmod.
  assert (0 ≤ j / 4) by (apply Z.div_pos; lia).
  assert (j / 4 < width img * height img)
    by (apply Z.div_lt_upper_bound; lia).
  pose proof (for_by4_whole (data img) _ (j / 4) (j `mod` 4) Hm) as Hread.
  rewrite <- Hdec in Hread. unfold u8_get at 1 in Hread.
  rewrite decide_True in Hread by lia. subst j.
  rewrite Nat2Z.id, Hv in Hread.
  injection Hread as ->; [|lia..].
  apply HF; [lia|by apply u8_read_range..].
Qed.

(** A pixel function that fixes its own results makes the stage
    idempotent. *)
Lemma for_by4_stage_idem img :
  wf_image img →
  (∀ c r g b a, 0 ≤ c < 4 →
     F c (Some (F 0 r g b a)) (Some (F 1 r g b a))
         (Some (F 2 r g b a)) (Some (F 3 r g b a)) = F c r g b a) →
  let d1 := for_by4 (Z.of_nat (length (data img))) step (data img) in
  for_by4 (Z.of_nat (length d1)) step d1 = d1.
Proof.
  intros Hwf Hfix. destruct (wf_image_whole img Hwf) as [Hm _].
  by apply (for_by4_idem _ _ Hm).
Qed.
End PixelMap.

(** ** Grey conversion and final cleanup *)

Lemma grey_step_length i d : length (grey_step i d) = length d.
Proof. unfold grey_step. by rewrite !length_u8_set. Qed.

Lemma grey_step_local k c d :
  0 ≤ k → 0 ≤ c < 4 → 4 * k + c < Z.of_nat (length d) →
  u8_get (grey_step (4 * k) d) (4 * k + c)
    = Some (grey_pixel c (u8_get d (4 * k)) (u8_get d (4 * k + 1))
              (u8_get d (4 * k + 2)) (u8_get d (4 * k + 3))).
Proof.
  intros Hk Hc Hb. unfold grey_step, grey_pixel. cbv zeta.
  assert (c = 0 ∨ c = 1 ∨ c = 2 ∨ c = 3) as Hcs by lia.
  destruct Hcs as [-> | [-> | [-> | ->]]]; rewrite ?Z.add_0_r in *;
    u8_stores; case_decide; try lia; try done.
  destruct (u8_get_lt d (4 * k + 3)) as [v ->]; [lia..|done].
Qed.

Lemma grey_step_frame k d j :
  (∀ c, 0 ≤ c < 4 → j ≠ 4 * k + c) →
  u8_get (grey_step (4 * k) d) j = u8_get d j.
Proof.
  intros Hj. unfold grey_step. cbv zeta.
  pose proof (Hj 0). pose proof (Hj 1). pose proof (Hj 2).
  by u8_stores.
Qed.

Lemma grey_pixel_fix c r g b a :
  0 ≤ c < 4 →
  grey_pixel c (Some (grey_pixel 0 r g b a)) (Some (grey_pixel 1 r g b a))
    (Some (grey_pixel 2 r g b a)) (Some (grey_pixel 3 r g b a))
  = grey_pixel c r g b a.
Proof.
  intros Hc. unfold grey_pixel.
  rewrite (decide_False (P := 0 = 3)), (decide_False (P := 1 = 3)),
    (decide_False (P := 2 = 3)), (decide_True (P := 3 = 3)) by lia.
  case_decide; [done|].
  pose proof (to_u8_clamp_range (js_luma r g b)) as Hrange.
  set (l := to_u8_clamp (js_luma r g b)) in *. cbn.
  replace (299 * l + 587 * l + 114 * l) with (1000 * l) by lia.
  rewrite round_div_id. lia.
Qed.

Lemma cleanup_step_length i d : length (cleanup_step i d) = length d.
Proof. unfold cleanup_step. by rewrite !length_u8_set. Qed.

Lemma cleanup_step_local k c d :
  0 ≤ k → 0 ≤ c < 4 → 4 * k + c < Z.of_nat (length d) →
  u8_get (cleanup_step (4 * k) d) (4 * k + c)
    = Some (cleanup_pixel c (u8_get d (4 * k)) (u8_get d (4 * k + 1))
              (u8_get d (4 * k + 2)) (u8_get d (4 * k + 3))).
Proof.
  intros Hk Hc Hb. unfold cleanup_step, cleanup_pixel. cbv zeta.
  assert (c = 0 ∨ c = 1 ∨ c = 2 ∨ c = 3) as Hcs by lia.
  destruct Hcs as [-> | [-> | [-> | ->]]]; rewrite ?Z.add_0_r in *;
    u8_stores; case_decide; try lia; try done;
    destruct (u8_get d (4 * k)) as [v|]; try done; by case_bool_decide.
Qed.

Lemma cleanup_step_frame k d j :
  (∀ c, 0 ≤ c < 4 → j ≠ 4 * k + c) →
  u8_get (cleanup_step (4 * k) d) j = u8_get d j.
Proof.
  intros Hj. unfold cleanup_step. cbv zeta.
  pose proof (Hj 0). pose proof (Hj 1). pose proof (Hj 2). pose proof (Hj 3).
  by u8_stores.
Qed.

Lemma cleanup_pixel_fix c r g b a :
  0 ≤ c < 4 →
  cleanup_pixel c (Some (cleanup_pixel 0 r g b a))
    (Some (cleanup_pixel 1 r g b a)) (Some (cleanup_pixel 2 r g b a))
    (Some (cleanup_pixel 3 r g b a))
  = cleanup_pixel c r g b a.
Proof.
  intros Hc. unfold cleanup_pixel.
  rewrite (decide_False (P := 0 = 3)) by lia.
  case_decide; [done|].
  destruct r as [v|]; [|done]. by repeat case_bool_decide.
Qed.

Lemma convertToGrayscale_loop img :
  convertToGrayscale img
  = mkImageData (width img) (height img)
      (for_by4 (Z.of_nat (length (data img))) grey_step (data img)).
Proof. done. Qed.

Lemma finalCleanup_loop img :
  finalCleanup img
  = mkImageData (width img) (height img)
      (for_by4 (Z.of_nat (length (data img))) cleanup_step (data img)).
Proof. done. Qed.

Lemma luma_between r g b :
  Z.min r (Z.min g b) ≤ round_div (299 * r + 587 * g + 114 * b) 1000
    ≤ Z.max r (Z.max g b).
Proof.
  unfold round_div. split.
  - apply Z.div_le_lower_bound; lia.
  - apply Z.lt_succ_r, Z.div_lt_upper_bound; lia.
Qed.

Lemma chan_range img x y c : wf_image img → 0 ≤ chan img x y c ≤ 255.
Proof. intros (_ & _ & _ & Hall). by apply u8_read_range. Qed.

(** X1: in the output of [convertToGrayscale] the three colours of every
    pixel are one and the same value, which lies between the smallest and
    the largest colour the pixel had; the alpha value is the one the pixel
    had. *)
Theorem convertToGrayscale_grey img x y :
  wf_image img → 0 ≤ x < width img → 0 ≤ y < height img →
  ∃ g,
    (∀ c, 0 ≤ c < 3 → channel (convertToGrayscale img) x y c = Some g) ∧
    Z.min (chan img x y 0) (Z.min (chan img x y 1) (chan img x y 2)) ≤ g
      ≤ Z.max (chan img x y 0) (Z.max (chan img x y 1) (chan img x y 2)) ∧
    channel (convertToGrayscale img) x y 3 = channel img x y 3.
Proof.
  intros Hwf Hx Hy. exists (luminance img x y).
  pose proof (chan_range img x y 0 Hwf) as H0.
  pose proof (chan_range img x y 1 Hwf) as H1.
  pose proof (chan_range img x y 2 Hwf) as H2.
  rewrite convertToGrayscale_loop. split_and!.
  - intros c Hc.
    rewrite (for_by4_pixel grey_step grey_pixel grey_step_length
               grey_step_local grey_step_frame) by (done || lia).
    unfold grey_pixel. rewrite decide_False by lia. cbn [js_luma mbind option_bind].
    rewrite to_u8_clamp_id; [done|]. by apply round_div_luma_range.
  - apply luma_between.
  - apply luma_between.
  - rewrite (for_by4_pixel grey_step grey_pixel grey_step_length
               grey_step_local grey_step_frame) by (done || lia).
    unfold grey_pixel. rewrite decide_True by done. cbn [from_option].
    unfold chan, channel.
    destruct Hwf as (Hw & Hh & Hlen & _).
    pose proof (pixel_index_bound (width img) (height img) x y 3 Hx Hy).
    destruct (u8_get_lt (data img) ((y * width img + x) * 4 + 3)) as [v ->];
      [lia..|done].
Qed.

Lemma convertToGrayscale_grey_witness :
  ∃ g,
    (∀ c, 0 ≤ c < 3 → channel (convertToGrayscale colour4) 1 1 c = Some g) ∧
    Z.min (chan colour4 1 1 0) (Z.min (chan colour4 1 1 1) (chan colour4 1 1 2))
      ≤ g
      ≤ Z.max (chan colour4 1 1 0)
          (Z.max (chan colour4 1 1 1) (chan colour4 1 1 2)) ∧
    channel (convertToGrayscale colour4) 1 1 3 = channel colour4 1 1 3.
Proof.
  apply (convertToGrayscale_grey colour4 1 1).
  - split_and!; [done..|]. by repeat constructor.
  - done.
  - done.
Defined.

(** X2: the output of [convertToGrayscale] has the size of the input and
    byte values throughout, and converting it again changes nothing. *)
Theorem convertToGrayscale_idempotent img :
  wf_image img →
  let out := convertToGrayscale img in
  wf_image out ∧ width out = width img ∧ height out = height img ∧
  convertToGrayscale out = out.
Proof.
  intros Hwf out. subst out. split_and!; [|done|done|].
  - rewrite convertToGrayscale_loop.
    apply (for_by4_wf grey_step grey_pixel grey_step_length
             grey_step_local grey_step_frame); [done|].
    intros c r g b a Hc Hr Hg Hb Ha. unfold grey_pixel.
    case_decide; [done|apply to_u8_clamp_range].
  - unfold convertToGrayscale. cbn [width height data]. f_equal.
    apply (for_by4_stage_idem grey_step grey_pixel grey_step_length
             grey_step_local grey_step_frame img Hwf).
    intros. by apply grey_pixel_fix.
Qed.

Lemma wf_colour4 : wf_image colour4.
Proof. split_and!; [done..|]. by repeat constructor. Qed.

Lemma convertToGrayscale_idempotent_witness :
  let out := convertToGrayscale colour4 in
  wf_image out ∧ width out = width colour4 ∧ height out = height colour4 ∧
  convertToGrayscale out = out.
Proof. apply (convertToGrayscale_idempotent colour4). exact wf_colour4. Defined.

(** X3: in the output of [finalCleanup] every pixel is opaque black or
    opaque white: white when its red value was above 127, black
    otherwise. *)
Theorem finalCleanup_binary img x y :
  wf_image img → 0 ≤ x < width img → 0 ≤ y < height img →
  let v := if bool_decide (chan img x y 0 > 127) then 255 else 0 in
  (∀ c, 0 ≤ c < 3 → channel (finalCleanup img) x y c = Some v) ∧
  channel (finalCleanup img) x y 3 = Some 255.
Proof.
  intros Hwf Hx Hy v. rewrite finalCleanup_loop. split.
  - intros c Hc.
    rewrite (for_by4_pixel cleanup_step cleanup_pixel cleanup_step_length
               cleanup_step_local cleanup_step_frame) by (done || lia).
    unfold cleanup_pixel. by rewrite decide_False by lia.
  - by rewrite (for_by4_pixel cleanup_step cleanup_pixel cleanup_step_length
               cleanup_step_local cleanup_step_frame) by (done || lia).
Qed.

Lemma finalCleanup_binary_witness :
  let v := if bool_decide (chan colour4 1 1 0 > 127) then 255 else 0 in
  (∀ c, 0 ≤ c < 3 → channel (finalCleanup colour4) 1 1 c = Some v) ∧
  channel (finalCleanup colour4) 1 1 3 = Some 255.
Proof. apply (finalCleanup_binary colour4 1 1); [exact wf_colour4|done..]. Defined.

(** X4: the output of [finalCleanup] has the size of the input and byte
    values throughout, and cleaning it again changes nothing. *)
Theorem finalCleanup_idempotent img :
  wf_image img →
  let out := finalCleanup img in
  wf_image out ∧ width out = width img ∧ height out = height img ∧
  finalCleanup out = out.
Proof.
  intros Hwf out. subst out. split_and!; [|done|done|].
  - rewrite finalCleanup_loop.
    apply (for_by4_wf cleanup_step cleanup_pixel cleanup_step_length
             cleanup_step_local cleanup_step_frame); [done|].
    intros c r g b a Hc Hr Hg Hb Ha. unfold cleanup_pixel.
    case_decide; [lia|]. case_bool_decide; lia.
  - unfold finalCleanup. cbn [width height data]. f_equal.
    apply (for_by4_stage_idem cleanup_step cleanup_pixel cleanup_step_length
             cleanup_step_local cleanup_step_frame img Hwf).
    intros. by apply cleanup_pixel_fix.
Qed.

Lemma finalCleanup_idempotent_witness :
  let out := finalCleanup colour4 in
  wf_image out ∧ width out = width colour4 ∧ height out = height colour4 ∧
  finalCleanup out = out.
Proof. apply (finalCleanup_idempotent colour4). exact wf_colour4. Defined.

(** ** The binary map *)

Lemma createBinaryMap_rows src w h :
  createBinaryMap src w h
  = (λ y, (λ x, binary_cell src w x y) <$> seqZ 0 w) <$> seqZ 0 h.
Proof.
  unfold createBinaryMap.
  rewrite (for_range_collect 0 h _
             (λ y, (λ x, binary_cell src w x y) <$> seqZ 0 w)).
  - by rewrite Z.sub_0_r.
  - intros y acc _. f_equal. f_equal.
    rewrite (for_range_collect 0 w _ (λ x, binary_cell src w x y)).
    + by rewrite Z.sub_0_r.
    + done.
Qed.

Lemma createBinaryMap_cell src w h x y :
  0 ≤ x < w → 0 ≤ y < h →
  get2 (createBinaryMap src w h) x y = Some (binary_cell src w x y).
Proof.
  intros Hx Hy. rewrite createBinaryMap_rows. unfold get2.
  rewrite decide_True by lia.
  rewrite list_lookup_fmap, (lookup_seqZ_lt 0 h (Z.to_nat y)) by lia.
  cbn [fmap option_fmap option_map mbind option_bind].
  rewrite list_lookup_fmap, (lookup_seqZ_lt 0 w (Z.to_nat x)) by lia.
  cbn. do 2 f_equal; lia.
Qed.

Lemma get2_createBinaryMap_Some src w h x y v :
  get2 (createBinaryMap src w h) x y = Some v →
  (0 ≤ x < w ∧ 0 ≤ y < h) ∧ v = binary_cell src w x y.
Proof.
  rewrite createBinaryMap_rows. unfold get2. case_decide as Hxy; [|done].
  rewrite list_lookup_fmap.
  destruct (seqZ 0 h !! Z.to_nat y) as [y'|] eqn:Hy; [|done].
  apply lookup_seqZ in Hy as [-> Hy].
  cbn [fmap option_fmap option_map mbind option_bind].
  rewrite list_lookup_fmap.
  destruct (seqZ 0 w !! Z.to_nat x) as [x'|] eqn:Hx; [|done].
  apply lookup_seqZ in Hx as [-> Hx]. cbn. intros [= <-].
  split; [lia|]. f_equal; lia.
Qed.

Lemma binary_cell_ink img x y :
  0 ≤ x < width img → 0 ≤ y < height img →
  binary_cell (data img) (width img) x y = 1 ↔ is_ink img x y.
Proof.
  intros Hx Hy. unfold binary_cell, is_ink, red.
  destruct (u8_get _ _) as [v|].
  - case_bool_decide; split; try done.
    + intros _. split; [exact Hx|split; [exact Hy|]]. by exists v.
    + intros (_ & _ & v' & Heq & Hv). injection Heq as ->. lia.
  - split; [done|]. by intros (_ & _ & v' & ? & _).
Qed.

(** X5: the binary map of [createBinaryMap] has a cell exactly for the
    pixels of the image, the cell is 1 exactly for the ink pixels (red
    value below 128), and every other cell is 0. *)
Theorem createBinaryMap_ink img x y :
  let binaryMap := createBinaryMap (data img) (width img) (height img) in
  (is_Some (get2 binaryMap x y) ↔ 0 ≤ x < width img ∧ 0 ≤ y < height img) ∧
  (get2 binaryMap x y = Some 1 ↔ is_ink img x y) ∧
  (∀ v, get2 binaryMap x y = Some v → v = 0 ∨ v = 1).
Proof.
  cbv zeta. split_and!.
  - split.
    + intros [v Hv]. by apply get2_createBinaryMap_Some in Hv as [? _].
    + intros [Hx Hy]. by rewrite createBinaryMap_cell.
  - split.
    + intros Hv. apply get2_createBinaryMap_Some in Hv as [[Hx Hy] Hv].
      by apply binary_cell_ink.
    + intros Hink. pose proof Hink as (Hx & Hy & _).
      rewrite createBinaryMap_cell by done. f_equal.
      by apply binary_cell_ink.
  - intros v Hv. apply get2_createBinaryMap_Some in Hv as [_ ->].
    unfold binary_cell. destruct (u8_get _ _); [case_bool_decide|]; auto.
Qed.

Lemma binary_cell_finalCleanup img x y :
  wf_image img → 0 ≤ x < width img → 0 ≤ y < height img →
  binary_cell (data (finalCleanup img)) (width img) x y
  = binary_cell (data img) (width img) x y.
Proof.
  intros Hwf Hx Hy.
  pose proof (for_by4_pixel cleanup_step cleanup_pixel cleanup_step_length
                cleanup_step_local cleanup_step_frame img x y 0 Hwf Hx Hy)
    as Hout.
  rewrite <- finalCleanup_loop in Hout. unfold channel in Hout.
  rewrite Z.add_0_r in Hout.
  change (width (finalCleanup img)) with (width img) in Hout.
  unfold binary_cell. rewrite Hout by lia.
  unfold cleanup_pixel. rewrite decide_False by lia.
  unfold chan, channel. rewrite Z.add_0_r.
  destruct Hwf as (Hw & Hh & Hlen & _).
  pose proof (pixel_index_bound (width img) (height img) x y 0 Hx Hy).
  destruct (u8_get_lt (data img) ((y * width img + x) * 4)) as [v ->];
    [lia..|].
  cbn [from_option]. unfold Datatypes.id.
  by repeat case_bool_decide; try lia.
Qed.

(** X6: the final cleanup keeps the ink: the binary map of the cleaned
    image is the binary map of the image, so the vector paths extracted
    from either are the same. *)
Theorem finalCleanup_keeps_binaryMap img :
  wf_image img →
  createBinaryMap (data (finalCleanup img)) (width img) (height img)
    = createBinaryMap (data img) (width img) (height img) ∧
  ∀ fuel s,
    extractVectorPaths fuel s (finalCleanup img)
      = extractVectorPaths fuel s img.
Proof.
  intros Hwf.
  assert (createBinaryMap (data (finalCleanup img)) (width img) (height img)
          = createBinaryMap (data img) (width img) (height img)) as Hmap.
  { rewrite !createBinaryMap_rows.
    apply list_fmap_ext. intros i y Hy. apply lookup_seqZ in Hy as [-> Hy].
    apply list_fmap_ext. intros j x Hx. apply lookup_seqZ in Hx as [-> Hx].
    apply binary_cell_finalCleanup; [done|lia..]. }
  split; [done|]. intros fuel s. unfold extractVectorPaths.
  change (width (finalCleanup img)) with (width img).
  change (height (finalCleanup img)) with (height img).
  cbv zeta. by rewrite Hmap.
Qed.

Lemma finalCleanup_keeps_binaryMap_witness :
  createBinaryMap (data (finalCleanup colour4)) (width colour4) (height colour4)
    = createBinaryMap (data colour4) (width colour4) (height colour4) ∧
  ∀ fuel s,
    extractVectorPaths fuel s (finalCleanup colour4)
      = extractVectorPaths fuel s colour4.
Proof. apply (finalCleanup_keeps_binaryMap colour4). exact wf_colour4. Defined.

(** ** Contrast and brightness *)

Lemma round_half_even_floor q :
  Qfloor q ≤ round_half_even q ≤ Qfloor q + 1.
Proof.
  unfold round_half_even. cbv zeta.
  destruct (Qcompare _ _); [destruct (Z.even _)|..]; lia.
Qed.

Lemma round_half_even_mono q q' :
  (q <= q')%Q → round_half_even q ≤ round_half_even q'.
Proof.
  intros Hle. pose proof (Qfloor_resp_le _ _ Hle) as Hf.
  destruct (decide (Qfloor q = Qfloor q')) as [Heq|Hne].
  - unfold round_half_even. cbv zeta. rewrite <- Heq.
    destruct (Qcompare_spec (q - inject_Z (Qfloor q)) (1 # 2)) as [H1|H1|H1];
      destruct (Qcompare_spec (q' - inject_Z (Qfloor q)) (1 # 2)) as [H2|H2|H2];
      try (destruct (Z.even _)); try lia; exfalso; lra.
  - pose proof (round_half_even_floor q). pose proof (round_half_even_floor q').
    lia.
Qed.

Lemma round_half_even_Z q v : (q == inject_Z v)%Q → round_half_even q = v.
Proof.
  intros Hq. unfold round_half_even. cbv zeta.
  rewrite (Qfloor_comp _ _ Hq), Qfloor_Z.
  destruct (Qcompare_spec (q - inject_Z v) (1 # 2)) as [H1|H1|H1];
    [exfalso; lra|done|exfalso; lra].
Qed.

Lemma to_u8_clamp_Q_range v : 0 ≤ to_u8_clamp_Q v ≤ 255.
Proof.
  destruct v as [q|]; cbn; [|lia].
  destruct (Qle_bool q 0) eqn:H0; [lia|].
  destruct (Qle_bool 255 q) eqn:H255; [lia|].
  assert (¬ (q <= 0)%Q) as Hpos by (rewrite <- Qle_bool_iff; congruence).
  assert (¬ (255 <= q)%Q) as Hlt by (rewrite <- Qle_bool_iff; congruence).
  pose proof (round_half_even_floor q) as Hr.
  assert (0 ≤ Qfloor q).
  { change 0 with (Qfloor (inject_Z 0)). apply Qfloor_resp_le.
    change (inject_Z 0) with 0%Q. lra. }
  assert (Qfloor q ≤ 254).
  { apply Z.lt_succ_r. rewrite Zlt_Qlt.
    apply Qle_lt_trans with q; [apply Qfloor_le|].
    change (inject_Z (Z.succ 254)) with 255%Q. lra. }
  lia.
Qed.

Lemma to_u8_clamp_Q_mono q q' :
  (q <= q')%Q → to_u8_clamp_Q (Some q) ≤ to_u8_clamp_Q (Some q').
Proof.
  intros Hle.
  pose proof (to_u8_clamp_Q_range (Some q)) as Hr.
  pose proof (to_u8_clamp_Q_range (Some q')) as Hr'.
  unfold to_u8_clamp_Q in *.
  destruct (Qle_bool q 0) eqn:H0; [lia|].
  assert (¬ (q <= 0)%Q) as Hpos by (rewrite <- Qle_bool_iff; congruence).
  destruct (Qle_bool q' 0) eqn:H0'.
  { apply Qle_bool_iff in H0'. exfalso. lra. }
  destruct (Qle_bool 255 q') eqn:H255'; [destruct (Qle_bool 255 q); lia|].
  assert (¬ (255 <= q')%Q) as Hlt by (rewrite <- Qle_bool_iff; congruence).
  destruct (Qle_bool 255 q) eqn:H255.
  { apply Qle_bool_iff in H255. exfalso. lra. }
  by apply round_half_even_mono.
Qed.

Lemma to_u8_clamp_Q_Z q v :
  (q == inject_Z v)%Q → 0 ≤ v ≤ 255 → to_u8_clamp_Q (Some q) = v.
Proof.
  intros Hq Hv. cbn.
  destruct (Qle_bool q 0) eqn:H0.
  { apply Qle_bool_iff in H0. rewrite Hq in H0.
    change 0%Q with (inject_Z 0) in H0. rewrite <- Zle_Qle in H0. lia. }
  destruct (Qle_bool 255 q) eqn:H255.
  { apply Qle_bool_iff in H255. rewrite Hq in H255.
    change 255%Q with (inject_Z 255) in H255.
    rewrite <- Zle_Qle in H255. lia. }
  by apply round_half_even_Z.
Qed.

Lemma length_u8_set_Q i v d : length (u8_set_Q i v d) = length d.
Proof. unfold u8_set_Q. case_decide; [apply length_insert | done]. Qed.

Lemma u8_get_set_Q_eq i v d :
  0 ≤ i → (Z.to_nat i < length d)%nat →
  u8_get (u8_set_Q i v d) i = Some (to_u8_clamp_Q v).
Proof.
  intros H0 Hl. unfold u8_get, u8_set_Q. rewrite !decide_True by done.
  by apply list_lookup_insert_eq.
Qed.

Lemma u8_get_set_Q_ne i j v d :
  i ≠ j → u8_get (u8_set_Q i v d) j = u8_get d j.
Proof.
  intros Hne. unfold u8_get, u8_set_Q.
  destruct (decide (0 ≤ j)); [|done]. destruct (decide (0 ≤ i)); [|done].
  apply list_lookup_insert_ne. lia.
Qed.

Ltac u8_stores_Q :=
  repeat first
    [ rewrite u8_get_set_Q_eq by (rewrite ?length_u8_set_Q; lia)
    | rewrite u8_get_set_Q_ne by lia ].

Ltac contrast_unroll :=
  unfold contrast_step, for_range;
  change (seqZ 0 (3 - 0)) with [0; 1; 2]; cbn [foldl]; cbv beta zeta.

Lemma contrast_step_length t i d : length (contrast_step t i d) = length d.
Proof. contrast_unroll. by rewrite !length_u8_set_Q. Qed.

Lemma contrast_step_frame t k d j :
  (∀ c, 0 ≤ c < 4 → j ≠ 4 * k + c) →
  u8_get (contrast_step t (4 * k) d) j = u8_get d j.
Proof.
  intros Hj. contrast_unroll.
  pose proof (Hj 0). pose proof (Hj 1). pose proof (Hj 2).
  by u8_stores_Q.
Qed.

Lemma contrast_step_local t k c d :
  0 ≤ k → 0 ≤ c < 4 → 4 * k + c < Z.of_nat (length d) →
  u8_get (contrast_step t (4 * k) d) (4 * k + c)
    = Some (contrast_pixel t c (u8_get d (4 * k)) (u8_get d (4 * k + 1))
              (u8_get d (4 * k + 2)) (u8_get d (4 * k + 3))).
Proof.
  intros Hk Hc Hb. contrast_unroll.
  unfold contrast_pixel, tone. cbv zeta.
  assert (c = 0 ∨ c = 1 ∨ c = 2 ∨ c = 3) as Hcs by lia.
  destruct Hcs as [-> | [-> | [-> | ->]]];
    repeat (case_decide; try lia); u8_stores_Q; rewrite ?Z.add_0_r; try done.
  destruct (u8_get_lt d (4 * k + 3)) as [v ->]; [lia..|done].
Qed.

Lemma adjustContrastBrightness_loop t img :
  adjustContrastBrightness t img
  = mkImageData (width img) (height img)
      (for_by4 (Z.of_nat (length (data img))) (contrast_step t) (data img)).
Proof. done. Qed.

Lemma tone_range t o : 0 ≤ tone t o ≤ 255.
Proof. apply to_u8_clamp_Q_range. Qed.

Lemma tone_mono t v v' :
  (0 <= contrastBoost t)%Q → v ≤ v' → tone t (Some v) ≤ tone t (Some v').
Proof.
  intros Hc Hv. unfold tone. cbn [fmap option_fmap option_map].
  apply to_u8_clamp_Q_mono, Q.max_le_compat_l, Q.min_le_compat_l.
  apply Qplus_le_compat; [|apply Qle_refl].
  apply Qplus_le_compat; [|apply Qle_refl].
  apply Qmult_le_compat_r; [|done].
  apply Qplus_le_compat; [|apply Qle_refl]. by rewrite <- Zle_Qle.
Qed.

Lemma tone_id t v :
  (contrastBoost t == 1)%Q → brightnessAdjust t = 0 → 0 ≤ v ≤ 255 →
  tone t (Some v) = v.
Proof.
  intros Hc Hb Hv. unfold tone. cbn [fmap option_fmap option_map].
  apply to_u8_clamp_Q_Z; [|done]. rewrite Hc, Hb.
  assert (inject_Z 0 <= inject_Z v)%Q as Hlo by (rewrite <- Zle_Qle; lia).
  assert (inject_Z v <= inject_Z 255)%Q as Hhi by (rewrite <- Zle_Qle; lia).
  change (inject_Z 0) with 0%Q in *. change (inject_Z 255) with 255%Q in Hhi.
  assert ((inject_Z v - 128) * 1 + 128 + 0 == inject_Z v)%Q as -> by ring.
  rewrite Q.min_r by done. by rewrite Q.max_r.
Qed.

(** X7: with a contrast factor of 1 and a brightness of 0,
    [adjustContrastBrightness] returns an image equal to its input. *)
Theorem adjustContrastBrightness_neutral t img :
  (contrastBoost t == 1)%Q → brightnessAdjust t = 0 → wf_image img →
  adjustContrastBrightness t img = img.
Proof.
  intros Hc Hb Hwf. rewrite adjustContrastBrightness_loop.
  destruct (wf_image_whole img Hwf) as [Hm _].
  pose proof Hwf as (_ & _ & _ & Hall).
  destruct img as [w h d]. cbn [width height data] in *. f_equal.
  destruct (for_by4_spec (contrast_step t) (contrast_pixel t)
              (contrast_step_length t) (contrast_step_local t)
              (contrast_step_frame t) d) as [Hlen _].
  apply u8_ext; [done|]. intros j Hj. rewrite Hlen in Hj.
  assert (j = 4 * (j / 4) + j `mod` 4) as Hdec by (apply Z.div_mod; lia).
  pose proof (Z.mod_pos_bound j 4) as Hmod.
  assert (0 ≤ j / 4) by (apply Z.div_pos; lia).
  assert (j / 4 < w * h) by (apply Z.div_lt_upper_bound; lia).
  assert (∀ c, 0 ≤ c < 4 →
            u8_get d (4 * (j / 4) + c)
            = Some (default 0 (u8_get d (4 * (j / 4) + c)))) as Hread.
  { intros c Hc'.
    destruct (u8_get_lt d (4 * (j / 4) + c)) as [v ->]; [lia..|done]. }
  rewrite Hdec.
  rewrite (for_by4_whole (contrast_step t) (contrast_pixel t)
             (contrast_step_length t) (contrast_step_local t)
             (contrast_step_frame t) d (w * h)) by lia.
  rewrite (Hread (j `mod` 4)) by lia. f_equal.
  unfold contrast_pixel.
  assert (j `mod` 4 = 0 ∨ j `mod` 4 = 1 ∨ j `mod` 4 = 2 ∨ j `mod` 4 = 3)
    as Hcs by lia.
  destruct Hcs as [-> | [-> | [-> | ->]]];
    repeat (case_decide; try lia); rewrite ?Z.add_0_r; try done;
    by rewrite tone_id by (done || by apply u8_read_range).
Qed.

Lemma adjustContrastBrightness_neutral_witness :
  adjustContrastBrightness (mkToneSettings 1 0 (15 # 10) 2) colour4 = colour4.
Proof.
  apply (adjustContrastBrightness_neutral (mkToneSettings 1 0 (15 # 10) 2)).
  - reflexivity.
  - reflexivity.
  - exact wf_colour4.
Defined.

(** X8: [adjustContrastBrightness] with a contrast factor that is not
    negative keeps the order of colour values: of two colour values of the
    input, the one that is not larger is not larger in the output.  The
    alpha values are kept, and the output has the size of the input and
    byte values throughout. *)
Theorem adjustContrastBrightness_monotone t img :
  (0 <= contrastBoost t)%Q → wf_image img →
  let out := adjustContrastBrightness t img in
  wf_image out ∧ width out = width img ∧ height out = height img ∧
  (∀ x y, 0 ≤ x < width img → 0 ≤ y < height img →
     channel out x y 3 = channel img x y 3) ∧
  (∀ x y c x' y' c',
     0 ≤ x < width img → 0 ≤ y < height img → 0 ≤ c < 3 →
     0 ≤ x' < width img → 0 ≤ y' < height img → 0 ≤ c' < 3 →
     chan img x y c ≤ chan img x' y' c' →
     chan out x y c ≤ chan out x' y' c').
Proof.
  intros Hc Hwf out. subst out. rewrite adjustContrastBrightness_loop.
  assert (∀ x y c, 0 ≤ x < width img → 0 ≤ y < height img → 0 ≤ c < 3 →
    channel (mkImageData (width img) (height img)
      (for_by4 (Z.of_nat (length (data img))) (contrast_step t) (data img)))
      x y c = Some (tone t (Some (chan img x y c)))) as Hcol.
  { intros x y c Hx Hy Hc'.
    rewrite (for_by4_pixel (contrast_step t) (contrast_pixel t)
               (contrast_step_length t) (contrast_step_local t)
               (contrast_step_frame t)) by (done || lia).
    unfold contrast_pixel.
    assert (c = 0 ∨ c = 1 ∨ c = 2) as [-> | [-> | ->]] by lia;
      by repeat (case_decide; try lia). }
  split_and!; [|done|done| |].
  - apply (for_by4_wf (contrast_step t) (contrast_pixel t)
             (contrast_step_length t) (contrast_step_local t)
             (contrast_step_frame t)); [done|].
    intros c r g b a Hc' Hr Hg Hb Ha. unfold contrast_pixel.
    repeat case_decide; try apply tone_range. done.
  - intros x y Hx Hy.
    rewrite (for_by4_pixel (contrast_step t) (contrast_pixel t)
               (contrast_step_length t) (contrast_step_local t)
               (contrast_step_frame t)) by (done || lia).
    unfold contrast_pixel. repeat (case_decide; try lia).
    cbn [from_option]. unfold chan, channel.
    destruct Hwf as (Hw & Hh & Hlen & _).
    pose proof (pixel_index_bound (width img) (height img) x y 3 Hx Hy).
    destruct (u8_get_lt (data img) ((y * width img + x) * 4 + 3)) as [v ->];
      [lia..|done].
  - intros x y c x' y' c' Hx Hy Hc1 Hx' Hy' Hc2 Hle.
    unfold chan at 1 2. rewrite !Hcol by done. cbn [from_option].
    by apply tone_mono.
Qed.

Lemma adjustContrastBrightness_monotone_witness :
  let out := adjustContrastBrightness defaultToneSettings colour4 in
  wf_image out ∧ width out = width colour4 ∧ height out = height colour4 ∧
  (∀ x y, 0 ≤ x < width colour4 → 0 ≤ y < height colour4 →
     channel out x y 3 = channel colour4 x y 3) ∧
  (∀ x y c x' y' c',
     0 ≤ x < width colour4 → 0 ≤ y < height colour4 → 0 ≤ c < 3 →
     0 ≤ x' < width colour4 → 0 ≤ y' < height colour4 → 0 ≤ c' < 3 →
     chan colour4 x y c ≤ chan colour4 x' y' c' →
     chan out x y c ≤ chan out x' y' c').
Proof.
  apply (adjustContrastBrightness_monotone defaultToneSettings colour4).
  - discriminate.
  - exact wf_colour4.
Defined.

(** ** Morphological clean-up and line weight *)

Lemma wf_dilation s img :
  0 ≤ morphologyRadius s → wf_image img → wf_image (morphologicalDilation s img).
Proof. intros Hr (? & ? & _). by apply morph_stage_wf. Qed.

Lemma intensity_channel img x y v :
  channel img x y 0 = Some v → intensity img x y = v.
Proof. rewrite channel_red. unfold intensity. by intros ->. Qed.

Lemma dilation_above s img x y :
  wf_image img → 0 ≤ morphologyRadius s → morph_interior s img x y →
  intensity img x y ≤ intensity (morphologicalDilation s img) x y.
Proof.
  intros Hwf Hr Hint.
  destruct (morph_stage_data js_max 0 s img Hr) as (_ & Hhit & _).
  destruct (dilation_neighbourhood s img x y Hwf Hr Hint)
    as (m & Hm & Hlb & Hub).
  rewrite morphologicalDilation_stage.
  rewrite (intensity_channel _ x y _ (Hhit x y 0 Hint ltac:(lia))).
  rewrite Hm.
  specialize (Hlb 0 0). rewrite !Z.add_0_r in Hlb.
  pose proof (intensity_range img x y Hwf).
  assert (m ≤ 255).
  { apply Hub; [lia|]. intros kx ky _ _. by apply intensity_range. }
  cbn. lia.
Qed.

Lemma dilation_frame s img x y c :
  0 ≤ morphologyRadius s →
  0 ≤ x < width img → 0 ≤ y < height img → 0 ≤ c < 4 →
  ¬ morph_interior s img x y →
  channel (morphologicalDilation s img) x y c = Some 0.
Proof.
  intros Hr Hx Hy Hc Hout.
  destruct (morph_stage_data js_max 0 s img Hr) as (_ & _ & Hmiss).
  rewrite morphologicalDilation_stage. by apply Hmiss.
Qed.

Lemma opening_below s img x y :
  wf_image img → 0 ≤ morphologyRadius s →
  0 ≤ x < width img → 0 ≤ y < height img →
  intensity (morphologicalDilation s (morphologicalErosion s img)) x y
    ≤ intensity img x y.
Proof.
  intros Hwf Hr Hx Hy. pose proof (intensity_range img x y Hwf) as HB.
  pose proof (wf_erosion s img Hr Hwf) as HwfE.
  destruct (morph_stage_data js_max 0 s (morphologicalErosion s img) Hr)
    as (_ & Hhit & Hmiss).
  rewrite morphologicalDilation_stage.
  destruct (morph_interior_dec s img x y) as [Hint|Hout].
  - rewrite (intensity_channel _ x y _ (Hhit x y 0 Hint ltac:(lia))).
    destruct (dilation_neighbourhood s (morphologicalErosion s img) x y
                HwfE Hr Hint) as (m & -> & _ & Hub).
    specialize (Hub (intensity img x y)). cbn.
    destruct Hint as [Hix Hiy].
    assert (m ≤ intensity img x y); [|lia].
    apply Hub; [lia|]. intros kx ky Hkx Hky.
    apply erosion_le_source; [done..|lia|lia].
  - rewrite (intensity_channel _ x y 0); [lia|].
    apply Hmiss; [done|done|lia|done].
Qed.

Lemma ring_interior s img x y :
  0 ≤ morphologyRadius s → on_border_ring img x y →
  morph_interior s img x y → morphologyRadius s = 0.
Proof. intros Hr (Hx & Hy & Hring) [Hix Hiy]. lia. Qed.

Lemma erosion_ring s img :
  wf_image img → 0 ≤ morphologyRadius s →
  ring_dark img → ring_dark (morphologicalErosion s img).
Proof.
  intros Hwf Hr Hdark x y Hring.
  change (on_border_ring img x y) in Hring.
  pose proof Hring as (Hx & Hy & _).
  destruct (morph_stage_data js_min 255 s img Hr) as (_ & Hhit & Hmiss).
  rewrite morphologicalErosion_stage.
  destruct (morph_interior_dec s img x y) as [Hint|Hout].
  - rewrite (intensity_channel _ x y _ (Hhit x y 0 Hint ltac:(lia))).
    destruct (erosion_neighbourhood s img x y Hwf Hr Hint) as (m & -> & Hm).
    specialize (Hm 0 0). rewrite !Z.add_0_r, (Hdark x y Hring) in Hm.
    cbn. lia.
  - apply intensity_channel. apply Hmiss; [done|done|lia|done].
Qed.

Lemma dilation_ring s img :
  wf_image img → 0 ≤ morphologyRadius s →
  ring_dark img → ring_dark (morphologicalDilation s img).
Proof.
  intros Hwf Hr Hdark x y Hring.
  change (on_border_ring img x y) in Hring.
  pose proof Hring as (Hx & Hy & _).
  destruct (morph_stage_data js_max 0 s img Hr) as (_ & Hhit & Hmiss).
  rewrite morphologicalDilation_stage.
  destruct (morph_interior_dec s img x y) as [Hint|Hout].
  - rewrite (intensity_channel _ x y _ (Hhit x y 0 Hint ltac:(lia))).
    destruct (dilation_neighbourhood s img x y Hwf Hr Hint)
      as (m & -> & Hlb & Hub).
    pose proof (ring_interior s img x y Hr Hring Hint) as Hzero.
    assert (m ≤ 0).
    { apply Hub; [lia|]. intros kx ky Hkx Hky.
      replace kx with 0 by lia. replace ky with 0 by lia.
      rewrite !Z.add_0_r. by rewrite (Hdark x y Hring). }
    cbn. lia.
  - apply intensity_channel. apply Hmiss; [done|done|lia|done].
Qed.

(** What the iterations of the two stages keep. *)
Lemma opening_iter s img n :
  wf_image img → 0 ≤ morphologyRadius s →
  let out := for_range 0 n (λ _ result,
    morphologicalDilation s (morphologicalErosion s result)) img in
  wf_image out ∧ same_size out img ∧
  (∀ x y, 0 ≤ x < width img → 0 ≤ y < height img →
     intensity out x y ≤ intensity img x y) ∧
  (ring_dark img → ring_dark out).
Proof.
  intros Hwf Hr. cbv zeta.
  apply (for_range_preserve (λ out,
    wf_image out ∧ same_size out img ∧
    (∀ x y, 0 ≤ x < width img → 0 ≤ y < height img →
       intensity out x y ≤ intensity img x y) ∧
    (ring_dark img → ring_dark out))).
  - split_and!; [done|done| |done]. intros; lia.
  - intros _ r _ (Hwfr & [Hw Hh] & Hle & Hring). split_and!.
    + by apply wf_dilation, wf_erosion.
    + done.
    + intros x y Hx Hy. etrans; [|by apply Hle].
      apply opening_below; [done|done|by rewrite Hw|by rewrite Hh].
    + intros Hdark. apply dilation_ring; [by apply wf_erosion|done|].
      apply erosion_ring; [done..|]. by apply Hring.
Qed.

Lemma dilation_iter s img n :
  wf_image img → 0 ≤ morphologyRadius s →
  let out := for_range 0 n (λ _ result, morphologicalDilation s result) img in
  wf_image out ∧ same_size out img ∧
  (∀ x y, morph_interior s img x y →
     intensity img x y ≤ intensity out x y) ∧
  (ring_dark img → ring_dark out).
Proof.
  intros Hwf Hr. cbv zeta.
  apply (for_range_preserve (λ out,
    wf_image out ∧ same_size out img ∧
    (∀ x y, morph_interior s img x y →
       intensity img x y ≤ intensity out x y) ∧
    (ring_dark img → ring_dark out))).
  - split_and!; [done|done| |done]. intros; lia.
  - intros _ r _ (Hwfr & [Hw Hh] & Hle & Hring). split_and!.
    + by apply wf_dilation.
    + done.
    + intros x y Hint. etrans; [by apply Hle|].
      apply dilation_above; [done..|].
      unfold morph_interior. rewrite Hw, Hh. exact Hint.
    + intros Hdark. apply dilation_ring; [done..|]. by apply Hring.
Qed.

Lemma is_ink_le a b x y :
  wf_image b → same_size b a →
  intensity b x y ≤ intensity a x y → is_ink a x y → is_ink b x y.
Proof.
  intros Hwf [Hw Hh] Hle (Hx & Hy & v & Hv & Hlt).
  unfold intensity in Hle at 2. rewrite Hv in Hle. cbn in Hle.
  rewrite <- Hw in Hx. rewrite <- Hh in Hy.
  split; [exact Hx|split; [exact Hy|]].
  exists (intensity b x y). split; [by apply red_wf|lia].
Qed.

(** X9: whatever the complexity level, [applyMorphologicalOperations]
    returns an image of the size of its input in which no pixel has a
    larger red value than it had: every ink pixel of the input is an ink
    pixel of the output. *)
Theorem applyMorphologicalOperations_keeps_ink s settings img :
  wf_image img → 0 ≤ morphologyRadius s →
  let out := applyMorphologicalOperations s settings img in
  wf_image out ∧ same_size out img ∧
  (∀ x y, 0 ≤ x < width img → 0 ≤ y < height img →
     intensity out x y ≤ intensity img x y) ∧
  ink_subset img out.
Proof.
  intros Hwf Hr out. subst out. unfold applyMorphologicalOperations.
  cbv zeta.
  match goal with
  | |- context [for_range 0 ?n _ img] =>
      destruct (opening_iter s img n Hwf Hr) as (Hwfo & Hsize & Hle & _)
  end.
  split_and!; [done..|].
  intros x y Hink. pose proof Hink as (Hx & Hy & _).
  apply (is_ink_le img); [done|done| |done]. by apply Hle.
Qed.

Lemma applyMorphologicalOperations_keeps_ink_witness :
  let settings := mkCurrentSettings (Some "simple") None in
  let out :=
    applyMorphologicalOperations defaultProcessingSettings settings white_hole in
  wf_image out ∧ same_size out white_hole ∧
  (∀ x y, 0 ≤ x < width white_hole → 0 ≤ y < height white_hole →
     intensity out x y ≤ intensity white_hole x y) ∧
  ink_subset white_hole out.
Proof.
  apply (applyMorphologicalOperations_keeps_ink defaultProcessingSettings
           (mkCurrentSettings (Some "simple") None) white_hole).
  - exact wf_white_hole.
  - done.
Defined.

(** X10: whatever the line weight, [adjustLineWeight] returns an image of
    the size of its input in which no pixel at least [morphologyRadius]
    away from the four sides has a smaller red value than it had: such a
    pixel is ink in the output only if it was ink in the input.  For the
    weights "medium" and "thick" every pixel nearer to a side is 0 in all
    four channels. *)
Theorem adjustLineWeight_interior s t settings img :
  wf_image img → 0 ≤ morphologyRadius s →
  let out := adjustLineWeight s t settings img in
  wf_image out ∧ same_size out img ∧
  (∀ x y, morph_interior s img x y →
     intensity img x y ≤ intensity out x y ∧
     (is_ink out x y → is_ink img x y)) ∧
  (lineWeight settings = Some "medium" ∨ lineWeight settings = Some "thick" →
   ∀ x y c, 0 ≤ x < width img → 0 ≤ y < height img → 0 ≤ c < 4 →
     ¬ morph_interior s img x y → channel out x y c = Some 0).
Proof.
  intros Hwf Hr out. subst out. unfold adjustLineWeight. cbv zeta.
  set (n := if decide (lineWeight settings = Some "thin") then 1
            else if decide (lineWeight settings = Some "medium") then 2
            else if decide (lineWeight settings = Some "thick") then 3
            else lineWeightDefault t).
  assert (∀ out, wf_image out → same_size out img →
            (∀ x y, morph_interior s img x y →
               intensity img x y ≤ intensity out x y) →
            ∀ x y, morph_interior s img x y →
              intensity img x y ≤ intensity out x y ∧
              (is_ink out x y → is_ink img x y)) as Hink.
  { intros out Hwfo Hsize Hle x y Hint. split; [by apply Hle|].
    intros Hout. apply (is_ink_le out); [done| |by apply Hle|done].
    destruct Hsize. by split. }
  destruct (decide (n ≤ 1)) as [Hn|Hn].
  - split_and!; [done|done| |].
    + apply Hink; [done|done|]. intros; lia.
    + intros Hw. exfalso. subst n.
      destruct Hw as [Hw|Hw]; rewrite Hw in Hn;
        repeat (case_decide; try done); lia.
  - destruct (dilation_iter s img (n - 1) Hwf Hr) as (Hwfo & Hsize & Hle & _).
    split_and!; [done|done|by apply Hink|].
    intros _ x y c Hx Hy Hc Hout.
    replace (n - 1) with ((n - 2) + 1) by lia.
    rewrite for_range_snoc by lia.
    destruct (dilation_iter s img (n - 2) Hwf Hr) as (_ & [Hw Hh] & _).
    apply dilation_frame; [done|by rewrite Hw|by rewrite Hh|done|].
    unfold morph_interior. by rewrite Hw, Hh.
Qed.

Lemma adjustLineWeight_interior_witness :
  let settings := mkCurrentSettings None (Some "thick") in
  let out :=
    adjustLineWeight defaultProcessingSettings defaultToneSettings settings
      white_hole in
  wf_image out ∧ same_size out white_hole ∧
  (∀ x y, morph_interior defaultProcessingSettings white_hole x y →
     intensity white_hole x y ≤ intensity out x y ∧
     (is_ink out x y → is_ink white_hole x y)) ∧
  (lineWeight settings = Some "medium" ∨ lineWeight settings = Some "thick" →
   ∀ x y c, 0 ≤ x < width white_hole → 0 ≤ y < height white_hole → 0 ≤ c < 4 →
     ¬ morph_interior defaultProcessingSettings white_hole x y →
     channel out x y c = Some 0).
Proof.
  apply (adjustLineWeight_interior defaultProcessingSettings
           defaultToneSettings (mkCurrentSettings None (Some "thick"))
           white_hole).
  - exact wf_white_hole.
  - done.
Defined.

(** ** The pipeline *)

Lemma wf_detectEdges s img :
  0 ≤ width img → 0 ≤ height img → wf_image (detectEdges s img).
Proof.
  intros Hw Hh. destruct (detectEdges_data s img) as (Hlen & _ & _).
  split_and!; [done|done|exact Hlen|].
  unfold detectEdges. cbn [data].
  apply (for_range_preserve (Forall (λ v, 0 ≤ v ≤ 255))).
  - apply Forall_replicate. lia.
  - intros y d _ Hd. apply (for_range_preserve (Forall (λ v, 0 ≤ v ≤ 255))).
    + done.
    + intros x d' _ Hd'. cbv zeta.
      destruct (for_range _ _ _ _) as [pixelX pixelY].
      repeat apply Forall_u8_set; try apply to_u8_clamp_range. done.
Qed.

Lemma detectEdges_ring s img : ring_dark (detectEdges s img).
Proof.
  intros x y Hring. change (on_border_ring img x y) in Hring.
  destruct Hring as (Hx & Hy & Hring).
  destruct (detectEdges_data s img) as (_ & _ & Hmiss). cbv zeta in Hmiss.
  apply intensity_channel. unfold channel.
  change (width (detectEdges s img)) with (width img).
  rewrite Hmiss.
  - apply u8_get_newImageData_lt. apply pixel_index_bound; [done|done|lia].
  - intros x' y' c' Hx' Hy' Hc' Heq.
    apply pixel_index_inj in Heq; [|lia..]. lia.
Qed.

(** X11: provided the blur returns an image of the size of its input, the
    pipeline returns an image of the size of the original in which every
    pixel is opaque black or opaque white, and every pixel of the
    outermost ring is black: the processed image always has an ink
    frame. *)
Theorem applyProcessingPipeline_frame applyGaussianBlur s t settings img :
  (∀ i r, same_size (applyGaussianBlur i r) i) →
  0 ≤ width img → 0 ≤ height img → 0 ≤ morphologyRadius s →
  let out := applyProcessingPipeline applyGaussianBlur s t settings img in
  wf_image out ∧ same_size out img ∧
  (∀ x y, 0 ≤ x < width img → 0 ≤ y < height img →
     ∃ v, (v = 0 ∨ v = 255) ∧
          (∀ c, 0 ≤ c < 3 → channel out x y c = Some v) ∧
          channel out x y 3 = Some 255) ∧
  (∀ x y, on_border_ring img x y → is_ink out x y).
Proof.
  intros Hblur Hw Hh Hr out. subst out. unfold applyProcessingPipeline.
  cbv zeta.
  set (blurred := applyGaussianBlur _ _).
  assert (same_size blurred img) as [Hbw Hbh].
  { destruct (Hblur (adjustContrastBrightness t (convertToGrayscale img))
                (gaussianRadius t)) as [Hbw Hbh].
    split; [exact Hbw|exact Hbh]. }
  set (edges := detectEdges s blurred).
  assert (wf_image edges) as Hwfe by (apply wf_detectEdges; lia).
  assert (ring_dark edges) as Hringe by apply detectEdges_ring.
  assert (same_size edges img) as Hsizee by done.
  set (opened := applyMorphologicalOperations s settings edges).
  assert (wf_image opened ∧ same_size opened img ∧ ring_dark opened)
    as (Hwfo & [How Hoh] & Hringo).
  { subst opened. unfold applyMorphologicalOperations. cbv zeta.
    match goal with
    | |- context [for_range 0 ?n _ edges] =>
        destruct (opening_iter s edges n Hwfe Hr) as (? & [? ?] & _ & Hk)
    end.
    split_and!; [done| |by apply Hk]. destruct Hsizee. split; congruence. }
  set (weighted := adjustLineWeight s t settings opened).
  assert (wf_image weighted ∧ same_size weighted img ∧ ring_dark weighted)
    as (Hwfw & [Hww Hwh] & Hringw).
  { subst weighted. unfold adjustLineWeight. cbv zeta.
    case_decide; [by split_and!|].
    match goal with
    | |- context [for_range 0 ?n _ opened] =>
        destruct (dilation_iter s opened n Hwfo Hr) as (? & [? ?] & _ & Hk)
    end.
    split_and!; [done| |by apply Hk]. split; congruence. }
  pose proof (for_by4_pixel cleanup_step cleanup_pixel cleanup_step_length
                cleanup_step_local cleanup_step_frame weighted) as Hpix.
  rewrite <- finalCleanup_loop in Hpix.
  assert (wf_image (finalCleanup weighted)) as Hwff.
  { rewrite finalCleanup_loop.
    apply (for_by4_wf cleanup_step cleanup_pixel cleanup_step_length
             cleanup_step_local cleanup_step_frame); [done|].
    intros c r g b a Hc _ _ _ _. unfold cleanup_pixel.
    case_decide; [lia|]. case_bool_decide; lia. }
  split_and!; [done|done| |].
  - intros x y Hx Hy. rewrite <- Hww in Hx. rewrite <- Hwh in Hy.
    exists (if bool_decide (chan weighted x y 0 > 127) then 255 else 0).
    split_and!.
    + case_bool_decide; auto.
    + intros c Hc. rewrite Hpix by (done || lia).
      unfold cleanup_pixel. by rewrite decide_False by lia.
    + by rewrite Hpix by (done || lia).
  - intros x y Hring. pose proof Hring as (Hx & Hy & Hside).
    rewrite <- Hww in Hx. rewrite <- Hwh in Hy.
    assert (on_border_ring weighted x y) as Hringx.
    { split; [exact Hx|split; [exact Hy|]]. rewrite Hww, Hwh. exact Hside. }
    split; [exact Hx|split; [exact Hy|]]. exists 0. split; [|lia].
    rewrite <- channel_red, Hpix by (done || lia).
    unfold cleanup_pixel. rewrite decide_False by lia.
    unfold chan. rewrite channel_red.
    fold (intensity weighted x y). rewrite (Hringw x y Hringx).
    by rewrite bool_decide_false by lia.
Qed.

Lemma applyProcessingPipeline_frame_witness :
  let settings := mkCurrentSettings (Some "moderate") (Some "medium") in
  let out :=
    applyProcessingPipeline (λ i _, i) defaultProcessingSettings
      defaultToneSettings settings colour4 in
  wf_image out ∧ same_size out colour4 ∧
  (∀ x y, 0 ≤ x < width colour4 → 0 ≤ y < height colour4 →
     ∃ v, (v = 0 ∨ v = 255) ∧
          (∀ c, 0 ≤ c < 3 → channel out x y c = Some v) ∧
          channel out x y 3 = Some 255) ∧
  (∀ x y, on_border_ring colour4 x y → is_ink out x y).
Proof.
  apply (applyProcessingPipeline_frame (λ i _, i) defaultProcessingSettings
           defaultToneSettings
           (mkCurrentSettings (Some "moderate") (Some "medium")) colour4).
  - done.
  - done.
  - done.
  - done.
Defined.

(** ** The regions of the tracer *)

Lemma elem_of_pushNeighbours bm vis w h x y dirs stack e :
  e ∈ pushNeighbours bm vis w h x y dirs stack →
  e ∈ stack ∨
  ∃ dx dy, (dx, dy) ∈ dirs ∧ e = (x + dx, y + dy) ∧
           get2 bm (x + dx) (y + dy) = Some 1.
Proof.
  unfold pushNeighbours. revert stack.
  induction dirs as [|[dx dy] dirs IH]; intros stack; cbn [foldl]; [by left|].
  intros He. apply IH in He as [He|(dx' & dy' & Hd & -> & Hbm)].
  - destruct (_ && _ && _) eqn:Hpush; [|by left].
    apply elem_of_cons in He as [->|He]; [|by left].
    right. exists dx, dy. split_and!; [left|done|].
    apply andb_true_iff in Hpush as [_ Hbm].
    by apply bool_decide_eq_true in Hbm.
  - right. exists dx', dy'. split_and!; [by right|done..].
Qed.

Lemma grown_by_snoc dirs c q :
  grown_by dirs c →
  (c ≠ [] → ∃ p, p ∈ c ∧ (px q - px p, py q - py p) ∈ dirs) →
  grown_by dirs (c ++ [q]).
Proof.
  intros Hc Hq i q' Hi Hlook.
  destruct (decide (i < length c)%nat) as [Hlt|Hge].
  - rewrite lookup_app_l in Hlook by done.
    destruct (Hc i q' Hi Hlook) as (j & p & Hj & Hp & Hd).
    exists j, p. split_and!; [done| |done].
    rewrite lookup_app_l by lia. done.
  - rewrite lookup_app_r in Hlook by lia.
    apply list_lookup_singleton_Some in Hlook as [Hil <-].
    destruct Hq as (p & Hp & Hd).
    { intros ->. cbn in *. lia. }
    apply list_elem_of_lookup in Hp as [j Hj].
    exists j, p. split_and!; [|by rewrite lookup_app_l by by eapply lookup_lt_Some|done].
    apply lookup_lt_Some in Hj. lia.
Qed.

Section TraceRegion.
Variable s : OptimizationSettings.
Variable bm : list (list Z).
Variables w h : Z.
Variable dirs : list (Z * Z).

Lemma traceLoop_region fuel stack contour vis c' vis' :
  ink_cells bm w h contour →
  grown_by dirs contour →
  (∀ x y, (x, y) ∈ stack → get2 bm x y = Some 1) →
  (contour = [] → (length stack ≤ 1)%nat) →
  (∀ x y, (x, y) ∈ stack → contour ≠ [] →
     ∃ p, p ∈ contour ∧ (x - px p, y - py p) ∈ dirs) →
  traceLoop fuel s bm w h dirs stack contour vis = Some (c', vis') →
  ink_cells bm w h c' ∧ grown_by dirs c' ∧
  Z.of_nat (length c') ≤ Z.max (Z.of_nat (length contour)) (maxPoints s) ∧
  contour `prefix_of` c' ∧
  (contour = [] → ∀ p, head c' = Some p → (px p, py p) ∈ stack).
Proof.
  revert stack contour vis.
  induction fuel as [|fuel IH];
    intros stack contour vis Hink Hgrown Hone Hfirst Hadj; [done|].
  destruct stack as [|[x y] stack]; cbn [traceLoop].
  { intros [= <- <-]. split_and!; [done|done|lia|done|]. by intros ->. }
  case_bool_decide as Hlen; cycle 1.
  { intros [= <- <-]. split_and!; [done|done|lia|done|]. by intros ->. }
  destruct (negb _ || _ || _) eqn:Hskip.
  { intros Hrun. apply IH in Hrun as (? & ? & ? & ? & Hhead); try done.
    - split_and!; [done..|]. intros Hnil p Hp. right. by apply Hhead.
    - intros x' y' Hel. apply Hone. by right.
    - intros Hnil. specialize (Hfirst Hnil). cbn in Hfirst. lia.
    - intros x' y' Hel. apply Hadj. by right. }
  apply orb_false_iff in Hskip as [Hskip _].
  apply orb_false_iff in Hskip as [Hin _].
  apply negb_false_iff, bool_decide_eq_true in Hin.
  intros Hrun. apply IH in Hrun as (Hink' & Hgrown' & Hlen' & Hpre & _).
  - split_and!; [done|done| | |].
    + rewrite length_app in Hlen'. cbn [length] in Hlen'. lia.
    + etrans; [|exact Hpre]. by apply prefix_app_r.
    + intros -> p Hp. destruct Hpre as [k ->]. cbn in Hp.
      injection Hp as <-. cbn. left.
  - intros p [Hp|Hp]%elem_of_app; [by apply Hink|].
    apply list_elem_of_singleton in Hp as ->. cbn.
    split; [lia|]. split; [lia|]. apply Hone. by left.
  - apply grown_by_snoc; [done|]. intros Hne. cbn.
    apply (Hadj x y); [by left|done].
  - intros x' y' Hel.
    apply elem_of_pushNeighbours in Hel as [Hel|(dx & dy & _ & [= -> ->] & Hbm)];
      [|done].
    apply Hone. by right.
  - intros [_ Hnil]%app_eq_nil. discriminate Hnil.
  - intros x' y' Hel _.
    apply elem_of_pushNeighbours in Hel as [Hel|(dx & dy & Hd & [= -> ->] & _)].
    + destruct (decide (contour = [])) as [Hnil|Hne].
      * specialize (Hfirst Hnil). cbn in Hfirst.
        destruct stack; [by apply elem_of_nil in Hel|cbn in Hfirst; lia].
      * destruct (Hadj x' y') as (p & Hp & Hdp); [by right|done|].
        exists p. split; [|done]. apply elem_of_app. by left.
    + exists (mkPoint x y). split.
      * apply elem_of_app. right. by apply list_elem_of_singleton.
      * cbn. by replace (x + dx - x) with dx by lia;
          replace (y + dy - y) with dy by lia.
Qed.
End TraceRegion.

Lemma findContoursAt_regions fuel s bm w h x y st st' :
  1 ≤ x < w - 1 → 1 ≤ y < h - 1 →
  Forall (traced_region s bm w h) st.1 →
  findContoursAt fuel s bm w h x y st = Some st' →
  Forall (traced_region s bm w h) st'.1.
Proof.
  destruct st as [contours vis]. intros Hx Hy Hall. cbn [fst] in *.
  unfold findContoursAt.
  destruct (bool_decide _ && _) eqn:Hstart; [|by intros [= <-]].
  apply andb_true_iff in Hstart as [Hbm _].
  apply bool_decide_eq_true in Hbm.
  unfold traceContour.
  destruct (traceLoop _ _ _ _ _ _ _ _ _) as [[c vis']|] eqn:Hrun; [|done].
  cbn. apply traceLoop_region in Hrun as (Hink & Hgrown & Hlen & _ & Hhead).
  - case_bool_decide as Hmin; intros [= <-]; cbn [fst]; [|done].
    apply Forall_app. split; [done|]. apply Forall_singleton.
    split_and!; [done|cbn [length] in Hlen; lia|done|done|].
    intros p Hp. specialize (Hhead eq_refl p Hp).
    apply list_elem_of_singleton in Hhead. injection Hhead as -> ->. lia.
  - by intros p ?%elem_of_nil.
  - intros i q _ Hq. by rewrite lookup_nil in Hq.
  - intros x' y' Hel. apply list_elem_of_singleton in Hel.
    by injection Hel as -> ->.
  - done.
  - done.
Qed.

(** X12: on a map with [height] rows of [width] cells, with fuel for
    nine steps per admissible contour point, [findContours] returns, and
    every contour it returns is a region of the map: each of its points is an ink cell inside the map, each point
    but the first is one of the eight neighbours of a point before it, the
    first point is not on the outermost ring, and its length is at least
    [minPathLength] and at most [maxPoints]. *)
Theorem findContours_regions fuel s bm w h :
  wf_grid bm w h →
  9 * Z.max 0 (maxPoints s) + 2 ≤ Z.of_nat fuel →
  ∃ contours,
    findContours fuel s bm w h = Some contours ∧
    Forall (traced_region s bm w h) contours.
Proof.
  intros _ Hf.
  destruct (findContours_total s bm w h fuel Hf) as [contours Hrun].
  exists contours. split; [done|].
  unfold findContours in Hrun.
  destruct (for_rangeM _ _ _ _) as [[cs vis]|] eqn:Hscan; [|done].
  injection Hrun as <-.
  apply (for_rangeM_preserve (λ st, Forall (traced_region s bm w h) st.1))
    in Hscan; [done|done|].
  intros y t t' Hy Ht.
  apply (for_rangeM_preserve (λ st, Forall (traced_region s bm w h) st.1));
    [done|].
  intros x u u' Hx Hu. by apply findContoursAt_regions.
Qed.

Lemma findContours_regions_witness :
  wf_grid two_regions 6 5 ∧
  ∃ contours,
    findContours (Z.to_nat 9002) (mkOptimizationSettings 2 1 1000)
      two_regions 6 5 = Some contours ∧
    Forall (traced_region (mkOptimizationSettings 2 1 1000) two_regions 6 5)
      contours.
Proof.
  split; [exact wf_two_regions|].
  apply (findContours_regions (Z.to_nat 9002)
           (mkOptimizationSettings 2 1 1000) two_regions 6 5 wf_two_regions).
  by vm_compute.
Defined.

Lemma createBinaryMap_background img :
  (∀ x y, ¬ is_ink img x y) →
  all_background (createBinaryMap (data img) (width img) (height img)).
Proof.
  intros Hno x y v Hv.
  apply get2_createBinaryMap_Some in Hv as [[Hx Hy] ->].
  pose proof (binary_cell_ink img x y Hx Hy) as Hcell.
  unfold binary_cell in *.
  destruct (u8_get _ _) as [r|]; [|done].
  case_bool_decide; [|done]. exfalso. apply (Hno x y). by apply Hcell.
Qed.

(** X13: an image without an ink pixel (no red value below 128) has no
    vector paths: [extractVectorPaths] returns the empty list, whatever
    the fuel and the settings. *)
Theorem extractVectorPaths_no_ink fuel s img :
  (∀ x y, ¬ is_ink img x y) → extractVectorPaths fuel s img = Some [].
Proof.
  intros Hno. unfold extractVectorPaths. cbv zeta.
  rewrite background_findContours by by apply createBinaryMap_background.
  done.
Qed.

Lemma white3_no_ink x y : ¬ is_ink white3 x y.
Proof.
  intros (Hx & Hy & v & Hv & Hlt). cbn in Hx, Hy.
  assert (x = 0 ∨ x = 1 ∨ x = 2) as Hxs by lia.
  assert (y = 0 ∨ y = 1 ∨ y = 2) as Hys by lia.
  destruct Hxs as [-> | [-> | ->]]; destruct Hys as [-> | [-> | ->]];
    vm_compute in Hv; injection Hv as <-; lia.
Qed.

Lemma extractVectorPaths_no_ink_witness :
  extractVectorPaths 0 defaultOptimizationSettings white3 = Some [].
Proof.
  apply (extractVectorPaths_no_ink 0 defaultOptimizationSettings white3).
  exact white3_no_ink.
Defined.

(** ** What simplification keeps *)

Lemma arr_get_head {A} `{Inhabited A} (l : list A) a :
  head l = Some a → arr_get l 0 = a.
Proof. by destruct l; intros [= ->]. Qed.

Lemma arr_get_last {A} `{Inhabited A} (l : list A) b :
  last l = Some b → arr_get l (Z.of_nat (length l) - 1) = b.
Proof.
  intros [l' ->]%last_Some. unfold arr_get.
  rewrite length_app. cbn [length].
  replace (Z.to_nat (Z.of_nat (length l' + 1) - 1)) with (length l' + 0)%nat
    by lia.
  by rewrite lookup_total_app_r, Nat.add_comm, Nat.add_sub by lia.
Qed.

Lemma sublist_init {A} (l k : list A) x y :
  l ++ [x] `sublist_of` k ++ [y] → l `sublist_of` k.
Proof.
  intros (l1 & l2 & Heq & H1 & H2)%sublist_app_r.
  inversion H2 as [|? ? ? H3|? ? ? H3]; subst.
  - apply sublist_nil_r in H3 as ->.
    apply app_inj_tail in Heq as [-> _]. done.
  - apply sublist_nil_r in H3 as ->. rewrite app_nil_r in Heq. subst l1.
    etrans; [|exact H1]. by apply sublist_inserts_r.
Qed.

Lemma last_drop {A} (l : list A) n :
  (n < length l)%nat → last (drop n l) = last l.
Proof.
  intros Hn. rewrite <- (take_drop n l) at 2. rewrite last_app.
  destruct (last (drop n l)) eqn:Hl; [done|].
  apply last_None in Hl. apply (f_equal length) in Hl.
  rewrite length_drop in Hl. cbn in Hl. lia.
Qed.

Lemma douglasPeucker_keeps tolerance fuel points :
  tolerance_nonneg tolerance → (length points ≤ fuel)%nat →
  ∃ r, douglasPeucker fuel points tolerance = Some r ∧
       r `sublist_of` points ∧
       head r = head points ∧ last r = last points ∧
       ((2 ≤ length points)%nat → (2 ≤ length r)%nat).
Proof.
  intros Htol. revert points.
  induction fuel as [|fuel IH]; intros points Hfuel.
  { destruct points; [|cbn in Hfuel; lia]. by exists []. }
  cbn [douglasPeucker]. case_decide as Hlen; [by eauto 10|].
  pose proof (farthest_spec points (Z.of_nat (length points) - 1)) as Hfar.
  destruct (farthest _ _) as [md mi].
  destruct (exceeds md tolerance) eqn:Hex; cycle 1.
  { eexists. split; [done|].
    destruct points as [|a l]; [cbn in Hlen; lia|].
    destruct (last (a :: l)) as [b|] eqn:Hb; [|by apply last_None in Hb].
    rewrite (arr_get_head (a :: l) a) by done.
    rewrite (arr_get_last (a :: l) b) by done.
    split_and!; [|done|done|cbn; lia].
    destruct l as [|a' l]; [cbn in Hlen; lia|].
    change (last (a :: a' :: l)) with (last (a' :: l)) in Hb.
    apply last_Some in Hb as [l' ->].
    apply sublist_skip. by apply sublist_inserts_l. }
  apply exceeds_positive in Hex; [|done].
  destruct Hfar as [[[-> _]|[_ Hmi]] _]; [lra|].
  rewrite slice_prefix, slice_from_drop by lia.
  destruct (IH (take (Z.to_nat (mi + 1)) points))
    as (left & -> & Hsl & Hhl & Hll & Hnl).
  { rewrite length_take. lia. }
  destruct (IH (drop (Z.to_nat mi) points))
    as (right & -> & Hsr & Hhr & Hlr & Hnr).
  { rewrite length_drop. lia. }
  cbn. eexists. split; [done|]. rewrite slice_init.
  rewrite length_take in Hnl. rewrite length_drop in Hnr.
  assert (2 ≤ length left)%nat as Hl2 by (apply Hnl; lia).
  assert (2 ≤ length right)%nat as Hr2 by (apply Hnr; lia).
  destruct (last left) as [x|] eqn:Hx; cycle 1.
  { apply last_None in Hx. subst left. cbn in Hl2. lia. }
  apply last_Some in Hx as [init ->].
  rewrite length_app in *. cbn [length] in *.
  replace (length init + 1 - 1)%nat with (length init) by lia.
  rewrite take_app_length.
  replace (Z.to_nat (mi + 1)) with (S (Z.to_nat mi)) in * by lia.
  destruct (lookup_lt_is_Some_2 points (Z.to_nat mi)) as [y Hy]; [lia|].
  rewrite (take_S_r _ _ _ Hy) in Hsl, Hhl.
  apply sublist_init in Hsl.
  split_and!.
  - rewrite <- (take_drop (Z.to_nat mi) points). by apply sublist_app.
  - destruct init as [|i0 init]; [cbn in Hl2; lia|].
    cbn [app head] in *. rewrite Hhl.
    destruct points as [|p0 pts]; [cbn in Hlen; lia|].
    by replace (Z.to_nat mi) with (S (Z.to_nat mi - 1)) by lia.
  - rewrite last_app, Hlr, last_drop by lia.
    destruct (last points) eqn:Hlast; [done|].
    apply last_None in Hlast. subst points. cbn in Hlen. lia.
  - intros _. rewrite length_app. lia.
Qed.

(** X14: for a tolerance that is not negative and fuel for the length,
    [douglasPeucker] and [simplifyPath] return a selection of the input
    points in their order, which begins with the first input point and
    ends with the last; of two or more points at least two are kept. *)
Theorem simplifyPath_keeps_ends fuel s points tolerance :
  tolerance_nonneg tolerance → (0 <= simplifyTolerance s)%R →
  (length points ≤ fuel)%nat →
  (∃ r, douglasPeucker fuel points tolerance = Some r ∧
        r `sublist_of` points ∧
        head r = head points ∧ last r = last points ∧
        ((2 ≤ length points)%nat → (2 ≤ length r)%nat)) ∧
  (∃ r, simplifyPath fuel s points = Some r ∧
        r `sublist_of` points ∧
        head r = head points ∧ last r = last points ∧
        ((2 ≤ length points)%nat → (2 ≤ length r)%nat)).
Proof.
  intros Htol Hs Hfuel. split; [by apply douglasPeucker_keeps|].
  unfold simplifyPath. case_decide; [by eauto 10|].
  by apply douglasPeucker_keeps.
Qed.

Lemma simplifyPath_keeps_ends_witness :
  (∃ r, douglasPeucker 3 bent3 (Finite 2) = Some r ∧
        r `sublist_of` bent3 ∧
        head r = head bent3 ∧ last r = last bent3 ∧
        ((2 ≤ length bent3)%nat → (2 ≤ length r)%nat)) ∧
  (∃ r, simplifyPath 3 defaultOptimizationSettings bent3 = Some r ∧
        r `sublist_of` bent3 ∧
        head r = head bent3 ∧ last r = last bent3 ∧
        ((2 ≤ length bent3)%nat → (2 ≤ length r)%nat)).
Proof.
  apply (simplifyPath_keeps_ends 3 defaultOptimizationSettings bent3 (Finite 2)).
  - cbn. lra.
  - cbn. lra.
  - cbn. lia.
Defined.

(** ** Path data, length and bounds *)

(** X15: for fewer than two points [generateSmoothPathData] is empty; for
    [n ≥ 2] points it has [n] commands: a move to the first point, for
    every point between the first and the last a curve with that point as
    control point that ends half way to the next point, and a line to the
    last point. *)
Theorem generateSmoothPathData_shape points :
  let n := Z.of_nat (length points) in
  let d := generateSmoothPathData points in
  (n < 2 → d = []) ∧
  (2 ≤ n →
     Z.of_nat (length d) = n ∧
     head d = Some (MoveTo (px (arr_get points 0)) (py (arr_get points 0))) ∧
     last d = Some (LineTo (px (arr_get points (n - 1)))
                      (py (arr_get points (n - 1)))) ∧
     ∀ i, 1 ≤ i < n - 1 → d !! Z.to_nat i = Some (quad_at points i)).
Proof.
  cbv zeta. unfold generateSmoothPathData.
  case_decide as Hshort; [split; [done|lia]|].
  split; [lia|]. intros _.
  case_decide as Htwo.
  { rewrite Htwo. split_and!; [done..|]. intros; lia. }
  cbv zeta. set (n := Z.of_nat (length points)).
  rewrite (for_range_collect 1 (n - 1) _ (quad_at points)) by done.
  split_and!.
  - rewrite !length_app, length_fmap, length_seqZ. cbn [length]. lia.
  - done.
  - by rewrite last_snoc.
  - intros i Hi.
    rewrite lookup_app_l
      by (rewrite length_app, length_fmap, length_seqZ; cbn [length]; lia).
    rewrite lookup_app_r by (cbn [length]; lia). cbn [length].
    rewrite list_lookup_fmap, lookup_seqZ_lt by lia. cbn. do 2 f_equal. lia.
Qed.

Lemma dist_euc_dist p q : dist_euc (px p) (py p) (px q) (py q) = dist p q.
Proof. reflexivity. Qed.

Lemma dist_sym p q : dist p q = dist q p.
Proof. unfold dist. f_equal. ring. Qed.

Lemma dist_nonneg p q : (0 <= dist p q)%R.
Proof. apply sqrt_pos. Qed.

Lemma dist_refl p : dist p p = 0%R.
Proof.
  unfold dist. rewrite <- sqrt_0. f_equal. ring.
Qed.

Lemma dist_triangle p q r : (dist p r <= dist p q + dist q r)%R.
Proof. rewrite <- !dist_euc_dist. apply triangle. Qed.

(** One more point adds the length of one more segment. *)
Lemma calculatePathLength_snoc points p :
  calculatePathLength (points ++ [p])
  = (calculatePathLength points
     + match last points with Some q => dist p q | None => 0 end)%R.
Proof.
  unfold calculatePathLength. rewrite length_app. cbn [length].
  set (n := Z.of_nat (length points)).
  replace (Z.of_nat (length points + 1)) with (n + 1) by lia.
  destruct (decide (n = 0)) as [Hn|Hn].
  { assert (points = []) as -> by (apply length_zero_iff_nil; lia).
    rewrite Hn, !for_range_nil by lia. cbn. lra. }
  rewrite for_range_snoc by lia.
  rewrite (for_range_ext 1 n _ (λ i len,
    let dx := (px (arr_get points i) - px (arr_get points (i - 1)))%R in
    let dy := (py (arr_get points i) - py (arr_get points (i - 1)))%R in
    (len + sqrt (dx * dx + dy * dy))%R)); cycle 1.
  { intros i t Hi. cbv zeta. unfold arr_get.
    rewrite !(lookup_total_app_l points) by lia. done. }
  cbv zeta. f_equal.
  assert (arr_get (points ++ [p]) n = p) as ->.
  { unfold arr_get. rewrite lookup_total_app_r by lia.
    by replace (Z.to_nat n - length points)%nat with 0%nat by lia. }
  assert (last points = Some (arr_get (points ++ [p]) (n - 1))) as ->.
  { rewrite last_lookup. unfold arr_get.
    rewrite lookup_total_app_l by lia.
    replace (Init.Nat.pred (length points)) with (Z.to_nat (n - 1)) by lia.
    apply list_lookup_lookup_total_lt. lia. }
  done.
Qed.

Lemma calculatePathLength_nonneg points : (0 <= calculatePathLength points)%R.
Proof.
  unfold calculatePathLength.
  apply (for_range_preserve (λ len, 0 <= len)%R); [lra|].
  intros i len _ Hlen. cbv zeta.
  pose proof (sqrt_pos
    ((px (arr_get points i) - px (arr_get points (i - 1)))
     * (px (arr_get points i) - px (arr_get points (i - 1)))
     + (py (arr_get points i) - py (arr_get points (i - 1)))
       * (py (arr_get points i) - py (arr_get points (i - 1))))).
  lra.
Qed.

(** X16: the length that [calculatePathLength] returns is 0 for fewer
    than two points and never negative; a path is never shorter than its
    beginning: more points at its end do not make it shorter; and the
    length of a path of two pixel points is their distance. *)
Theorem calculatePathLength_bounds points :
  ((length points < 2)%nat → calculatePathLength points = 0%R) ∧
  (0 <= calculatePathLength points)%R ∧
  (∀ more,
     (calculatePathLength points <= calculatePathLength (points ++ more))%R) ∧
  (pixel_points points → ∀ p q, points = [p; q] →
     calculatePathLength points = dist q p).
Proof.
  split_and!.
  - intros Hshort. unfold calculatePathLength.
    by rewrite for_range_nil by lia.
  - apply calculatePathLength_nonneg.
  - induction more as [|p more IH] using rev_ind.
    { rewrite app_nil_r. lra. }
    rewrite app_assoc, calculatePathLength_snoc.
    destruct (last (points ++ more)) as [q|]; [|lra].
    pose proof (dist_nonneg p q). lra.
  - intros _ p q ->.
    change [p; q] with ([p] ++ [q]). rewrite calculatePathLength_snoc.
    cbn [last]. unfold calculatePathLength.
    rewrite for_range_nil by (cbn; lia). lra.
Qed.

Lemma bounds_fold st points :
  let '(minX, maxX, minY, maxY) := st in
  let '(minX', maxX', minY', maxY') := foldl bounds_step st points in
  ((minX' <= minX)%R ∧ (maxX <= maxX')%R ∧
   (minY' <= minY)%R ∧ (maxY <= maxY')%R) ∧
  (∀ p, p ∈ points →
     (minX' <= px p <= maxX')%R ∧ (minY' <= py p <= maxY')%R) ∧
  (minX' = minX ∨ ∃ p, p ∈ points ∧ minX' = px p) ∧
  (maxX' = maxX ∨ ∃ p, p ∈ points ∧ maxX' = px p) ∧
  (minY' = minY ∨ ∃ p, p ∈ points ∧ minY' = py p) ∧
  (maxY' = maxY ∨ ∃ p, p ∈ points ∧ maxY' = py p).
Proof.
  revert st. induction points as [|q points IH]; intros [[[minX maxX] minY] maxY].
  { cbn. split_and!; try lra; try (by left). by intros p ?%elem_of_nil. }
  cbn [foldl bounds_step].
  specialize (IH (Rmin minX (px q), Rmax maxX (px q),
                  Rmin minY (py q), Rmax maxY (py q))).
  cbv beta iota in IH.
  destruct (foldl _ _ _) as [[[minX' maxX'] minY'] maxY'].
  destruct IH as ((H1 & H2 & H3 & H4) & Hall & Ha & Hb & Hc & Hd).
  pose proof (Rmin_l minX (px q)). pose proof (Rmin_r minX (px q)).
  pose proof (Rmax_l maxX (px q)). pose proof (Rmax_r maxX (px q)).
  pose proof (Rmin_l minY (py q)). pose proof (Rmin_r minY (py q)).
  pose proof (Rmax_l maxY (py q)). pose proof (Rmax_r maxY (py q)).
  split_and!.
  - lra.
  - lra.
  - lra.
  - lra.
  - intros p [->|Hp]%elem_of_cons; [lra|by apply Hall].
  - destruct Ha as [->|(p & Hp & ->)]; [|right; exists p; split; [by right|done]].
    destruct (Rmin_case minX (px q) (λ m, m = minX ∨ m = px q)) as [->| ->];
      [by left|by right|by left|].
    right. exists q. split; [by left|done].
  - destruct Hb as [->|(p & Hp & ->)]; [|right; exists p; split; [by right|done]].
    destruct (Rmax_case maxX (px q) (λ m, m = maxX ∨ m = px q)) as [->| ->];
      [by left|by right|by left|].
    right. exists q. split; [by left|done].
  - destruct Hc as [->|(p & Hp & ->)]; [|right; exists p; split; [by right|done]].
    destruct (Rmin_case minY (py q) (λ m, m = minY ∨ m = py q)) as [->| ->];
      [by left|by right|by left|].
    right. exists q. split; [by left|done].
  - destruct Hd as [->|(p & Hp & ->)]; [|right; exists p; split; [by right|done]].
    destruct (Rmax_case maxY (py q) (λ m, m = maxY ∨ m = py q)) as [->| ->];
      [by left|by right|by left|].
    right. exists q. split; [by left|done].
Qed.

Lemma calculateBounds_holds points :
  Forall (in_box (calculateBounds points)) points.
Proof.
  unfold calculateBounds. case_decide as Hnil.
  { by apply length_zero_iff_nil in Hnil as ->. }
  destruct points as [|p0 points]; [done|].
  cbv zeta. change (arr_get (p0 :: points) 0) with p0.
  pose proof (bounds_fold (px p0, px p0, py p0, py p0) (p0 :: points)) as Hfold.
  cbv beta iota in Hfold.
  change (foldl _ _ (p0 :: points))
    with (foldl bounds_step (px p0, px p0, py p0, py p0) (p0 :: points)).
  destruct (foldl _ _ _) as [[[minX maxX] minY] maxY].
  destruct Hfold as (_ & Hall & _).
  apply Forall_forall. intros p Hp. specialize (Hall p Hp).
  unfold in_box. cbn [bounds_x bounds_y bounds_width bounds_height]. lra.
Qed.

(** X17: the box of [calculateBounds] is all zero for no points;
    otherwise its width and height are not negative and its corner lies
    left of and above every point, on the level of a leftmost and of a
    topmost point.  The box of pixel points holds every one of them, and
    each of its four sides passes through a point. *)
Theorem calculateBounds_encloses points :
  let b := calculateBounds points in
  (points = [] → b = mkBounds 0 0 0 0) ∧
  (0 <= bounds_width b)%R ∧ (0 <= bounds_height b)%R ∧
  (∀ p, p ∈ points → (bounds_x b <= px p)%R ∧ (bounds_y b <= py p)%R) ∧
  (points ≠ [] →
     (∃ p, p ∈ points ∧ px p = bounds_x b) ∧
     (∃ p, p ∈ points ∧ py p = bounds_y b)) ∧
  (pixel_points points →
     Forall (in_box b) points ∧
     (points ≠ [] →
        (∃ p, p ∈ points ∧ px p = (bounds_x b + bounds_width b)%R) ∧
        (∃ p, p ∈ points ∧ py p = (bounds_y b + bounds_height b)%R))).
Proof.
  cbv zeta. destruct points as [|p0 points].
  { unfold calculateBounds. rewrite decide_True by done.
    cbn [bounds_x bounds_y bounds_width bounds_height].
    split_and!; [done|lra|lra|by intros p ?%elem_of_nil|done|by intros _]. }
  pose proof (calculateBounds_holds (p0 :: points)) as Hbox. revert Hbox.
  unfold calculateBounds. rewrite decide_False by done.
  cbv zeta. change (arr_get (p0 :: points) 0) with p0.
  pose proof (bounds_fold (px p0, px p0, py p0, py p0) (p0 :: points)) as Hfold.
  cbv beta iota in Hfold.
  change (foldl _ _ (p0 :: points))
    with (foldl bounds_step (px p0, px p0, py p0, py p0) (p0 :: points)).
  destruct (foldl _ _ _) as [[[minX maxX] minY] maxY].
  destruct Hfold as ((H1 & H2 & H3 & H4) & Hall & Ha & Hb & Hc & Hd).
  cbn [bounds_x bounds_y bounds_width bounds_height]. intros Hbox.
  assert (p0 ∈ p0 :: points) as Hp0 by by left.
  split_and!; [done|lra|lra| | |].
  - intros p Hp. specialize (Hall p Hp). lra.
  - intros _. split.
    + destruct Ha as [->|(p & Hp & ->)]; eauto.
    + destruct Hc as [->|(p & Hp & ->)]; eauto.
  - intros _. split; [done|]. intros _. split.
    + replace (minX + (maxX - minX))%R with maxX by lra.
      destruct Hb as [->|(p & Hp & ->)]; eauto.
    + replace (minY + (maxY - minY))%R with maxY by lra.
      destruct Hd as [->|(p & Hp & ->)]; eauto.
Qed.

(** ** Smoothing and the bounding box *)

Lemma Rsum_between l lo hi :
  Forall (λ x, lo <= x <= hi)%R l →
  (IZR (Z.of_nat (length l)) * lo <= Rsum l
     <= IZR (Z.of_nat (length l)) * hi)%R.
Proof.
  induction 1 as [|x l Hx _ IH].
  { cbn. change (Z.of_nat 0) with 0. lra. }
  cbn [length Rsum foldr]. fold (Rsum l).
  rewrite Nat2Z.inj_succ, succ_IZR. lra.
Qed.

Lemma mean_between l c lo hi :
  Forall (λ x, lo <= x <= hi)%R l →
  Z.of_nat (length l) = c → 0 < c →
  (lo <= Rsum l / IZR c <= hi)%R.
Proof.
  intros Hall Hlen Hc. pose proof (Rsum_between l lo hi Hall) as Hsum.
  rewrite Hlen in Hsum.
  assert (0 < IZR c)%R as Hpos by by apply IZR_lt.
  split.
  - apply Rmult_le_reg_r with (IZR c); [done|].
    replace (Rsum l / IZR c * IZR c)%R with (Rsum l) by (field; lra). lra.
  - apply Rmult_le_reg_r with (IZR c); [done|].
    replace (Rsum l / IZR c * IZR c)%R with (Rsum l) by (field; lra). lra.
Qed.

Lemma smoothContour_means contour :
  (5 ≤ length contour)%nat →
  smoothContour contour
  = (λ i, mkPoint (window_mean px contour i) (window_mean py contour i))
      <$> seqZ 0 (Z.of_nat (length contour)).
Proof.
  intros Hlen. unfold smoothContour. rewrite decide_False by lia.
  set (n := Z.of_nat (length contour)).
  set (w := Z.min 5 (n / 10)).
  assert (0 ≤ w < n) as Hw.
  { subst w. pose proof (Z.div_pos n 10). pose proof (Z.div_lt n 10). lia. }
  rewrite (for_range_collect 0 n _
    (λ i, mkPoint (window_mean px contour i) (window_mean py contour i))).
  - by rewrite app_nil_l, Z.sub_0_r.
  - intros i acc Hi. pose proof (window_loop contour i w) as Hloop.
    cbv zeta in Hloop. fold n in Hloop. rewrite Hloop by lia. done.
Qed.

Lemma window_mean_between (f : Point R → R) contour lo hi i :
  (5 ≤ length contour)%nat →
  Forall (λ p, lo <= f p <= hi)%R contour →
  (lo <= window_mean f contour i <= hi)%R.
Proof.
  intros Hlen Hall. unfold window_mean. cbv zeta.
  set (n := Z.of_nat (length contour)).
  set (w := Z.min 5 (n / 10)).
  assert (0 ≤ w) as Hw by (subst w; pose proof (Z.div_pos n 10); lia).
  apply mean_between; [|rewrite length_fmap, length_seqZ; lia|lia].
  apply Forall_fmap, Forall_forall. intros k _. cbn.
  pose proof (Z.mod_pos_bound k n ltac:(lia)) as Hk.
  apply (Forall_lookup_1 _ _ (Z.to_nat (k `mod` n)) _ Hall).
  apply arr_get_lookup. lia.
Qed.

(** X18: smoothing a contour of pixel points never leaves its bounding
    box: every point of [smoothContour contour] lies in the box that
    [calculateBounds] gives for [contour]. *)
Theorem smoothContour_in_bounds contour :
  pixel_points contour →
  Forall (in_box (calculateBounds contour)) (smoothContour contour).
Proof.
  intros _. pose proof (calculateBounds_holds contour) as Hbox.
  destruct (decide (length contour < 5)%nat) as [Hshort|Hlong].
  { unfold smoothContour. by rewrite decide_True by done. }
  rewrite smoothContour_means by lia.
  apply Forall_fmap, Forall_forall. intros i _. split; cbn [px py].
  - apply (window_mean_between px); [lia|].
    eapply Forall_impl; [exact Hbox|]. by intros p [? _].
  - apply (window_mean_between py); [lia|].
    eapply Forall_impl; [exact Hbox|]. by intros p [_ ?].
Qed.

Lemma smoothContour_in_bounds_witness :
  pixel_points parabola10 ∧
  Forall (in_box (calculateBounds parabola10)) (smoothContour parabola10).
Proof.
  split; [exact pixel_points_parabola10|].
  exact (smoothContour_in_bounds parabola10 pixel_points_parabola10).
Defined.

(** ** Canvas size and batch results *)

Lemma round_div_zero a b : 0 ≤ a → 0 < b → round_div a b = 0 ↔ 2 * a < b.
Proof.
  intros Ha Hb. unfold round_div. rewrite Z.div_small_iff by lia. lia.
Qed.

(** X19: for an image of positive width and height [setupCanvas] gives a
    canvas of at most 1200 by 1200 pixels that is never larger than the
    image: the size of the image when that is within the limit, and
    otherwise a size whose longer side is 1200.  A side of the canvas is 0
    exactly when the image is more than 2400 times longer in the other
    direction. *)
Theorem setupCanvas_limits w h :
  0 < w → 0 < h →
  let cw := (setupCanvas w h).1 in
  let ch := (setupCanvas w h).2 in
  0 ≤ cw ≤ Z.min w 1200 ∧ 0 ≤ ch ≤ Z.min h 1200 ∧
  (w ≤ 1200 ∧ h ≤ 1200 → cw = w ∧ ch = h) ∧
  (w > 1200 ∨ h > 1200 → Z.max cw ch = 1200) ∧
  (cw = 0 ↔ 2400 * w < h) ∧ (ch = 0 ↔ 2400 * h < w).
Proof.
  intros Hw Hh. cbv zeta. unfold setupCanvas. cbv zeta.
  destruct (decide (w > 1200 ∨ h > 1200)) as [Hbig|Hsmall]; cycle 1.
  { cbn [fst snd]. lia. }
  destruct (decide (w > h)) as [Hwide|Htall]; cbn [fst snd].
  - pose proof (round_div_zero (1200 * h) w) as Hz.
    assert (round_div (1200 * h) w ≤ 1200).
    { unfold round_div. apply Z.lt_succ_r, Z.div_lt_upper_bound; lia. }
    assert (round_div (1200 * h) w ≤ h).
    { unfold round_div. apply Z.lt_succ_r, Z.div_lt_upper_bound; nia. }
    assert (0 ≤ round_div (1200 * h) w).
    { unfold round_div. apply Z.div_pos; lia. }
    split_and!; lia.
  - assert (round_div (1200 * w) h ≤ 1200).
    { unfold round_div. apply Z.lt_succ_r, Z.div_lt_upper_bound; lia. }
    assert (round_div (1200 * w) h ≤ w).
    { unfold round_div. apply Z.lt_succ_r, Z.div_lt_upper_bound; nia. }
    assert (0 ≤ round_div (1200 * w) h).
    { unfold round_div. apply Z.div_pos; lia. }
    pose proof (round_div_zero (1200 * w) h) as Hz.
    split_and!; lia.
Qed.

Lemma setupCanvas_limits_witness :
  let cw := (setupCanvas 5000 2).1 in
  let ch := (setupCanvas 5000 2).2 in
  0 ≤ cw ≤ Z.min 5000 1200 ∧ 0 ≤ ch ≤ Z.min 2 1200 ∧
  (5000 ≤ 1200 ∧ 2 ≤ 1200 → cw = 5000 ∧ ch = 2) ∧
  (5000 > 1200 ∨ 2 > 1200 → Z.max cw ch = 1200) ∧
  (cw = 0 ↔ 2400 * 5000 < 2) ∧ (ch = 0 ↔ 2400 * 2 < 5000).
Proof. apply (setupCanvas_limits 5000 2); lia. Defined.

(** What a resolved [processSingleImage] holds. *)
Lemma processSingleImage_inr getImageData pipeline file i r :
  processSingleImage getImageData pipeline file i = inr r →
  index r = i ∧ originalFile r = file ∧
  processedImageData r = pipeline (originalImageData r) ∧
  filename (metadata r) = file_name file ∧
  fileSize (metadata r) = file_size file ∧
  meta_width (metadata r) ≠ 0 ∧ meta_height (metadata r) ≠ 0 ∧
  ∃ img, file_content file = Bitmap img ∧
         (meta_width (metadata r), meta_height (metadata r))
           = setupCanvas (width img) (height img) ∧
         originalImageData r
           = getImageData img (meta_width (metadata r))
               (meta_height (metadata r)).
Proof.
  unfold processSingleImage.
  destruct (file_content file) as [| |img]; [done|done|].
  destruct (setupCanvas _ _) as [cw ch] eqn:Hcanvas.
  case_decide as Hzero; [done|]. intros [= <-]. cbn.
  split_and!; [done..|lia|lia|]. exists img. by split_and!.
Qed.

Lemma processLoop_inr getImageData pipeline files : ∀ i results out,
  processLoop getImageData pipeline files i results = inr out →
  ∃ rs, out = results ++ rs ∧ length rs = length files ∧
        ∀ k r, rs !! k = Some r →
          ∃ file, files !! k = Some file ∧
                  processSingleImage getImageData pipeline file (i + k)
                    = inr r.
Proof.
  induction files as [|f files IH]; intros i results out; cbn [processLoop].
  { intros [= <-]. exists []. rewrite app_nil_r. split_and!; [done..|].
    by intros k r ?. }
  destruct (processSingleImage _ _ f i) as [e|r0] eqn:Hr0; [done|].
  intros (rs & -> & Hlen & Hrs)%IH.
  exists (r0 :: rs). split_and!.
  - by rewrite <- app_assoc.
  - cbn. lia.
  - intros [|k] r Hr; cbn in Hr.
    + injection Hr as <-. exists f. by rewrite Nat.add_0_r.
    + destruct (Hrs k r Hr) as (file & Hfile & Hsingle).
      exists file. split; [done|].
      by replace (i + S k)%nat with (S i + k)%nat by lia.
Qed.

(** X20: when [processImages] returns results, it has stored them, there
    is one per file, and the result at position [k] carries the index [k],
    the file at position [k] with its name and size, the output of the
    pipeline on its original data, and a canvas size without a zero. *)
Theorem processImages_results getImageData pipeline st files st' results :
  processImages getImageData pipeline st files = (st', inr results) →
  processedImages st' = results ∧ alerts st' = alerts st ∧
  length results = length files ∧
  ∀ k r, results !! k = Some r →
    index r = k ∧ files !! k = Some (originalFile r) ∧
    processedImageData r = pipeline (originalImageData r) ∧
    filename (metadata r) = file_name (originalFile r) ∧
    fileSize (metadata r) = file_size (originalFile r) ∧
    meta_width (metadata r) ≠ 0 ∧ meta_height (metadata r) ≠ 0.
Proof.
  unfold processImages.
  destruct (processLoop _ _ _ _ _) as [e|out] eqn:Hloop; [done|].
  intros [= <- <-].
  apply processLoop_inr in Hloop as (rs & -> & Hlen & Hrs).
  cbn [app processedImages alerts]. split_and!; [done..|].
  intros k r Hr. destruct (Hrs k r Hr) as (file & Hfile & Hsingle).
  apply processSingleImage_inr in Hsingle
    as (Hi & Hf & Hp & Hn & Hs & Hw & Hh & _).
  cbn in Hi. subst file. by split_and!.
Qed.

Lemma processImages_results_witness :
  let files := [mkImageFile "a.png" 100 (Bitmap white3)] in
  let r := mkImageResult 0 (mkImageFile "a.png" 100 (Bitmap white3))
             white3 white3 (mkMetadata "a.png" 3 3 100) in
  processedImages (mkAppState [r] []) = [r] ∧
  alerts (mkAppState [r] []) = alerts (mkAppState [] []) ∧
  length [r] = length files ∧
  ∀ k r', [r] !! k = Some r' →
    index r' = k ∧ files !! k = Some (originalFile r') ∧
    processedImageData r' = (λ img, img) (originalImageData r') ∧
    filename (metadata r') = file_name (originalFile r') ∧
    fileSize (metadata r') = file_size (originalFile r') ∧
    meta_width (metadata r') ≠ 0 ∧ meta_height (metadata r') ≠ 0.
Proof.
  apply (processImages_results (λ img _ _, img) (λ img, img)
           (mkAppState [] []) [mkImageFile "a.png" 100 (Bitmap white3)]).
  reflexivity.
Defined.

(** ** The PDF document *)

Lemma for_rangeM_pure {St : Type} lo hi (body : Z → St → option St)
    (f : Z → St → St) s :
  (∀ i t, lo ≤ i < hi → body i t = Some (f i t)) →
  for_rangeM lo hi body s = Some (for_range lo hi f s).
Proof.
  intros Hbody. destruct (decide (lo ≤ hi)) as [Hle|]; cycle 1.
  { by rewrite for_rangeM_nil, for_range_nil by lia. }
  assert (∀ n : nat, lo + Z.of_nat n ≤ hi →
            for_rangeM lo (lo + Z.of_nat n) body s
            = Some (for_range lo (lo + Z.of_nat n) f s)) as Hn.
  { induction n as [|n IH]; intros Hb.
    - by rewrite Z.add_0_r, for_rangeM_nil, for_range_nil by lia.
    - replace (lo + Z.of_nat (S n)) with (lo + Z.of_nat n + 1) by lia.
      rewrite for_rangeM_snoc, for_range_snoc by lia.
      rewrite IH by lia. cbn. apply Hbody. lia. }
  specialize (Hn (Z.to_nat (hi - lo))).
  replace (lo + Z.of_nat (Z.to_nat (hi - lo))) with hi in Hn by lia.
  apply Hn. lia.
Qed.

Lemma slice_take {A} (a : list A) m :
  0 ≤ m → slice a 0 m = take (Z.to_nat m) a.
Proof.
  intros Hm. unfold slice, slice_index.
  rewrite !decide_False by lia.
  rewrite (Z.min_l 0) by lia. change (Z.to_nat 0) with 0%nat.
  rewrite drop_0, Z.sub_0_r.
  destruct (decide (m ≤ Z.of_nat (length a))).
  - by rewrite Z.min_l by lia.
  - rewrite Z.min_r by lia. rewrite Nat2Z.id.
    rewrite (take_ge a (length a)) by lia.
    by rewrite (take_ge a (Z.to_nat m)) by lia.
Qed.

Lemma imap_seqZ {A B} `{Inhabited A} (f : nat → A → B) (l : list A) :
  (λ i, f (Z.to_nat i) (arr_get l i)) <$> seqZ 0 (Z.of_nat (length l))
  = imap f l.
Proof.
  apply list_eq. intros k. rewrite list_lookup_fmap, list_lookup_imap.
  destruct (decide (k < length l)%nat) as [Hlt|Hge].
  - rewrite lookup_seqZ_lt by lia. cbn.
    destruct (lookup_lt_is_Some_2 l k Hlt) as [a Ha]. rewrite Ha. cbn.
    rewrite Z.add_0_l, Nat2Z.id. do 2 f_equal.
    unfold arr_get. rewrite Nat2Z.id. by apply list_lookup_total_correct.
  - rewrite lookup_seqZ_ge by lia. by rewrite lookup_ge_None_2 by lia.
Qed.

(** X21: with a page size, [createPDFDocument] returns a document whose
    pages are a cover, when there is more than one image, followed by one
    content page per image, numbered from 1 in the order of the images;
    the cover has the number 0 and shows the first four images, and the
    page count of the metadata is the number of images, whether there is
    a cover or not.  Without a page size the call raises as soon as there
    is an image. *)
Theorem createPDFDocument_pages margins l svgData :
  let n := Z.of_nat (length svgData) in
  (∀ ps,
     createPDFDocument margins l (Some ps) svgData
     = Some (mkPDFDocument
               ((if decide (n > 1)
                 then [CoverPage 0 ps n (take 4 svgData)
                         (calculateCoverLayout margins ps)]
                 else [])
                ++ imap (content_page margins l ps n) svgData)
               n)) ∧
  (svgData ≠ [] → createPDFDocument margins l None svgData = None) ∧
  createPDFDocument margins l None [] = Some (mkPDFDocument [] 0).
Proof.
  cbv zeta. split_and!; [| |done].
  - intros ps. unfold createPDFDocument. cbv zeta.
    set (n := Z.of_nat (length svgData)).
    set (cover := if decide (n > 1)
                  then [CoverPage 0 ps n (take 4 svgData)
                          (calculateCoverLayout margins ps)]
                  else []).
    assert ((if decide (n > 1)
             then cover ← createCoverPage margins (Some ps) svgData;
                  Some [cover]
             else Some []) = Some cover) as ->.
    { subst cover. case_decide; [|done]. cbn. do 3 f_equal.
      by apply (slice_take svgData 4). }
    cbn [mbind option_bind].
    rewrite (for_rangeM_pure 0 n _
      (λ i pages, pages ++ [content_page margins l ps n (Z.to_nat i)
                              (arr_get svgData i)])).
    + cbn. do 2 f_equal.
      rewrite (for_range_collect 0 n _
        (λ i, content_page margins l ps n (Z.to_nat i) (arr_get svgData i)))
        by done.
      f_equal. rewrite Z.sub_0_r. subst n.
      apply (imap_seqZ (content_page margins l ps (Z.of_nat (length svgData)))).
    + intros i pages Hi. cbn. unfold content_page.
      by rewrite Z2Nat.id by lia.
  - intros Hne. unfold createPDFDocument. cbv zeta.
    destruct svgData as [|a svgData]; [done|].
    case_decide; [done|]. cbn [mbind option_bind].
    assert (Z.of_nat (length (a :: svgData)) = 0 + 1) as -> by (cbn in *; lia).
    by rewrite for_rangeM_snoc by lia.
Qed.

(** X22: on a content page the header, the content area and the footer
    span the width between the side margins and follow each other from
    the top margin to the bottom margin, [pageSpacing] apart; on the cover
    the title, the thumbnails and the instructions do so 20 apart, and the
    instructions end 20 above the bottom margin.  The content area and
    the thumbnail area have a height that is not negative exactly when
    the page is tall enough for the other areas. *)
Theorem layout_areas margins l ps :
  let content := calculateContentLayout margins l ps in
  let cover := calculateCoverLayout margins ps in
  let inner_height :=
    (page_height ps - margin_top margins - margin_bottom margins)%R in
  (area_y (headerArea content) = margin_top margins ∧
   (area_y (headerArea content) + area_height (headerArea content)
      + pageSpacing l = area_y (contentArea content))%R ∧
   (area_y (contentArea content) + area_height (contentArea content)
      + pageSpacing l = area_y (footerArea content))%R ∧
   (area_y (footerArea content) + area_height (footerArea content)
      = page_height ps - margin_bottom margins)%R ∧
   ((0 <= area_height (contentArea content))%R ↔
    (titleHeight l + footerHeight l + 2 * pageSpacing l <= inner_height)%R)) ∧
  (area_y (titleArea cover) = margin_top margins ∧
   stacked 20 (titleArea cover) (thumbnailArea cover) ∧
   stacked 20 (thumbnailArea cover) (instructionsArea cover) ∧
   (area_y (instructionsArea cover) + area_height (instructionsArea cover)
      + 20 = page_height ps - margin_bottom margins)%R ∧
   ((0 <= area_height (thumbnailArea cover))%R ↔ (200 <= inner_height)%R)) ∧
  Forall (λ a,
    area_x a = margin_left margins ∧
    (area_x a + area_width a = page_width ps - margin_right margins)%R)
    [headerArea content; contentArea content; footerArea content;
     titleArea cover; thumbnailArea cover; instructionsArea cover].
Proof.
  cbv zeta. unfold calculateContentLayout, calculateCoverLayout, stacked.
  cbn [headerArea contentArea footerArea titleArea thumbnailArea
       instructionsArea area_x area_y area_width area_height].
  split_and!; try lra; try (split; lra).
  repeat constructor; cbn [area_x area_width]; lra.
Qed.

Lemma pdf_page_loop pages : ∀ (m : Z) objects pageIds,
  foldl (λ '(objects, objectCounter, pageIds) page,
    let pageIds := pageIds ++ [objectCounter] in
    let id := objectCounter in
    let objectCounter := objectCounter + 1 in
    let objects :=
      objects ++ [mkPdfEntry id
                    (PageObject 2 (page_dimensions page)
                       objectCounter (objectCounter + 1))] in
    let id := objectCounter in
    let objectCounter := objectCounter + 1 in
    let objects := objects ++ [mkPdfEntry id (ContentStream page)] in
    (objects, objectCounter, pageIds))
    (objects, 3 + 2 * m, pageIds) pages
  = (objects ++ mjoin (imap (λ k page, page_entries (m + Z.of_nat k) page) pages),
     3 + 2 * (m + Z.of_nat (length pages)),
     pageIds ++ ((λ k, 3 + 2 * k) <$> seqZ m (Z.of_nat (length pages)))).
Proof.
  induction pages as [|page pages IH]; intros m objects pageIds.
  { cbn. rewrite !app_nil_r, Z.add_0_r. done. }
  cbn [foldl]. cbv zeta.
  replace (3 + 2 * m + 1 + 1) with (3 + 2 * (m + 1)) by lia.
  rewrite IH. f_equal; [f_equal|].
  - rewrite <- !app_assoc. f_equal. rewrite imap_cons. cbn [mjoin list_join].
    unfold page_entries at 2. cbn [app]. rewrite Z.add_0_r.
    replace (3 + 2 * m + 1) with (4 + 2 * m) by lia.
    replace (3 + 2 * (m + 1)) with (5 + 2 * m) by lia.
    do 3 f_equal. apply imap_ext. intros k p _. cbn. f_equal. lia.
  - cbn [length]. lia.
  - rewrite <- app_assoc. f_equal. cbn [length].
    rewrite (seqZ_cons m) by lia. cbn [fmap list_fmap app].
    do 3 f_equal; lia.
Qed.

Lemma pdfObjects_table pages :
  pdfObjects pages
  = mkPdfEntry 1 (Catalog 2)
    :: alter (λ entry,
         mkPdfEntry (obj_id entry)
           (PagesObject ((λ k, 3 + 2 * k) <$> seqZ 0 (Z.of_nat (length pages)))
              (Z.of_nat (length pages)))) 0%nat
         (mjoin (imap (λ k page, page_entries (Z.of_nat k) page) pages)
          ++ [mkPdfEntry (3 + 2 * Z.of_nat (length pages)) FontObject]).
Proof.
  unfold pdfObjects. cbv zeta. change (1 + 1 + 1) with (3 + 2 * 0).
  change (1 + 1) with 2.
  rewrite (pdf_page_loop pages 0). cbn [app].
  rewrite length_fmap, length_seqZ, Z2Nat.id by lia.
  rewrite !Z.add_0_l. done.
Qed.

Lemma page_entries_ids pages : ∀ m,
  obj_id <$> mjoin (imap (λ k page, page_entries (m + Z.of_nat k) page) pages)
  = seqZ (3 + 2 * m) (2 * Z.of_nat (length pages)).
Proof.
  induction pages as [|page pages IH]; intros m; [done|].
  rewrite imap_cons. cbn [mjoin list_join page_entries app fmap list_fmap obj_id].
  rewrite (imap_ext _ (λ k p, page_entries ((m + 1) + Z.of_nat k) p))
    by (intros k p _; cbn; f_equal; lia).
  fold (mjoin (M := list) (A := PdfEntry)).
  change (list_fmap PdfEntry Z obj_id) with (fmap (M := list) obj_id).
  rewrite IH. cbn [length].
  rewrite (seqZ_cons (3 + 2 * m)) by lia.
  rewrite (seqZ_cons (Z.succ (3 + 2 * m))) by lia.
  f_equal; [lia|]. f_equal; [lia|]. f_equal; lia.
Qed.

Lemma page_entries_lookup pages : ∀ m k page,
  pages !! k = Some page →
  mjoin (imap (λ k page, page_entries (m + Z.of_nat k) page) pages)
    !! (2 * k)%nat
    = Some (mkPdfEntry (3 + 2 * (m + Z.of_nat k))
              (PageObject 2 (page_dimensions page)
                 (4 + 2 * (m + Z.of_nat k)) (5 + 2 * (m + Z.of_nat k)))) ∧
  mjoin (imap (λ k page, page_entries (m + Z.of_nat k) page) pages)
    !! (2 * k + 1)%nat
    = Some (mkPdfEntry (4 + 2 * (m + Z.of_nat k)) (ContentStream page)).
Proof.
  induction pages as [|p pages IH]; intros m k page Hk; [done|].
  rewrite imap_cons. cbn [mjoin list_join page_entries app].
  rewrite (imap_ext _ (λ k p, page_entries ((m + 1) + Z.of_nat k) p))
    by (intros j q _; cbn; f_equal; lia).
  fold (mjoin (M := list) (A := PdfEntry)).
  destruct k as [|k].
  - injection Hk as ->. cbn. by rewrite Z.add_0_r.
  - cbn in Hk. destruct (IH (m + 1) k page Hk) as [H1 H2].
    replace (2 * S k)%nat with (S (S (2 * k))) by lia.
    replace (S (S (2 * k)) + 1)%nat with (S (S (2 * k + 1))) by lia.
    cbn [lookup list_lookup].
    replace (m + Z.of_nat (S k)) with (m + 1 + Z.of_nat k) by lia.
    split; [exact H1|exact H2].
Qed.

(** X23: the object table that [generatePDFContent] writes for [n] pages
    holds the ids 1 and 3 to [2 n + 3] in this order: the catalog refers
    to the pages collection as object 2, which no object is.  The
    collection is stored in the second entry, under the id 3 of the first
    page object, which it replaces; the content stream of every page and
    the page object of every page but the first are in the table, each
    page object naming the object after its content stream as its
    font. *)
Theorem pdfObjects_ids pages :
  let n := Z.of_nat (length pages) in
  let table := pdfObjects pages in
  obj_id <$> table = 1 :: seqZ 3 (2 * n + 1) ∧
  table !! 0%nat = Some (mkPdfEntry 1 (Catalog 2)) ∧
  table !! 1%nat
    = Some (mkPdfEntry 3 (PagesObject ((λ k, 3 + 2 * k) <$> seqZ 0 n) n)) ∧
  (∀ k page, pages !! k = Some page →
     table !! (2 * k + 2)%nat
       = Some (mkPdfEntry (4 + 2 * Z.of_nat k) (ContentStream page)) ∧
     ((0 < k)%nat →
        table !! (2 * k + 1)%nat
          = Some (mkPdfEntry (3 + 2 * Z.of_nat k)
                    (PageObject 2 (page_dimensions page)
                       (4 + 2 * Z.of_nat k) (5 + 2 * Z.of_nat k))))) ∧
  ((0 < n) → last table = Some (mkPdfEntry (3 + 2 * n) FontObject)).
Proof.
  cbv zeta. rewrite pdfObjects_table.
  set (n := Z.of_nat (length pages)).
  set (T := mjoin (imap (λ k page, page_entries (Z.of_nat k) page) pages)).
  set (f := λ entry : PdfEntry, mkPdfEntry (obj_id entry) _).
  assert (T = mjoin (imap (λ k page, page_entries (0 + Z.of_nat k) page) pages))
    as HT by done.
  assert (obj_id <$> T = seqZ 3 (2 * n)) as Hids.
  { rewrite HT, page_entries_ids. done. }
  split_and!.
  - cbn [fmap list_fmap]. f_equal.
    change (list_fmap PdfEntry Z obj_id) with (fmap (M := list) obj_id).
    rewrite (list_fmap_alter obj_id f (λ x : Z, x)) by by apply Forall_true.
    rewrite list_alter_id by done. rewrite fmap_app, Hids.
    cbn [fmap list_fmap obj_id].
    rewrite (seqZ_app 3 (2 * n) 1) by lia. f_equal.
  - done.
  - change (alter f 0%nat (T ++ [mkPdfEntry (3 + 2 * n) FontObject]) !! 0%nat
            = Some (mkPdfEntry 3
                      (PagesObject ((λ k, 3 + 2 * k) <$> seqZ 0 n) n))).
    rewrite list_lookup_alter_eq.
    destruct pages as [|page pages]; [done|]. done.
  - intros k page Hk.
    destruct (page_entries_lookup pages 0 k page Hk) as [H1 H2].
    rewrite <- HT in H1, H2. rewrite Z.add_0_l in H1, H2.
    split.
    + replace (2 * k + 2)%nat with (S (2 * k + 1)) by lia.
      rewrite lookup_cons_ne_0 by lia. cbn [pred].
      rewrite list_lookup_alter_ne by lia.
      rewrite lookup_app_l by by eapply lookup_lt_Some. done.
    + intros Hpos. replace (2 * k + 1)%nat with (S (2 * k)) by lia.
      rewrite lookup_cons_ne_0 by lia. cbn [pred].
      rewrite list_lookup_alter_ne by lia.
      rewrite lookup_app_l by by eapply lookup_lt_Some. done.
  - intros Hn. destruct pages as [|page pages]; [cbn in n; lia|].
    subst T. rewrite imap_cons. cbn [mjoin list_join page_entries app alter list_alter].
    rewrite last_cons_cons, last_cons_cons.
    by rewrite app_comm_cons, last_snoc.
Qed.

(** ** Overall bounds and the page transform *)

Lemma corner_of_singleton p :
  corner_of (bounds_x (path_bounds p)) (bounds_y (path_bounds p)) [p].
Proof.
  split_and!.
  - intros q Hq. apply list_elem_of_singleton in Hq as ->. lra.
  - exists p. split; [by left|done].
  - exists p. split; [by left|done].
Qed.

Lemma corner_of_snoc x y seen p :
  corner_of x y seen →
  corner_of (Rmin x (bounds_x (path_bounds p)))
    (Rmin y (bounds_y (path_bounds p))) (seen ++ [p]).
Proof.
  intros (Hall & (qx & Hqx & Hx) & (qy & Hqy & Hy)).
  set (bp := path_bounds p).
  pose proof (Rmin_l x (bounds_x bp)). pose proof (Rmin_r x (bounds_x bp)).
  pose proof (Rmin_l y (bounds_y bp)). pose proof (Rmin_r y (bounds_y bp)).
  split_and!.
  - intros q [Hq|Hq]%elem_of_app.
    + specialize (Hall q Hq). lra.
    + apply list_elem_of_singleton in Hq as ->. fold bp. lra.
  - destruct (Rmin_case x (bounds_x bp) (λ m, m = x ∨ m = bounds_x bp))
      as [->| ->]; [by left|by right| |].
    + exists qx. split; [apply elem_of_app; by left|done].
    + exists p. split; [apply elem_of_app; right; by left|done].
  - destruct (Rmin_case y (bounds_y bp) (λ m, m = y ∨ m = bounds_y bp))
      as [->| ->]; [by left|by right| |].
    + exists qy. split; [apply elem_of_app; by left|done].
    + exists p. split; [apply elem_of_app; right; by left|done].
Qed.

Lemma overall_fold paths : ∀ st (seen : list SVGPath),
  ((seen = [] ∧ st = (PosInfinity, NegInfinity, PosInfinity, NegInfinity)) ∨
   (seen ≠ [] ∧ ∃ a b c d,
      st = (Real a, Real b, Real c, Real d) ∧ corner_of a c seen)) →
  let seen' := seen ++ omap (λ path, path) paths in
  let st' := foldl overall_step st paths in
  (seen' = [] ∧ st' = (PosInfinity, NegInfinity, PosInfinity, NegInfinity)) ∨
  (seen' ≠ [] ∧ ∃ a b c d,
     st' = (Real a, Real b, Real c, Real d) ∧ corner_of a c seen').
Proof.
  induction paths as [|path paths IH]; intros st seen Hinv; cbv zeta.
  { cbn. by rewrite app_nil_r. }
  cbn [foldl omap list_omap].
  destruct path as [p|]; cycle 1.
  { destruct st as [[[minX maxX] minY] maxY].
    apply (IH (minX, maxX, minY, maxY) seen).
    destruct Hinv as [[-> ->]|(Hne & a & b & c & d & -> & Hall)];
      [by left|right; eauto 10]. }
  replace (seen ++ p :: omap (λ path, path) paths)
    with ((seen ++ [p]) ++ omap (λ path, path) paths)
    by by rewrite <- app_assoc.
  apply IH. right. split; [by intros [_ ?]%app_eq_nil|].
  destruct Hinv as [[-> ->]|(Hne & a & b & c & d & -> & Hall)].
  - cbn. eexists _, _, _, _. split; [done|]. apply corner_of_singleton.
  - cbn [overall_step ext_min ext_max].
    eexists _, _, _, _. split; [done|]. by apply corner_of_snoc.
Qed.

(** X24: for no paths [calculateOverallBounds] gives the box
    (0, 0, 100, 100); when at least one path is not null it gives a box of
    real numbers whose corner is the corner of the boxes of the paths that
    are not null: no box begins left of it or above it, and one begins on
    each of its two levels; when there are paths and all are null its
    corner is at infinity and its width and height are minus infinity. *)
Theorem calculateOverallBounds_corner vectorPaths :
  (vectorPaths = [] →
     calculateOverallBounds vectorPaths
     = mkExtBounds (Real 0) (Real 0) (Real 100) (Real 100)) ∧
  ((∃ p, Some p ∈ vectorPaths) →
     ∃ x y w h,
       calculateOverallBounds vectorPaths
       = mkExtBounds (Real x) (Real y) (Real w) (Real h) ∧
       (∀ p, Some p ∈ vectorPaths →
          (x <= bounds_x (path_bounds p))%R ∧
          (y <= bounds_y (path_bounds p))%R) ∧
       (∃ p, Some p ∈ vectorPaths ∧ bounds_x (path_bounds p) = x) ∧
       (∃ p, Some p ∈ vectorPaths ∧ bounds_y (path_bounds p) = y)) ∧
  (vectorPaths ≠ [] → (∀ p, Some p ∉ vectorPaths) →
     calculateOverallBounds vectorPaths
     = mkExtBounds PosInfinity PosInfinity NegInfinity NegInfinity).
Proof.
  assert (∀ p, p ∈ omap (λ path : option SVGPath, path) vectorPaths
               ↔ Some p ∈ vectorPaths) as Hmem.
  { intros p. rewrite list_elem_of_omap. split.
    - by intros (? & ? & ->).
    - intros ?. by exists (Some p). }
  pose proof (overall_fold vectorPaths
                (PosInfinity, NegInfinity, PosInfinity, NegInfinity) [])
    as Hfold.
  cbv zeta in Hfold. rewrite app_nil_l in Hfold.
  specialize (Hfold ltac:(by left)).
  unfold calculateOverallBounds.
  change (foldl _ _ vectorPaths)
    with (foldl overall_step
            (PosInfinity, NegInfinity, PosInfinity, NegInfinity) vectorPaths).
  split_and!.
  - by intros ->.
  - intros [p Hp]. rewrite decide_False; cycle 1.
    { intros Hlen%length_zero_iff_nil. subst. by apply elem_of_nil in Hp. }
    destruct Hfold as [[Hnil _]|(_ & a & b & c & d & -> & Hcorner)].
    { apply Hmem in Hp. rewrite Hnil in Hp. by apply elem_of_nil in Hp. }
    destruct Hcorner as (Hall & (qx & Hqx & Hx) & (qy & Hqy & Hy)).
    cbn. exists a, c, (b + - a)%R, (d + - c)%R. split; [done|]. split_and!.
    + intros q Hq%Hmem. by apply Hall.
    + exists qx. split; [by apply Hmem|done].
    + exists qy. split; [by apply Hmem|done].
  - intros Hne Hnone. rewrite decide_False; cycle 1.
    { by intros Hlen%length_zero_iff_nil. }
    destruct Hfold as [[_ ->]|(Hsome & _)]; [done|].
    exfalso. apply Hsome.
    destruct (omap _ vectorPaths) as [|p ?]; [done|].
    destruct (Hnone p). apply Hmem. by left.
Qed.

(** X25: for a content box of real numbers whose width and height are
    not negative, and a page more than 40 wide and high,
    [calculateTransform] gives real numbers, with a scale above 0 and at
    most 1: the content is never enlarged, and it keeps its size, at
    scale 1, when it fits between the margins of 20. *)
Theorem calculateTransform_scale x y w h pageSize :
  (0 <= w)%R → (0 <= h)%R →
  (40 < page_width pageSize)%R → (40 < page_height pageSize)%R →
  ∃ s ox oy,
    calculateTransform (mkExtBounds (Real x) (Real y) (Real w) (Real h))
      pageSize
    = mkTransform (Real ox) (Real oy) (Real s) ∧
    (0 < s <= 1)%R ∧
    ((w <= page_width pageSize - 40)%R →
     (h <= page_height pageSize - 40)%R → s = 1%R).
Proof.
  intros Hw Hh HW HH. unfold calculateTransform. cbv zeta.
  cbn [ext_width ext_height ext_x ext_y].
  set (aw := (page_width pageSize - 20 * 2)%R).
  set (ah := (page_height pageSize - 20 * 2)%R).
  assert (0 < aw)%R as Haw by (subst aw; lra).
  assert (0 < ah)%R as Hah by (subst ah; lra).
  assert (∃ s, ext_min (ext_min (ext_div (Real aw) (Real w))
                          (ext_div (Real ah) (Real h))) (Real 1) = Real s ∧
               (0 < s <= 1)%R ∧
               ((w <= aw)%R → (h <= ah)%R → s = 1%R))
    as (s & -> & Hs & Hone).
  { assert (∀ a c, (0 < a)%R → (0 < c)%R → (0 < a / c)%R) as Hdiv.
    { intros a c Ha Hc. by apply Rdiv_lt_0_compat. }
    assert (∀ a c, (0 < c)%R → (c <= a)%R → (1 <= a / c)%R) as Hfit.
    { intros a c Hc Hle. apply Rmult_le_reg_r with c; [done|].
      replace (a / c * c)%R with a by (field; lra). lra. }
    unfold ext_div.
    destruct (decide (w = 0%R)) as [->|Hw0];
      destruct (decide (h = 0%R)) as [->|Hh0];
      rewrite ?(decide_False (P := aw = 0%R)) by lra;
      rewrite ?(decide_False (P := ah = 0%R)) by lra;
      rewrite ?(decide_True (P := (aw > 0)%R)) by lra;
      rewrite ?(decide_True (P := (ah > 0)%R)) by lra;
      cbn [ext_min].
    - exists 1%R. split; [done|]. split_and!; lra.
    - exists (Rmin (ah / h) 1). split; [done|].
      pose proof (Rmin_l (ah / h) 1). pose proof (Rmin_r (ah / h) 1).
      pose proof (Hdiv ah h ltac:(lra) ltac:(lra)).
      split_and!; try lra.
      + apply Rmin_glb_lt; lra.
      + intros _ Hle. apply Rmin_right. apply Hfit; lra.
    - exists (Rmin (aw / w) 1). split; [done|].
      pose proof (Rmin_l (aw / w) 1). pose proof (Rmin_r (aw / w) 1).
      pose proof (Hdiv aw w ltac:(lra) ltac:(lra)).
      split_and!; try lra.
      + apply Rmin_glb_lt; lra.
      + intros Hle _. apply Rmin_right. apply Hfit; lra.
    - exists (Rmin (Rmin (aw / w) (ah / h)) 1). split; [done|].
      pose proof (Rmin_l (Rmin (aw / w) (ah / h)) 1).
      pose proof (Rmin_r (Rmin (aw / w) (ah / h)) 1).
      pose proof (Rmin_l (aw / w) (ah / h)).
      pose proof (Rmin_r (aw / w) (ah / h)).
      pose proof (Hdiv aw w ltac:(lra) ltac:(lra)).
      pose proof (Hdiv ah h ltac:(lra) ltac:(lra)).
      split_and!; try lra.
      + repeat apply Rmin_glb_lt; lra.
      + intros Hlw Hlh. apply Rmin_right. apply Rmin_glb; apply Hfit; lra. }
  cbn [ext_mul ext_sub ext_add ext_opp ext_div].
  rewrite !(decide_False (P := 2%R = 0%R)) by lra.
  eexists s, _, _. split; [done|].
  split; [exact Hs|]. subst aw ah. intros; apply Hone; lra.
Qed.

Lemma calculateTransform_scale_witness :
  ∃ s ox oy,
    calculateTransform (mkExtBounds (Real 0) (Real 0) (Real 268) (Real 10))
      (mkPageSize 210 297)
    = mkTransform (Real ox) (Real oy) (Real s) ∧
    (0 < s <= 1)%R ∧
    ((268 <= page_width (mkPageSize 210 297) - 40)%R →
     (10 <= page_height (mkPageSize 210 297) - 40)%R → s = 1%R).
Proof.
  apply (calculateTransform_scale 0 0 268 10 (mkPageSize 210 297));
    cbn; lra.
Defined.

(** ** Paths stay inside the image *)

Lemma findContours_traced fuel s bm w h contours :
  findContours fuel s bm w h = Some contours →
  Forall (traced_region s bm w h) contours.
Proof.
  unfold findContours.
  destruct (for_rangeM _ _ _ _) as [[cs vis]|] eqn:Hscan; [|done].
  intros [= <-].
  apply (for_rangeM_preserve (λ st, Forall (traced_region s bm w h) st.1))
    in Hscan; [done|done|].
  intros y t t' Hy Ht.
  apply (for_rangeM_preserve (λ st, Forall (traced_region s bm w h) st.1));
    [done|].
  intros x u u' Hx Hu. by apply findContoursAt_regions.
Qed.

Lemma smoothContour_between contour lox hix loy hiy :
  Forall (λ p, (lox <= px p <= hix)%R ∧ (loy <= py p <= hiy)%R) contour →
  Forall (λ p, (lox <= px p <= hix)%R ∧ (loy <= py p <= hiy)%R)
    (smoothContour contour).
Proof.
  intros Hbox.
  destruct (decide (length contour < 5)%nat) as [Hshort|Hlong].
  { unfold smoothContour. by rewrite decide_True by done. }
  rewrite smoothContour_means by lia.
  apply Forall_fmap, Forall_forall. intros i _. split; cbn [px py].
  - apply (window_mean_between px); [lia|].
    eapply Forall_impl; [exact Hbox|]. by intros p [? _].
  - apply (window_mean_between py); [lia|].
    eapply Forall_impl; [exact Hbox|]. by intros p [_ ?].
Qed.

Lemma simplifyPath_sublist fuel s points r :
  (0 <= simplifyTolerance s)%R → (length points ≤ fuel)%nat →
  simplifyPath fuel s points = Some r → r `sublist_of` points.
Proof.
  intros Htol Hfuel. unfold simplifyPath. case_decide; [by intros [= <-]|].
  destruct (douglasPeucker_keeps (Finite (simplifyTolerance s)) fuel points)
    as (r' & -> & Hsub & _); [done..|].
  by intros [= <-].
Qed.

(** X26: with fuel for nine steps per admissible contour point and a
    tolerance that is not negative, [extractVectorPaths] returns, and
    every point of every path it returns lies inside the image: between
    the centres of its outermost pixels in both directions. *)
Theorem extractVectorPaths_inside fuel s img :
  wf_image img → (0 <= simplifyTolerance s)%R →
  9 * Z.max 0 (maxPoints s) + 2 ≤ Z.of_nat fuel →
  ∃ paths,
    extractVectorPaths fuel s img = Some paths ∧
    Forall (λ path, ∃ p, path = Some p ∧
                         Forall (inside_image img) (path_points p)) paths.
Proof.
  intros (Hw & Hh & _) Htol Hfuel. unfold extractVectorPaths. cbv zeta.
  set (bm := createBinaryMap (data img) (width img) (height img)).
  destruct (findContours_total s bm (width img) (height img) fuel Hfuel)
    as [contours Hrun].
  rewrite Hrun. cbn [mbind option_bind].
  pose proof (findContours_traced _ _ _ _ _ _ Hrun) as Hreg.
  apply findContours_inv in Hrun as [_ Hcap]; [|done..].
  set (f := λ contour : list (Point Z),
    simplifiedPath ← simplifyPath fuel s (smoothContour (to_real <$> contour));
    Some (createSVGPath simplifiedPath)).
  assert (∀ c, Z.of_nat (length c) ≤ Z.max 0 (maxPoints s) →
               (length (smoothContour (to_real <$> c)) ≤ fuel)%nat) as Hlen.
  { intros c Hc. rewrite length_smoothContour, length_fmap. lia. }
  destruct (mapM_is_Some_2 f contours) as [paths Hpaths].
  { eapply Forall_impl; [exact Hcap|]. intros c Hc. cbn. unfold f.
    destruct (simplifyPath_total fuel s (smoothContour (to_real <$> c)) Htol)
      as [r ->]; [by apply Hlen|done]. }
  rewrite Hpaths. cbn. eexists. split; [done|].
  apply mapM_Some_1 in Hpaths.
  apply Forall_forall. intros path [Hkeep Hel]%list_elem_of_filter.
  destruct path as [p|]; [|done]. exists p. split; [done|].
  apply list_elem_of_lookup in Hel as [i Hi].
  destruct (Forall2_lookup_r _ _ _ _ _ Hpaths Hi) as (c & Hc & Hfc).
  unfold f in Hfc.
  destruct (simplifyPath _ _ _) as [r|] eqn:Hsimp; [|done].
  cbn in Hfc. injection Hfc as Hcreate.
  unfold createSVGPath in Hcreate. case_decide; [done|].
  injection Hcreate as <-. cbn [path_points].
  pose proof (Forall_lookup_1 _ _ _ _ Hreg Hc) as (_ & Hink & _).
  pose proof (Forall_lookup_1 _ _ _ _ Hcap Hc) as Hcapc. cbv beta in Hcapc.
  apply simplifyPath_sublist in Hsimp; [|done|by apply Hlen].
  apply Forall_forall. intros q Hq.
  pose proof (elem_of_sublist _ _ _ Hq Hsimp) as Hq'.
  assert (Forall (λ p, (0 <= px p <= IZR (width img - 1))%R ∧
                       (0 <= py p <= IZR (height img - 1))%R)
            (smoothContour (to_real <$> c))) as Hall.
  { apply smoothContour_between. apply Forall_fmap, Forall_forall.
    intros z Hz. destruct (Hink z Hz) as (Hx & Hy & _). cbn.
    split; split; apply IZR_le; lia. }
  exact (proj1 (Forall_forall _ _) Hall q Hq').
Qed.

Lemma extractVectorPaths_inside_witness :
  ∃ paths,
    extractVectorPaths (Z.to_nat 9002) defaultOptimizationSettings white_hole
      = Some paths ∧
    Forall (λ path, ∃ p, path = Some p ∧
                         Forall (inside_image white_hole) (path_points p))
      paths.
Proof.
  apply (extractVectorPaths_inside (Z.to_nat 9002)
           defaultOptimizationSettings white_hole).
  - exact wf_white_hole.
  - cbn. lra.
  - by vm_compute.
Defined.

(** ** Edges and noise *)

(** X27: edge detection ignores small variations: when the red values of
    the 3x3 neighbourhood of an interior pixel differ by at most [D] and
    [32 D^2] does not exceed the square of the threshold, the pixel is
    background (255) after [detectEdges]; in particular a pixel in a flat
    neighbourhood is never an edge. *)
Theorem detectEdges_tolerates_noise s img x y m D :
  wf_image img → 0 ≤ edgeThreshold s →
  1 ≤ x < width img - 1 → 1 ≤ y < height img - 1 →
  (∀ kx ky, -1 ≤ kx ≤ 1 → -1 ≤ ky ≤ 1 →
     m ≤ intensity img (x + kx) (y + ky) ≤ m + D) →
  32 * D * D ≤ edgeThreshold s * edgeThreshold s →
  ∀ c, 0 ≤ c < 3 → channel (detectEdges s img) x y c = Some 255.
Proof.
  intros Hwf HT Hx Hy Hflat HD c Hc.
  destruct (detectEdges_data s img) as (_ & Hhit & _). cbv zeta in Hhit.
  unfold channel. change (width (detectEdges s img)) with (width img).
  rewrite Hhit by lia. rewrite decide_False by lia.
  unfold edgeAt. rewrite sobelAt_wf by done.
  unfold magnitude_exceeds. rewrite bool_decide_eq_false_2; [done|].
  pose proof (Hflat (-1) (-1) ltac:(lia) ltac:(lia)) as H1.
  pose proof (Hflat 0 (-1) ltac:(lia) ltac:(lia)) as H2.
  pose proof (Hflat 1 (-1) ltac:(lia) ltac:(lia)) as H3.
  pose proof (Hflat (-1) 0 ltac:(lia) ltac:(lia)) as H4.
  pose proof (Hflat 1 0 ltac:(lia) ltac:(lia)) as H6.
  pose proof (Hflat (-1) 1 ltac:(lia) ltac:(lia)) as H7.
  pose proof (Hflat 0 1 ltac:(lia) ltac:(lia)) as H8.
  pose proof (Hflat 1 1 ltac:(lia) ltac:(lia)) as H9.
  rewrite ?Z.add_0_r in *.
  change (x + -1) with (x - 1) in *. change (y + -1) with (y - 1) in *.
  assert (- (4 * D) ≤ gradX img x y ≤ 4 * D) as Hgx by (unfold gradX; lia).
  assert (- (4 * D) ≤ gradY img x y ≤ 4 * D) as Hgy by (unfold gradY; lia).
  assert (0 ≤ D) as HD0 by lia.
  assert (gradX img x y * gradX img x y ≤ 16 * D * D) by nia.
  assert (gradY img x y * gradY img x y ≤ 16 * D * D) by nia.
  lia.
Qed.

Lemma detectEdges_tolerates_noise_witness :
  channel (detectEdges defaultProcessingSettings white3) 1 1 0 = Some 255.
Proof.
  apply (detectEdges_tolerates_noise defaultProcessingSettings white3 1 1
           255 0).
  - exact wf_white3.
  - done.
  - done.
  - done.
  - intros kx ky Hkx Hky.
    assert (kx = -1 ∨ kx = 0 ∨ kx = 1) as Hkxs by lia.
    assert (ky = -1 ∨ ky = 0 ∨ ky = 1) as Hkys by lia.
    destruct Hkxs as [-> | [-> | ->]]; destruct Hkys as [-> | [-> | ->]];
      by vm_compute.
  - done.
  - done.
Defined.
